(** * The command interpreter of Tale's [Soul], embedded in Rocq

    A shallow embedding of the soul parser of [tale/base.py]
    ([Soul.parse], [Soul.check_name_with_spaces],
    [Soul.match_previously_parsed], [Soul.process_verb_parsed],
    [Living.parse], [Living.remember_previous_parse]) together with the
    properties its specification states about them.

    The second part of the definitions embeds what surrounds the parser
    in [tale/base.py] and [tale/npc.py]: [Living.locate_item], the
    containment methods [insert], [remove] and [move] of [Location],
    [Living], [NPC], [Container] and [Item], [Location.tell],
    [Exit.bind], the methods of [Door] and [Key], and
    [select_random_move]; the second part of the properties is about
    these.

    Conventions of the embedding:
    - a Python [str] is a [string]; its characters are the code points
      0..255;
    - a Python object is a record carrying its identity [oid]; the
      operator [is], set membership and dictionary keys compare [oid];
    - a Python [dict] with string keys whose iteration order can be
      observed is an insertion-ordered association list ([dict]); the
      dictionary [who_info], keyed by objects, is a [gmap] over [oid];
    - a Python [set] that the code iterates over is the list of its
      elements in iteration order;
    - an exception is a value of [error]; the lines told to the actor are
      collected next to the outcome, so that what was told before a
      failure stays visible ([M]). *)

From Stdlib Require Import Ascii String.
From stdpp Require Import functions.
From stdpp Require Import base option list gmap strings.

Local Open Scope string_scope.
Local Open Scope list_scope.
Local Open Scope nat_scope.

(** ** Characters and strings as Python sees them *)

Module Py.

Definition chr (n : nat) : ascii := ascii_of_nat n.
Definition NL : ascii := chr 10.
Definition TAB : ascii := chr 9.
Definition SQUOTE : ascii := chr 39.
Definition DQUOTE : ascii := chr 34.

Definition str1 (c : ascii) : string := String c EmptyString.

(** [str.isspace] on the code points below 256. *)
Definition isspace (c : ascii) : bool :=
  let n := nat_of_ascii c in
  ((9 <=? n) && (n <=? 13)) || ((28 <=? n) && (n <=? 32))
  || (n =? 133) || (n =? 160).

Definition isupper (c : ascii) : bool :=
  let n := nat_of_ascii c in
  ((65 <=? n) && (n <=? 90))
  || ((192 <=? n) && (n <=? 222) && negb (n =? 215)).

Definition lower_char (c : ascii) : ascii :=
  if isupper c then chr (nat_of_ascii c + 32) else c.

Fixpoint lower (s : string) : string :=
  match s with
  | EmptyString => EmptyString
  | String c s' => String (lower_char c) (lower s')
  end.

(** Truthiness of a [str]. *)
Definition nonempty (s : string) : bool :=
  match s with EmptyString => false | String _ _ => true end.

(** [s[n:]] *)
Fixpoint drop (n : nat) (s : string) : string :=
  match n, s with
  | 0, _ => s
  | S n', String _ s' => drop n' s'
  | S _, EmptyString => EmptyString
  end.

(** [s[:n]] *)
Fixpoint take (n : nat) (s : string) : string :=
  match n, s with
  | S n', String c s' => String c (take n' s')
  | _, _ => EmptyString
  end.

Fixpoint lstrip_with (p : ascii -> bool) (s : string) : string :=
  match s with
  | EmptyString => EmptyString
  | String c s' => if p c then lstrip_with p s' else s
  end.

Fixpoint rstrip_with (p : ascii -> bool) (s : string) : string :=
  match s with
  | EmptyString => EmptyString
  | String c s' =>
      let r := rstrip_with p s' in
      if negb (nonempty r) && p c then EmptyString else String c r
  end.

Definition lstrip (s : string) : string := lstrip_with isspace s.
Definition strip (s : string) : string :=
  lstrip_with isspace (rstrip_with isspace s).

(** [s.split()]: the maximal runs of characters that are not
    whitespace. [cur] is the run being read. *)
Fixpoint split_from (cur : string) (s : string) : list string :=
  match s with
  | EmptyString => if nonempty cur then [cur] else []
  | String c s' =>
      if isspace c
      then (if nonempty cur then cur :: split_from EmptyString s'
            else split_from EmptyString s')
      else split_from (cur +:+ str1 c) s'
  end.

Definition split (s : string) : list string := split_from EmptyString s.

(** [sep.join(l)] *)
Fixpoint join (sep : string) (l : list string) : string :=
  match l with
  | [] => EmptyString
  | [x] => x
  | x :: l' => x +:+ sep +:+ join sep l'
  end.

Definition startswith (s p : string) : bool := String.prefix p s.

(** [p in s] for strings. *)
Fixpoint contains (p s : string) : bool :=
  String.prefix p s ||
  match s with
  | EmptyString => false
  | String _ s' => contains p s'
  end.

(** [s.replace(old, new)] for a non-empty [old]: the occurrences of
    [old] are found from the left and do not overlap. [skip] counts the
    characters of the occurrence just replaced that are still to be
    passed over. *)
Fixpoint replace_from (skip : nat) (old new s : string) : string :=
  match s with
  | EmptyString => EmptyString
  | String c s' =>
      match skip with
      | S k => replace_from k old new s'
      | 0 =>
          if String.prefix old s
          then new +:+ replace_from (String.length old - 1) old new s'
          else String c (replace_from 0 old new s')
      end
  end.

Definition replace (s old new : string) : string :=
  replace_from 0 old new s.

(** [x in l] for a tuple, list or set of strings. *)
Definition mem (x : string) (l : list string) : bool :=
  existsb (String.eqb x) l.

End Py.

(** ** Insertion-ordered dictionaries with string keys *)

Definition dict (V : Type) : Type := list (string * V).

Fixpoint dict_get {V} (d : dict V) (k : string) : option V :=
  match d with
  | [] => None
  | (k', v) :: d' => if String.eqb k' k then Some v else dict_get d' k
  end.

(** [d[k] = v]: an existing key keeps its place. *)
Fixpoint dict_set {V} (d : dict V) (k : string) (v : V) : dict V :=
  match d with
  | [] => [(k, v)]
  | (k', v') :: d' =>
      if String.eqb k' k then (k', v) :: d' else (k', v') :: dict_set d' k v
  end.

Definition dict_has {V} (d : dict V) (k : string) : bool :=
  match dict_get d k with Some _ => true | None => false end.

Definition dict_keys {V} (d : dict V) : list string := d.*1.

(** ** The objects of the world

    [MudObject] carries what the parser reads of a [Living], an [Item]
    (or [Container]) or an [Exit]: the lower-case [name], the set of
    [aliases] (in iteration order), the [title], the three pronoun words
    and [default_verb] ([None] for an [Exit], which has no such
    attribute). Nothing in these classes defines [__eq__], [__hash__],
    [__bool__] or [__len__]: objects are compared by identity and are
    always true. *)

Inductive ObjClass := IsLiving | IsItem | IsExit.

Record MudObject := mkObj {
  oid : positive;
  cls : ObjClass;
  name : string;
  aliases : list string;
  title : string;
  subjective : string;
  possessive : string;
  objective : string;
  default_verb : option string
}.

Definition is_living (o : MudObject) : bool :=
  match cls o with IsLiving => true | _ => false end.
Definition is_exit (o : MudObject) : bool :=
  match cls o with IsExit => true | _ => false end.

(** [a is b] *)
Definition obj_is (a b : MudObject) : bool := bool_decide (oid a = oid b).

(** [o in s] for a set (or list) of objects. *)
Definition obj_in (o : MudObject) (s : list MudObject) : bool :=
  existsb (obj_is o) s.

(** What one call reads of the world: the actor's location (its livings,
    items and bound exits), the actor's own inventory, and for every item
    the actor carries its [inventory] property ([None] where reading it
    raises [ActionRefused], as it does for every [Item] that is not a
    [Container]). The caller keeps this snapshot stable during a call. *)
Record World := mkWorld {
  livings : list MudObject;
  items : list MudObject;
  exits : dict MudObject;
  inventory : list MudObject;
  contents : MudObject -> option (list MudObject)
}.

(** ** Parse results *)

(** Modelled from the spec: [ParseResult] and [ParseResult.WhoInfo] are
    declared in [tale/parseresult.py], which is not among the sources. A
    [WhoInfo] holds the sequence number of a target and the word before
    its mention; a [ParseResult] holds the ten fields the parser passes to
    its constructor, kept as they are passed. *)
Record WhoInfo := mkWhoInfo {
  sequence : nat;
  previous_word : option string
}.

(** The dictionary [who_info]. [wd_default] tells a
    [defaultdict(ParseResult.WhoInfo)] from a plain [dict]; an entry
    keeps the key object next to its value. *)
Record WhoDict := mkWhoDict {
  wd_default : bool;
  wd_map : gmap positive (MudObject * WhoInfo)
}.

Record ParseResult := mkParseResult {
  verb : string;
  adverb : option string;
  message : string;
  bodypart : option string;
  qualifier : option string;
  args : list string;
  who_info : WhoDict;
  who_order : list MudObject;
  unrecognized : list string;
  unparsed : string
}.

(** ** Exceptions and the actor's output *)

Inductive error :=
| ParseError (msg : string)
| UnknownVerbException (v : string) (ws : option (list string))
    (q : option string)
| NonSoulVerb (parsed : ParseResult)
| ActionRefused (msg : string)
| TaleError (msg : string)
| KeyError
| ValueError
| IndexError
| AttributeError
| TypeError.

(** The three kinds of failure the interpreter documents. *)
Definition recoverable (e : error) : bool :=
  match e with
  | ParseError _ | UnknownVerbException _ _ _ | NonSoulVerb _ => true
  | _ => false
  end.

(** A computation tells lines to the actor and then returns or raises. *)
Definition M (A : Type) : Type := list string * (error + A).

Definition ret {A} (a : A) : M A := ([], inr a).
Definition raise {A} (e : error) : M A := ([], inl e).
Definition tell (line : string) : M unit := ([line], inr tt).

Definition bind {A B} (m : M A) (f : A -> M B) : M B :=
  match m with
  | (out, inl e) => (out, inl e)
  | (out, inr a) => (out ++ (f a).1, (f a).2)
  end.

Notation "'let!' x ':=' m 'in' k" := (bind m (fun x => k))
  (at level 10, x name, m at level 100, k at level 200).
Notation "'let!' ' p ':=' m 'in' k" :=
  (bind m (fun x => match x with p => k end))
  (at level 10, p pattern, m at level 100, k at level 200).
Notation "'do!' m 'in' k" := (bind m (fun _ => k))
  (at level 10, m at level 100, k at level 200).

Definition told {A} (m : M A) : list string := m.1.
Definition outcome {A} (m : M A) : error + A := m.2.

(** ** The vocabulary

    The verb, qualifier and body-part tables of [tale/verbdefs.py] and
    the adverbs and text helpers of [tale/lang.py] are not among the
    sources: the parser is embedded over an arbitrary [Vocabulary].

    A verb entry is the tuple [(vtype, defaults, template, ...)]:
    [vtemplates] are its components from index 2 on, [vdefaults] is the
    component at index 1 ([None] or a tuple of default adverb, message
    and body-part phrase). *)

Inductive VType :=
| DEUX | QUAD | FULL | DEFA | PREV | PHYS | SHRT | PERS | SIMP
| OtherType (tag : string).

Record VerbData := mkVerbData {
  vtype : VType;
  vdefaults : option (list (option string));
  vtemplates : list string
}.

Record Vocabulary := mkVocabulary {
  VERBS : dict VerbData;
  ACTION_QUALIFIERS : dict (string * string * bool);
  BODY_PARTS : dict string;
  MOVEMENT_VERBS : list string;
  NONLIVING_OK_VERBS : list string;
  ADVERBS : list string;
  adverb_by_prefix : string -> list string;
  (** [lang.join(l, conj=c)]; [None] stands for the default [conj] *)
  lang_join : option string -> list string -> string;
  lang_capital : string -> string;
  lang_fullstop : string -> string;
  lang_possessive : string -> string
}.

(** [verbdata[i]] and [len(verbdata)] *)
Definition verbdata_at (vd : VerbData) (i : nat) : option string :=
  vtemplates vd !! (i - 2).
Definition verbdata_len (vd : VerbData) : nat := 2 + length (vtemplates vd).

(** [Soul._skip_words] *)
Definition _skip_words : list string :=
  ["and"; "&"; "at"; "to"; "before"; "in"; "into"; "on"; "off"; "onto";
   "the"; "with"; "from"; "after"; "before"; "under"; "above"; "next"].

(** The placeholders of the templates; each starts with a newline. *)
Definition nWHO : string := String Py.NL "WHO".
Definition nPOSS : string := String Py.NL "POSS".
Definition nMSG : string := String Py.NL "MSG".
Definition nWHAT : string := String Py.NL "WHAT".
Definition nHOW : string := String Py.NL "HOW".
Definition nWHERE : string := String Py.NL "WHERE".
Definition nAT : string := String Py.NL "AT".
Definition nYOUR : string := String Py.NL "YOUR".
Definition nMY : string := String Py.NL "MY".
Definition nIS : string := String Py.NL "IS".
Definition nSUBJ : string := String Py.NL "SUBJ".

(** A placeholder with the space the templates write before it. *)
Definition sp (s : string) : string := String " " s.

(** ** [Soul.check_name_with_spaces]

    The result [(None, None, 0)] is [None]; a hit [(obj, name, wordcount)]
    is [Some]. The [while] loop runs on [fuel]; six rounds are more than
    it can use, since [wordcount] starts at 1 and the loop ends at 6.
    Reading [words[index + wordcount]] past the end raises the
    [IndexError] that the [try] turns into "no match"; reading
    [words[index]] happens before the [try]. *)

Fixpoint check_name_loop {V} (fuel : nat) (words : list string) (index : nat)
    (all_livings all_items : dict V) (wordcount : nat) (name : string)
    : option (V * string * nat) :=
  match fuel with
  | 0 => None
  | S fuel' =>
      if wordcount <? 6 then
        match dict_get all_livings name with
        | Some o => Some (o, name, wordcount)
        | None =>
            match dict_get all_items name with
            | Some o => Some (o, name, wordcount)
            | None =>
                match words !! (index + wordcount) with
                | None => None
                | Some w =>
                    check_name_loop fuel' words index all_livings all_items
                      (wordcount + 1) (name +:+ " " +:+ w)
                end
            end
        end
      else None
  end.

Definition check_name_with_spaces {V} (words : list string) (index : nat)
    (all_livings all_items : dict V) : M (option (V * string * nat)) :=
  match words !! index with
  | None => raise IndexError
  | Some name =>
      ret (check_name_loop 6 words index all_livings all_items 1 name)
  end.

(** The candidate name of [k] words that starts at [index], and its
    lookup: the first dictionary wins. *)
Definition candidate (words : list string) (index k : nat) : string :=
  Py.join " " (take k (drop index words)).

Definition lookup2 {V} (all_livings all_items : dict V) (n : string)
    : option V :=
  match dict_get all_livings n with
  | Some o => Some o
  | None => dict_get all_items n
  end.

(** ** [Soul._quoted_message_regex]

    The pattern is a single quote, a greedy group [msg1] of any
    characters, and a single quote; or the same with double quotes and
    the group [msg2]. [search] returns the leftmost match. At a quote character the
    greedy group runs to the end of the line (a dot does not match a
    newline) and backs up to the last quote of the same kind;
    [last_quote] is the length of the group so found. Where the first
    alternative fails, the second cannot match at that position. *)

Record QuoteMatch := mkQuoteMatch {
  m_start : nat;
  m_end : nat;
  msg1 : option string;
  msg2 : option string
}.

Fixpoint last_quote (q : ascii) (t : string) : option nat :=
  match t with
  | EmptyString => None
  | String c t' =>
      if Ascii.eqb c Py.NL then None
      else match last_quote q t' with
           | Some j => Some (S j)
           | None => if Ascii.eqb c q then Some 0 else None
           end
  end.

Fixpoint quoted_search_from (i : nat) (s : string) : option QuoteMatch :=
  match s with
  | EmptyString => None
  | String c t =>
      if Ascii.eqb c Py.SQUOTE then
        match last_quote Py.SQUOTE t with
        | Some j => Some (mkQuoteMatch i (i + j + 2) (Some (Py.take j t)) None)
        | None => quoted_search_from (S i) t
        end
      else if Ascii.eqb c Py.DQUOTE then
        match last_quote Py.DQUOTE t with
        | Some j => Some (mkQuoteMatch i (i + j + 2) None (Some (Py.take j t)))
        | None => quoted_search_from (S i) t
        end
      else quoted_search_from (S i) t
  end.

Definition quoted_search (cmd : string) : option QuoteMatch :=
  quoted_search_from 0 cmd.

(** [a or b] on two optional strings: [a] when it is true, else [b]. *)
Definition str_or (a b : option string) : option string :=
  match a with
  | Some s => if Py.nonempty s then a else b
  | None => b
  end.

(** The first four statements of [Soul.parse] after the initialisations:
    the message taken from the quotes and the command without them.
    Calling [strip] on [None] raises [AttributeError]. *)
Definition extract_message (cmd : string) : M (list string * string) :=
  match quoted_search cmd with
  | Some m =>
      match str_or (msg1 m) (msg2 m) with
      | Some g =>
          ret ([Py.strip g], Py.take (m_start m) cmd +:+ Py.drop (m_end m) cmd)
      | None => raise AttributeError
      end
  | None => ret ([], cmd)
  end.

(** ** Finding items: [Item.search_item], [Living.locate_item] and
    [Living.search_item] *)

Definition Item_search_item (name0 : string) (collection : list MudObject)
    : option MudObject :=
  let name1 := Py.lower name0 in
  match filter (fun i => String.eqb (name i) name1 = true) collection with
  | i :: _ => Some i
  | [] =>
      head (filter (fun i => Py.mem name1 (aliases i)
                             || String.eqb (Py.lower (title i)) name1 = true)
                   collection)
  end.

(** The loop of [locate_item] over the containers the actor carries. *)
Fixpoint search_containers (w : World) (name0 : string)
    (carried : list MudObject) : option MudObject :=
  match carried with
  | [] => None
  | container :: rest =>
      match contents w container with
      | None => search_containers w name0 rest
      | Some inv =>
          match Item_search_item name0 inv with
          | Some found => Some found
          | None => search_containers w name0 rest
          end
      end
  end.

(** [player.search_item(name)] with its three defaults [True]. *)
Definition search_item (w : World) (name0 : string) : M (option MudObject) :=
  if negb (Py.nonempty name0) then raise ValueError
  else
    match Item_search_item name0 (inventory w) with
    | Some found => ret (Some found)
    | None =>
        match Item_search_item name0 (items w) with
        | Some found => ret (Some found)
        | None => ret (search_containers w name0 (inventory w))
        end
    end.

(** [player.search_item(who.name) or who in player.location.livings] *)
Definition still_around (w : World) (who : MudObject) : M bool :=
  let! found := search_item w (name who) in
  ret (match found with
       | Some _ => true
       | None => obj_in who (livings w)
       end).

(** ** Operations on [who_info] and [who_order] *)

Definition wd_empty_default : WhoDict := mkWhoDict true ∅.
Definition wd_empty_plain : WhoDict := mkWhoDict false ∅.

(** [x in who_info] *)
Definition wd_has (d : WhoDict) (x : MudObject) : bool :=
  bool_decide (is_Some (wd_map d !! oid x)).

(** [who_info[x].sequence = s; who_info[x].previous_word = p]. Reading
    [who_info[x]] creates the entry in a [defaultdict] and raises
    [KeyError] in a plain [dict] that lacks [x]; [None] is that error. *)
Definition wd_assign (d : WhoDict) (x : MudObject) (s : nat)
    (p : option string) : option WhoDict :=
  match wd_map d !! oid x with
  | Some (k, _) =>
      Some (mkWhoDict (wd_default d) (<[oid x := (k, mkWhoInfo s p)]> (wd_map d)))
  | None =>
      if wd_default d
      then Some (mkWhoDict true (<[oid x := (x, mkWhoInfo s p)]> (wd_map d)))
      else None
  end.

(** [del who_info[x]]; [None] is the [KeyError] of a missing key. *)
Definition wd_del (d : WhoDict) (x : MudObject) : option WhoDict :=
  match wd_map d !! oid x with
  | Some _ => Some (mkWhoDict (wd_default d) (delete (oid x) (wd_map d)))
  | None => None
  end.

(** [who_order.remove(x)]: the first occurrence goes; [None] is the
    [ValueError] raised when there is none. *)
Fixpoint list_remove (x : MudObject) (l : list MudObject)
    : option (list MudObject) :=
  match l with
  | [] => None
  | y :: l' =>
      if obj_is y x then Some l'
      else match list_remove x l' with
           | Some r => Some (y :: r)
           | None => None
           end
  end.

(** ** The local variables of the token walk of [Soul.parse] *)

Record Locals := mkLocals {
  l_adverb : option string;
  l_message : list string;
  l_bodypart : option string;
  arg_words : list string;
  unrecognized_words : list string;
  l_who_info : WhoDict;
  l_who_order : list MudObject;
  who_sequence : nat;
  include_flag : bool;
  collect_message : bool;
  l_previous_word : option string
}.

Definition set_adverb (st : Locals) (a : string) : Locals :=
  mkLocals (Some a) (l_message st) (l_bodypart st) (arg_words st)
    (unrecognized_words st) (l_who_info st) (l_who_order st)
    (who_sequence st) (include_flag st) (collect_message st)
    (l_previous_word st).

Definition push_message (st : Locals) (word : string) : Locals :=
  mkLocals (l_adverb st) (l_message st ++ [word]) (l_bodypart st)
    (arg_words st) (unrecognized_words st) (l_who_info st) (l_who_order st)
    (who_sequence st) (include_flag st) (collect_message st)
    (l_previous_word st).

Definition set_bodypart (st : Locals) (b : string) : Locals :=
  mkLocals (l_adverb st) (l_message st) (Some b) (arg_words st)
    (unrecognized_words st) (l_who_info st) (l_who_order st)
    (who_sequence st) (include_flag st) (collect_message st)
    (l_previous_word st).

Definition push_arg (st : Locals) (word : string) : Locals :=
  mkLocals (l_adverb st) (l_message st) (l_bodypart st)
    (arg_words st ++ [word]) (unrecognized_words st) (l_who_info st)
    (l_who_order st) (who_sequence st) (include_flag st)
    (collect_message st) (l_previous_word st).

Definition push_unrecognized (st : Locals) (word : string) : Locals :=
  mkLocals (l_adverb st) (l_message st) (l_bodypart st) (arg_words st)
    (unrecognized_words st ++ [word]) (l_who_info st) (l_who_order st)
    (who_sequence st) (include_flag st) (collect_message st)
    (l_previous_word st).

Definition set_who (st : Locals) (d : WhoDict) (o : list MudObject)
    (n : nat) : Locals :=
  mkLocals (l_adverb st) (l_message st) (l_bodypart st) (arg_words st)
    (unrecognized_words st) d o n (include_flag st) (collect_message st)
    (l_previous_word st).

Definition set_include_flag (st : Locals) (b : bool) : Locals :=
  mkLocals (l_adverb st) (l_message st) (l_bodypart st) (arg_words st)
    (unrecognized_words st) (l_who_info st) (l_who_order st)
    (who_sequence st) b (collect_message st) (l_previous_word st).

Definition set_collect_message (st : Locals) (b : bool) : Locals :=
  mkLocals (l_adverb st) (l_message st) (l_bodypart st) (arg_words st)
    (unrecognized_words st) (l_who_info st) (l_who_order st)
    (who_sequence st) (include_flag st) b (l_previous_word st).

Definition set_previous_word (st : Locals) (p : option string) : Locals :=
  mkLocals (l_adverb st) (l_message st) (l_bodypart st) (arg_words st)
    (unrecognized_words st) (l_who_info st) (l_who_order st)
    (who_sequence st) (include_flag st) (collect_message st) p.

(** The four statements that add a target:
    [who_info[x].sequence = who_sequence],
    [who_info[x].previous_word = previous_word], [who_sequence += 1],
    [who_order.append(x)]. *)
Definition add_who (x : MudObject) (st : Locals) : M Locals :=
  match wd_assign (l_who_info st) x (who_sequence st) (l_previous_word st) with
  | None => raise KeyError
  | Some d => ret (set_who st d (l_who_order st ++ [x]) (who_sequence st + 1))
  end.

(** [del who_info[x]; who_order.remove(x)] *)
Definition remove_who (x : MudObject) (st : Locals) : M Locals :=
  match wd_del (l_who_info st) x with
  | None => raise KeyError
  | Some d =>
      match list_remove x (l_who_order st) with
      | None => raise ValueError
      | Some o => ret (set_who st d o (who_sequence st))
      end
  end.

(** [if include_flag: (add x) elif x in who_info: (remove x)] *)
Definition add_or_discard (x : MudObject) (st : Locals) : M Locals :=
  if include_flag st then add_who x st
  else if wd_has (l_who_info st) x then remove_who x st
  else ret st.

(** Truthiness of an optional string: neither [None] nor empty. *)
Definition truthy (o : option string) : bool :=
  match o with Some s => Py.nonempty s | None => false end.

Section Soul.

Context (voc : Vocabulary).

(** ** [Soul.match_previously_parsed]

    [prev] is [self.__previously_parsed], which the caller has found
    true. *)

(** The loop over [matches] for the pronoun [them]. *)
Fixpoint check_them (w : World) (pronoun : string) (matches : list MudObject)
    : M unit :=
  match matches with
  | [] => ret tt
  | who :: rest =>
      let! around := still_around w who in
      if around then check_them w pronoun rest
      else
        do! tell ("<dim>(By '" +:+ pronoun +:+ "', it is assumed you meant "
              +:+ title who +:+ ".)</>") in
        raise (ParseError (lang_capital voc (subjective who)
                           +:+ " is no longer around."))
  end.

(** The first direction under which the exit [who] is bound. *)
Fixpoint direction_of (who : MudObject) (xs : dict MudObject)
    : option string :=
  match xs with
  | [] => None
  | (direction, x) :: rest =>
      if obj_is x who then Some direction else direction_of who rest
  end.

(** The loop over [who_order] for [it], [him] and [her]. *)
Fixpoint match_single (w : World) (pronoun : string) (order : list MudObject)
    : M (list (MudObject * string)) :=
  match order with
  | [] => raise (ParseError "It is not clear who you're referring to.")
  | who :: rest =>
      match (if String.eqb pronoun "it" then direction_of who (exits w)
             else None) with
      | Some direction =>
          do! tell ("<dim>(By '" +:+ pronoun +:+ "', it is assumed you mean '"
                +:+ direction +:+ "'.)</>") in
          ret [(who, direction)]
      | None =>
          if String.eqb pronoun (objective who) then
            let! around := still_around w who in
            if around then
              do! tell ("<dim>(By '" +:+ pronoun +:+ "', it is assumed you mean "
                    +:+ title who +:+ ".)</>") in
              ret [(who, name who)]
            else
              do! tell ("<dim>(By '" +:+ pronoun +:+ "', it is assumed you meant "
                    +:+ title who +:+ ".)</>") in
              raise (ParseError (lang_capital voc (subjective who)
                                 +:+ " is no longer around."))
          else match_single w pronoun rest
      end
  end.

Definition match_previously_parsed (w : World) (prev : ParseResult)
    (pronoun : string) : M (list (MudObject * string)) :=
  if String.eqb pronoun "them" then
    let matches := who_order prev in
    do! check_them w pronoun matches in
    match matches with
    | _ :: _ =>
        do! tell ("<dim>(By '" +:+ pronoun +:+ "', it is assumed you mean: "
              +:+ lang_join voc None (title <$> matches) +:+ ".)") in
        ret ((fun who => (who, name who)) <$> matches)
    | [] => raise (ParseError "It is not clear who you're referring to.")
    end
  else match_single w pronoun (who_order prev).

(** ** [Soul.parse]: the token walk *)

Context (w : World) (player : MudObject)
        (previously_parsed : option ParseResult).

(** [all_livings] and [all_items]: every object under its name and then
    under each of its aliases. *)
Definition add_names (d : dict MudObject) (o : MudObject) : dict MudObject :=
  fold_left (fun d' alias => dict_set d' alias o) (aliases o)
            (dict_set d (name o) o).

Definition build_all_livings : dict MudObject :=
  fold_left add_names (livings w) [].

Definition build_all_items : dict MudObject :=
  fold_left add_names (inventory w) (fold_left add_names (items w) []).

(** The loop over [who_list] after a pronoun: here a removal is not
    guarded by a membership test. *)
Fixpoint apply_who_list (who_list : list (MudObject * string)) (st : Locals)
    : M Locals :=
  match who_list with
  | [] => ret st
  | (who, name0) :: rest =>
      let! st1 := (if include_flag st then add_who who st
                   else remove_who who st) in
      apply_who_list rest (push_arg st1 name0)
  end.

(** The loop of [everyone]: every living of the location but the
    actor. *)
Fixpoint add_everyone (ls : list MudObject) (st : Locals) : M Locals :=
  match ls with
  | [] => ret st
  | living :: rest =>
      if obj_is living player then add_everyone rest st
      else let! st1 := add_who living st in add_everyone rest st1
  end.

Definition both_error (a b : string) : error :=
  ParseError ("You can't do that both " +:+ a +:+ " and " +:+ b +:+ ".").

(** The first key of [d] that starts with [word]. *)
Definition first_with_prefix (d : dict MudObject) (word : string)
    : option string :=
  head (filter (fun n => Py.startswith n word = true) (dict_keys d)).

(** The last case of the loop body: a word that is not in
    [_skip_words] and that nothing above has recognised. It returns the
    new locals and the word that becomes [previous_word]. *)
Definition unknown_word (verb0 : option string) (external_verb : bool)
    (words : list string) (qualifier0 : option string)
    (all_livings all_items : dict MudObject)
    (word : string) (st : Locals) : M (Locals * option string) :=
  let! _ :=
    match l_who_order st with
    | [] =>
        match first_with_prefix all_livings word with
        | Some n => raise (ParseError ("Perhaps you meant " +:+ n +:+ "?"))
        | None =>
            match first_with_prefix all_items word with
            | Some n => raise (ParseError ("Perhaps you meant " +:+ n +:+ "?"))
            | None => ret tt
            end
        end
    | _ :: _ => ret tt
    end in
  let tail :=
    if external_verb then
      ret (push_unrecognized (push_arg st word) word, Some word)
    else if dict_has (VERBS voc) word || dict_has (ACTION_QUALIFIERS voc) word
            || dict_has (BODY_PARTS voc) word then
      raise (ParseError ("The word " +:+ word
                         +:+ " makes no sense at that location."))
    else
      match word with
      | EmptyString => raise IndexError
      | String c _ =>
          let errormsg := "It's not clear what you mean by '" +:+ word +:+ "'." in
          raise (ParseError
                   (if Py.isupper c
                    then errormsg +:+ " Just type in lowercase ('"
                         +:+ Py.lower word +:+ "')."
                    else errormsg))
      end in
  if external_verb then tail
  else if negb (truthy verb0) then
    raise (UnknownVerbException word (Some words) qualifier0)
  else
    match adverb_by_prefix voc word with
    | [a] =>
        match (if truthy (l_adverb st) then l_adverb st else None) with
        | Some old => raise (both_error old a)
        | None => ret (push_arg (set_adverb st a) a, Some a)
        end
    | [] => tail
    | adverbs =>
        raise (ParseError ("What adverb did you mean: "
                           +:+ lang_join voc (Some "or") adverbs +:+ "?"))
    end.

(** [if not message_verb and not collect_message:
    word = word.rstrip(",")] *)
Definition current_word (message_verb : bool) (st : Locals)
    (word0 : string) : string :=
  if negb message_verb && negb (collect_message st)
  then Py.rstrip_with (Ascii.eqb ",") word0 else word0.

(** One round of the loop for the word at [index]. The second component
    of the result is the number of further words the round consumes
    through [next(words_enumerator)]. *)
Definition step (verb0 : option string) (message_verb external_verb : bool)
    (words : list string) (qualifier0 : option string)
    (all_livings all_items : dict MudObject)
    (index : nat) (word0 : string) (st : Locals) : M (Locals * nat) :=
  if collect_message st then
    ret (set_previous_word (push_arg (push_message st word0) word0)
           (Some word0), 0)
  else
    let word := current_word message_verb st word0 in
    if Py.mem word ["them"; "him"; "her"; "it"] then
      match previously_parsed with
      | Some prev =>
          let! who_list := match_previously_parsed w prev word in
          let! st1 := apply_who_list who_list st in
          ret (set_previous_word st1 None, 0)
      | None => raise (ParseError "It is not clear who you mean.")
      end
    else if Py.mem word ["me"; "myself"; "self"] then
      let! st1 := add_or_discard player st in
      ret (set_previous_word (push_arg st1 word) None, 0)
    else if dict_has (BODY_PARTS voc) word then
      match (if truthy (l_bodypart st) then l_bodypart st else None) with
      | Some old =>
          match dict_get (BODY_PARTS voc) old, dict_get (BODY_PARTS voc) word with
          | Some a, Some b => raise (both_error a b)
          | _, _ => raise KeyError
          end
      | None => ret (push_arg (set_bodypart st word) word, 0)
      end
    else if Py.mem word ["everyone"; "everybody"; "all"] then
      let! st1 :=
        (if include_flag st then
           match all_livings with
           | [] => raise (ParseError "There is nobody here.")
           | _ :: _ => add_everyone (livings w) st
           end
         else ret (set_who st wd_empty_plain [] 0)) in
      ret (set_previous_word (push_arg st1 word) None, 0)
    else if String.eqb word "everything" then
      raise (ParseError
        "You can't do something to everything around you, be more specific.")
    else if Py.mem word ["except"; "but"] then
      ret (push_arg (set_include_flag st (negb (include_flag st))) word, 0)
    else if Py.mem word (ADVERBS voc) then
      match (if truthy (l_adverb st) then l_adverb st else None) with
      | Some old => raise (both_error old word)
      | None => ret (push_arg (set_adverb st word) word, 0)
      end
    else
    match dict_get all_livings word with
    | Some living =>
        let! st1 := add_or_discard living st in
        ret (set_previous_word (push_arg st1 word) None, 0)
    | None =>
    match dict_get all_items word with
    | Some item =>
        let! st1 := add_or_discard item st in
        ret (set_previous_word (push_arg st1 word) None, 0)
    | None =>
    let! found_exit := check_name_with_spaces words index (exits w) [] in
    match found_exit with
    | Some (exit, exit_name, wordcount) =>
        let! st1 := add_who exit st in
        ret (push_arg (set_previous_word st1 None) exit_name, wordcount - 1)
    | None =>
    let! found := check_name_with_spaces words index all_livings all_items in
    match found with
    | Some (item, full_name, wordcount) =>
        let! st1 := add_or_discard item st in
        ret (set_previous_word (push_arg st1 full_name) None, wordcount - 1)
    | None =>
    if message_verb && negb (bool_decide (l_message st <> [])) then
      ret (push_arg (push_message (set_collect_message st true) word) word, 0)
    else if negb (Py.mem word _skip_words) then
      let! '(st1, prev) :=
        unknown_word verb0 external_verb words qualifier0
                     all_livings all_items word st in
      ret (set_previous_word st1 prev, 0)
    else ret (set_previous_word st (Some word), 0)
    end end end end.

(** [for index, word in words_enumerator]: [skip] counts the words
    already taken by [next(words_enumerator)]. *)
Fixpoint walk (verb0 : option string) (message_verb external_verb : bool)
    (words : list string) (qualifier0 : option string)
    (all_livings all_items : dict MudObject)
    (rest : list string) (index skip : nat) (st : Locals) : M Locals :=
  match rest with
  | [] => ret st
  | word0 :: rest' =>
      match skip with
      | S k =>
          walk verb0 message_verb external_verb words qualifier0
               all_livings all_items rest' (S index) k st
      | 0 =>
          let! '(st1, n) :=
            step verb0 message_verb external_verb words qualifier0
                 all_livings all_items index word0 st in
          walk verb0 message_verb external_verb words qualifier0
               all_livings all_items rest' (S index) n st1
      end
  end.

(** ** [Soul.parse] *)

(** Modelled from the spec: the constructor of [ParseResult] is not among
    the sources. Where [parse] builds the result for a movement it passes
    the verb, [who_order], the qualifier and [unparsed] only; the other
    fields are empty and [who_info] numbers the targets by their position
    in [who_order], as the data model of the specification has it. *)
Definition who_info_of_order (order : list MudObject) : WhoDict :=
  mkWhoDict false
    (list_to_map (imap (fun i o => (oid o, (o, mkWhoInfo i None))) order)).

Definition ParseResult_of_exit (exit_name : string) (exit : MudObject)
    (qualifier0 : option string) (unparsed0 : string) : ParseResult :=
  mkParseResult exit_name None EmptyString None qualifier0 []
    (who_info_of_order [exit]) [exit] [] unparsed0.

Definition initial_locals (message0 : list string) : Locals :=
  mkLocals None message0 None [] [] wd_empty_default [] 0 true false None.

(** From [if verb:] to the end of [parse]: the token walk and the
    construction of the result. *)
Definition parse_targets (qualifier0 : option string)
    (message0 : list string) (unparsed0 : string) (verb0 : option string)
    (message_verb external_verb : bool) (words : list string)
    : M ParseResult :=
  let unparsed1 :=
    match verb0 with
    | Some v =>
        if Py.nonempty v then Py.lstrip (Py.drop (String.length v) unparsed0)
        else unparsed0
    | None => unparsed0
    end in
  let! st :=
    walk verb0 message_verb external_verb words qualifier0
         build_all_livings build_all_items words 0 0
         (initial_locals message0) in
  let message_text := Py.join " " (l_message st) in
  let! verb1 :=
    (if truthy verb0 then ret (default EmptyString verb0)
     else
       match l_who_order st with
       | [who] => ret (default "examine" (default_verb who))
       | _ =>
           match words with
           | first :: _ => raise (UnknownVerbException first (Some words) qualifier0)
           | [] => raise IndexError
           end
       end) in
  ret (mkParseResult verb1 (l_adverb st) message_text (l_bodypart st)
         qualifier0 (arg_words st) (l_who_info st) (l_who_order st)
         (unrecognized_words st) unparsed1).

(** The branch [elif player.location.exits:]: a movement towards a bound
    exit is signalled by [NonSoulVerb]; otherwise the walk goes on
    without a verb. *)
Definition parse_movement (qualifier0 : option string)
    (message0 : list string) (unparsed0 : string) (words : list string)
    : M ParseResult :=
  match words with
  | [] => raise IndexError
  | first :: rest =>
      let move_action :=
        if Py.mem first (MOVEMENT_VERBS voc) then Some first else None in
      let words1 := if Py.mem first (MOVEMENT_VERBS voc) then rest else words in
      match move_action, words1 with
      | Some m, [] => raise (ParseError (lang_capital voc m +:+ " where?"))
      | _, _ =>
          let! found := check_name_with_spaces words1 0 (exits w) [] in
          match found with
          | Some (exit, exit_name, wordcount) =>
              if negb (wordcount =? length words1) then
                raise (ParseError "What do you want to do with that?")
              else
                raise (NonSoulVerb
                  (ParseResult_of_exit exit_name exit qualifier0
                     (Py.lstrip (Py.drop (String.length exit_name) unparsed0))))
          | None =>
              match move_action with
              | Some m => raise (ParseError ("You can't " +:+ m +:+ " there."))
              | None =>
                  parse_targets qualifier0 message0 unparsed0 None false false
                                words1
              end
          end
      end
  end.

Definition parse (cmd : string) (external_verbs : list string)
    : M ParseResult :=
  let unparsed0 := cmd in
  let! '(message0, cmd1) := extract_message cmd in
  if negb (Py.nonempty cmd1) then raise (ParseError "What?")
  else
    match Py.split cmd1 with
    | [] => raise IndexError
    | first :: rest =>
        let qualified := dict_has (ACTION_QUALIFIERS voc) first in
        let qualifier0 :=
          if qualified
          then Some (if String.eqb first "dont" then "don't" else first)
          else None in
        let words1 := if qualified then rest else first :: rest in
        let unparsed1 :=
          if qualified
          then Py.lstrip (Py.drop (String.length first) unparsed0)
          else unparsed0 in
        let skipped :=
          match words1 with
          | skipword :: _ => Py.mem skipword _skip_words
          | [] => false
          end in
        let words2 := if skipped then tail words1 else words1 in
        let unparsed2 :=
          match words1 with
          | skipword :: _ =>
              if skipped
              then Py.lstrip (Py.drop (String.length skipword) unparsed1)
              else unparsed1
          | [] => unparsed1
          end in
        match words2 with
        | [] => raise (ParseError "What?")
        | v :: words3 =>
            if Py.mem v external_verbs then
              parse_targets qualifier0 message0 unparsed2 (Some v) false true
                            words3
            else
              match dict_get (VERBS voc) v with
              | Some vd =>
                  match verbdata_at vd 2 with
                  | None => raise IndexError
                  | Some verbdata =>
                      parse_targets qualifier0 message0 unparsed2 (Some v)
                        (Py.contains nMSG verbdata || Py.contains nWHAT verbdata)
                        false words3
                  end
              | None =>
                  match exits w with
                  | _ :: _ =>
                      parse_movement qualifier0 message0 unparsed2 words2
                  | [] =>
                      parse_targets qualifier0 message0 unparsed2 None false
                                    false words2
                  end
              end
        end
    end.

End Soul.

(** ** [Soul.process_verb_parsed] *)

Definition spacify (s : string) : string :=
  if Py.nonempty s
  then sp (Py.lstrip_with (fun c => Ascii.eqb c " " || Ascii.eqb c Py.TAB) s)
  else EmptyString.

Definition check_person (action : string) (who : list MudObject) : bool :=
  match who with
  | [] => negb (Py.contains nWHO action || Py.contains nPOSS action)
  | _ :: _ => true
  end.

Definition poss_replacement (lang_possessive0 : string -> string)
    (actor target : MudObject) (observer : option MudObject) : string :=
  if obj_is target actor then
    match observer with
    | Some o => if obj_is actor o then "your own"
                else possessive actor +:+ " own"
    | None => possessive actor +:+ " own"
    end
  else
    match observer with
    | Some o => if obj_is target o then "your"
                else lang_possessive0 (title target)
    | None => lang_possessive0 (title target)
    end.

Definition who_replacement (actor target : MudObject)
    (observer : option MudObject) : string :=
  if obj_is target actor then
    match observer with
    | Some o => if obj_is actor o then "yourself"
                else objective actor +:+ "self"
    | None => objective actor +:+ "self"
    end
  else
    match observer with
    | Some o => if obj_is target o then "you" else title target
    | None => title target
    end.

(** [template % arg] for a template that uses the conversions [%s]
    (once) and [%%] only; anything else is reported as [None]. *)
Fixpoint percent_from (used : bool) (arg t : string) : option string :=
  match t with
  | EmptyString => if used then Some EmptyString else None
  | String "%" (String "s" t') =>
      if used then None
      else (fun r => arg +:+ r) <$> percent_from true arg t'
  | String "%" (String "%" t') =>
      (fun r => String "%" r) <$> percent_from used arg t'
  | String "%" _ => None
  | String c t' => (fun r => String c r) <$> percent_from used arg t'
  end.

Definition percent (t arg : string) : M string :=
  match percent_from false arg t with
  | Some r => ret r
  | None => raise TypeError
  end.

Section Render.

Context (voc : Vocabulary).

(** The objects that are the keys of [who_info]. *)
Definition who_keys (d : WhoDict) : list MudObject :=
  (fun e => e.2.1) <$> map_to_list (wd_map d).

(** The inner function [result_messages]. *)
Definition result_messages (player : MudObject) (parsed : ParseResult)
    (action0 action_room0 : string)
    : M (list MudObject * string * string * string) :=
  let action1 := Py.strip action0 in
  let action_room1 := Py.strip action_room0 in
  let! '(action, action_room) :=
    (if truthy (qualifier parsed) then
       match dict_get (ACTION_QUALIFIERS voc)
                      (default EmptyString (qualifier parsed)) with
       | None => raise KeyError
       | Some (qual_action, qual_room, use_room_default) =>
           let! r := percent qual_room
                       (if use_room_default then action_room1 else action1) in
           let! a := percent qual_action action1 in
           ret (a, r)
       end
     else ret (action1, action_room1)) in
  let order := who_order parsed in
  (* the message seen by the player *)
  let targetnames := (fun t => who_replacement player t (Some player)) <$> order in
  let player_msg := Py.replace action (sp nWHO) (sp (lang_join voc None targetnames)) in
  let player_msg := Py.replace player_msg (sp nYOUR) " your" in
  let player_msg := Py.replace player_msg (sp nMY) " your" in
  (* the message seen by the room *)
  let targetnames := (fun t => who_replacement player t None) <$> order in
  let room_msg := Py.replace action_room (sp nWHO) (sp (lang_join voc None targetnames)) in
  let room_msg := Py.replace room_msg (sp nYOUR) (sp (possessive player)) in
  let room_msg := Py.replace room_msg (sp nMY) (sp (objective player)) in
  (* the message seen by the targets *)
  let target_msg := Py.replace action_room (sp nWHO) " you" in
  let target_msg := Py.replace target_msg (sp nYOUR) (sp (possessive player)) in
  let target_msg := Py.replace target_msg (sp nPOSS) " your" in
  let target_msg := Py.replace target_msg (sp nIS) " are" in
  let target_msg := Py.replace target_msg (sp nSUBJ) " you" in
  let target_msg := Py.replace target_msg (sp nMY) (sp (objective player)) in
  (* POSS, IS and SUBJ in the player and room messages *)
  let '(player_msg, room_msg) :=
    match order with
    | [only_living] =>
        let p := Py.replace player_msg (sp nIS) " is" in
        let p := Py.replace p (sp nSUBJ) (sp (subjective only_living)) in
        let p := Py.replace p (sp nPOSS)
                   (sp (poss_replacement (lang_possessive voc) player
                          only_living (Some player))) in
        let r := Py.replace room_msg (sp nIS) " is" in
        let r := Py.replace r (sp nSUBJ) (sp (subjective only_living)) in
        let r := Py.replace r (sp nPOSS)
                   (sp (poss_replacement (lang_possessive voc) player
                          only_living None)) in
        (p, r)
    | _ =>
        let targetnames_player :=
          lang_join voc None
            ((fun l => poss_replacement (lang_possessive voc) player l
                         (Some player)) <$> order) in
        let targetnames_room :=
          lang_join voc None
            ((fun l => poss_replacement (lang_possessive voc) player l None)
               <$> order) in
        let p := Py.replace player_msg (sp nIS) " are" in
        let p := Py.replace p (sp nSUBJ) " they" in
        let p := Py.replace p (sp nPOSS)
                   (sp (lang_possessive voc targetnames_player)) in
        let r := Py.replace room_msg (sp nIS) " are" in
        let r := Py.replace r (sp nSUBJ) " they" in
        let r := Py.replace r (sp nPOSS)
                   (sp (lang_possessive voc targetnames_room)) in
        (p, r)
    end in
  let player_msg := lang_fullstop voc ("You " +:+ player_msg) in
  let room_msg :=
    lang_capital voc (lang_fullstop voc (title player +:+ " " +:+ room_msg)) in
  let target_msg :=
    lang_capital voc (lang_fullstop voc (title player +:+ " " +:+ target_msg)) in
  let whof :=
    filter (fun o => obj_is o player = false) (who_keys (who_info parsed)) in
  ret (whof, player_msg, room_msg, target_msg).

(** The substitutions of WHERE, WHAT, MSG and HOW of the two-template
    kinds, in the order the source makes them. *)
Definition fill_two (where_ message0 msg how : string) (t : string) : string :=
  let t := Py.replace t (sp nWHERE) where_ in
  let t := Py.replace t (sp nWHAT) message0 in
  let t := Py.replace t (sp nMSG) msg in
  Py.replace t (sp nHOW) how.

Definition needs_person (v : string) : error :=
  ParseError ("The verb " +:+ v +:+ " needs a person.").

(** [verbdata[i]], raising [IndexError] past the end of the tuple. *)
Definition template (vd : VerbData) (i : nat) : M string :=
  match verbdata_at vd i with
  | Some t => ret t
  | None => raise IndexError
  end.

(** [player] is an object and therefore true: the first test of the
    source, [if not player], never raises. *)
Definition process_verb_parsed (player : MudObject) (parsed : ParseResult)
    : M (list MudObject * string * string * string) :=
  match dict_get (VERBS voc) (verb parsed) with
  | None =>
      raise (UnknownVerbException (verb parsed) None (qualifier parsed))
  | Some verbdata =>
      let defaults := default [] (vdefaults verbdata) in
      let message0 :=
        if negb (Py.nonempty (message parsed)) && (1 <? length defaults)
        then default EmptyString (mjoin (defaults !! 1))
        else message parsed in
      let '(message1, msg) :=
        if Py.nonempty message0 then
          if Py.startswith message0 "'"
          then (spacify (Py.drop 1 message0), spacify (Py.drop 1 message0))
          else (" " +:+ message0, " '" +:+ message0 +:+ "'")
        else (EmptyString, EmptyString) in
      let adverb0 :=
        if truthy (adverb parsed) then default EmptyString (adverb parsed)
        else default EmptyString (mjoin (defaults !! 0)) in
      let! where_ :=
        (if truthy (bodypart parsed) then
           match dict_get (BODY_PARTS voc)
                          (default EmptyString (bodypart parsed)) with
           | Some b => ret (" " +:+ b)
           | None => raise KeyError
           end
         else if truthy (mjoin (defaults !! 2))
         then ret (" " +:+ default EmptyString (mjoin (defaults !! 2)))
         else ret EmptyString) in
      let how := spacify adverb0 in
      let targeted := bool_decide (wd_map (who_info parsed) <> ∅) in
      let finish (action0 : string) :=
        let action1 :=
          if targeted && (3 <? verbdata_len verbdata) then
            match verbdata_at verbdata 3 with
            | Some a => Py.replace action0 (sp nAT) (spacify a +:+ sp nWHO)
            | None => action0
            end
          else Py.replace action0 (sp nAT) EmptyString in
        if negb (check_person action1 (who_order parsed)) then
          raise (needs_person (verb parsed))
        else
          let action2 := Py.replace action1 (sp nHOW) how in
          let action2 := Py.replace action2 (sp nWHERE) where_ in
          let action2 := Py.replace action2 (sp nWHAT) message1 in
          let action2 := Py.replace action2 (sp nMSG) msg in
          result_messages player parsed
            (Py.replace action2 "$" EmptyString) (Py.replace action2 "$" "s") in
      match vtype verbdata with
      | DEUX =>
          let! action := template verbdata 2 in
          let! action_room := template verbdata 3 in
          if negb (check_person action (who_order parsed)) then
            raise (needs_person (verb parsed))
          else
            result_messages player parsed
              (fill_two where_ message1 msg how action)
              (fill_two where_ message1 msg how action_room)
      | QUAD =>
          let! action := template verbdata (if targeted then 4 else 2) in
          let! action_room := template verbdata (if targeted then 5 else 3) in
          result_messages player parsed
            (fill_two where_ message1 msg how action)
            (fill_two where_ message1 msg how action_room)
      | FULL => raise (TaleError "vtype verbdefs.FULL")
      | DEFA => finish (verb parsed +:+ "$" +:+ sp nHOW +:+ sp nAT)
      | PREV =>
          let! t := template verbdata 2 in
          finish (verb parsed +:+ "$" +:+ spacify t +:+ sp nWHO +:+ sp nHOW)
      | PHYS =>
          let! t := template verbdata 2 in
          finish (verb parsed +:+ "$" +:+ spacify t +:+ sp nWHO +:+ sp nHOW
                  +:+ sp nWHERE)
      | SHRT =>
          let! t := template verbdata 2 in
          finish (verb parsed +:+ "$" +:+ spacify t +:+ sp nHOW)
      | PERS =>
          let! t := template verbdata
                      (match who_order parsed with [] => 2 | _ => 3 end) in
          finish t
      | SIMP => let! t := template verbdata 2 in finish t
      | OtherType tag => raise (TaleError ("invalid vtype " +:+ tag))
      end
  end.

End Render.

(** ** [Living.parse] and the memory of the previous parse

    What a [Living] keeps between commands: [previous_commandline],
    [_previous_parse], and in its soul the cell [__previously_parsed]
    that the next pronoun resolution reads. A call changes the state
    also when it raises: the new state is returned next to the
    computation. *)

Record LivingState := mkLivingState {
  previous_commandline : option string;
  _previous_parse : option ParseResult;
  __previously_parsed : option ParseResult
}.

(** The state of a [Living] as [__init__] leaves it. *)
Definition new_living : LivingState := mkLivingState None None None.

Section Living.

Context (voc : Vocabulary).

(** [any(isinstance(w, Exit) for w in parsed.who_info)] *)
Definition validate_socialize_targets (parsed : ParseResult) : M unit :=
  if existsb is_exit (who_keys (who_info parsed))
  then raise (ParseError "That doesn't make much sense.")
  else ret tt.

(** What follows [self._previous_parse = parsed] in [Living.parse]. *)
Definition check_parsed (external_verbs : list string) (parsed : ParseResult)
    : M ParseResult :=
  if bool_decide (external_verbs <> []) && Py.mem (verb parsed) external_verbs
  then raise (NonSoulVerb parsed)
  else if negb (Py.mem (verb parsed) (NONLIVING_OK_VERBS voc))
          && negb (forallb is_living (who_order parsed))
  then raise (NonSoulVerb parsed)
  else do! validate_socialize_targets parsed in ret parsed.

(** From [self.previous_commandline = commandline] on. *)
Definition parse_line (w : World) (self : MudObject) (st : LivingState)
    (commandline : string) (external_verbs : list string)
    : LivingState * M ParseResult :=
  let soul_result :=
    parse voc w self (__previously_parsed st) commandline external_verbs in
  (mkLivingState (Some commandline)
     (match outcome soul_result with
      | inr parsed => Some parsed
      | inl _ => _previous_parse st
      end)
     (__previously_parsed st),
   let! parsed := soul_result in check_parsed external_verbs parsed).

Definition Living_parse (w : World) (self : MudObject) (st : LivingState)
    (commandline : string) (external_verbs : list string)
    : LivingState * M ParseResult :=
  if String.eqb commandline "again" then
    if truthy (previous_commandline st) then
      let commandline1 := default EmptyString (previous_commandline st) in
      let '(st1, r) := parse_line w self st commandline1 external_verbs in
      (st1, do! tell ("<dim>(repeat: " +:+ commandline1 +:+ ")</>") in r)
    else (st, raise (ActionRefused "Can't repeat your previous action."))
  else parse_line w self st commandline external_verbs.

(** [Soul.remember_previous_parse] *)
Definition Soul_remember_previous_parse (st : LivingState)
    (parsed : option ParseResult) : LivingState :=
  mkLivingState (previous_commandline st) (_previous_parse st) parsed.

(** [Living.remember_previous_parse] *)
Definition remember_previous_parse (st : LivingState) : LivingState :=
  Soul_remember_previous_parse st (_previous_parse st).

End Living.

(** ** A small world to run the interpreter on

    A vocabulary in the format of [verbdefs] with a few verbs of
    different kinds, and a room with four livings, an item and two
    exits. *)

Module Sample.

Definition capital (s : string) : string :=
  match s with
  | EmptyString => EmptyString
  | String c s' =>
      let n := nat_of_ascii c in
      String (if (97 <=? n) && (n <=? 122) then Py.chr (n - 32) else c) s'
  end.

Definition join (conj : option string) (l : list string) : string :=
  match reverse l with
  | [] => EmptyString
  | [x] => x
  | z :: rest =>
      Py.join ", " (reverse rest) +:+ ", " +:+ default "and" conj +:+ " " +:+ z
  end.

Definition adverbs : list string := ["happily"; "sadly"; "slowly"].

Definition vocabulary : Vocabulary :=
  mkVocabulary
    [("smile", mkVerbData DEFA (Some [Some "happily"]) [EmptyString; "at"]);
     ("wave", mkVerbData DEFA (Some [Some "happily"]) [EmptyString; "at"]);
     ("say", mkVerbData SIMP None ["say$" +:+ sp nHOW +:+ ":" +:+ sp nWHAT]);
     ("kick", mkVerbData PHYS (Some [Some "hard"]) [EmptyString]);
     ("ignore", mkVerbData DEUX None ["ignore" +:+ sp nWHO; "ignores" +:+ sp nWHO]);
     ("watch", mkVerbData QUAD None
        ["watch the surroundings"; "watches the surroundings";
         "watch" +:+ sp nWHO; "watches" +:+ sp nWHO]);
     ("peer", mkVerbData QUAD None
        ["peer at" +:+ sp nWHO; "peers at" +:+ sp nWHO;
         "peer closely at" +:+ sp nWHO; "peers closely at" +:+ sp nWHO])]
    [("suddenly", ("suddenly %s", "suddenly %s", true));
     ("dont", ("don't %s", "doesn't %s", false))]
    [("nose", "on the nose"); ("hand", "in the hand")]
    ["go"; "walk"]
    ["examine"]
    adverbs
    (fun p => filter (fun a => Py.startswith a p = true) adverbs)
    join
    capital
    (fun s => s +:+ ".")
    (fun s => s +:+ "'s").

Definition person (i : positive) (n obj subj poss : string) : MudObject :=
  mkObj i IsLiving n [] n subj poss obj (Some "examine").

Definition alice : MudObject := person 1 "alice" "her" "she" "her".
Definition bob : MudObject := person 2 "bob" "him" "he" "his".
Definition carol : MudObject := person 3 "carol" "her" "she" "her".
Definition dave : MudObject := person 4 "dave" "him" "he" "his".

Definition north : MudObject :=
  mkObj 10 IsExit "north" [] "Exit to Garden" "it" "its" "it" None.
Definition north_gate : MudObject :=
  mkObj 11 IsExit "north gate" [] "Exit to Gate" "it" "its" "it" None.

Definition room : World :=
  mkWorld [alice; bob; carol; dave] []
    [("north", north); ("north gate", north_gate)] [] (fun _ => None).

End Sample.

(** ** Outcomes of computations, and the predicates of the properties *)

Definition returns {A} (m : M A) (a : A) : Prop := outcome m = inr a.
Definition raises {A} (m : M A) (e : error) : Prop := outcome m = inl e.

(** Every key of [who_info] is the identity of an entry of [who_order]. *)
Definition keys_in_order (d : WhoDict) (order : list MudObject) : Prop :=
  forall k, is_Some (wd_map d !! k) -> k ∈ oid <$> order.

Definition targets_ok (st : Locals) : Prop :=
  keys_in_order (l_who_info st) (l_who_order st).

(** The entity that a single word names in the token walk, by the tests
    of the loop body in their order: the actor for [me], [myself] and
    [self]; for a word that is no pronoun, body part, collective word,
    [except] or [but], or adverb, the living and then the item known
    under that word. *)
Definition names_target (voc : Vocabulary) (player : MudObject)
    (all_livings all_items : dict MudObject) (word : string)
    : option MudObject :=
  if Py.mem word ["them"; "him"; "her"; "it"] then None
  else if Py.mem word ["me"; "myself"; "self"] then Some player
  else if dict_has (BODY_PARTS voc) word then None
  else if Py.mem word ["everyone"; "everybody"; "all"] then None
  else if String.eqb word "everything" then None
  else if Py.mem word ["except"; "but"] then None
  else if Py.mem word (ADVERBS voc) then None
  else lookup2 all_livings all_items word.

(** A word of the walk that is none of the words the loop body tests for
    before it looks for names: no pronoun, no word for the actor, no body
    part, no collective word, neither [except] nor [but], no adverb. *)
Definition ordinary (voc : Vocabulary) (word : string) : bool :=
  negb (Py.mem word ["them"; "him"; "her"; "it"])
  && negb (Py.mem word ["me"; "myself"; "self"])
  && negb (dict_has (BODY_PARTS voc) word)
  && negb (Py.mem word ["everyone"; "everybody"; "all"])
  && negb (String.eqb word "everything")
  && negb (Py.mem word ["except"; "but"])
  && negb (Py.mem word (ADVERBS voc)).

(** A filler word that the walk passes over at [index]: an ordinary word
    of [_skip_words] under which, alone or followed by the next words,
    no living, item or exit is known. *)
Definition passed_over (voc : Vocabulary) (w : World)
    (all_livings all_items : dict MudObject) (words : list string)
    (index : nat) (word : string) : bool :=
  ordinary voc word
  && match dict_get all_livings word, dict_get all_items word,
           check_name_with_spaces words index (exits w) [],
           check_name_with_spaces words index all_livings all_items with
     | None, None, ([], inr None), ([], inr None) => true
     | _, _, _, _ => false
     end
  && Py.mem word _skip_words.

(** A soul verb that is no qualifier and no external verb and whose
    template takes no message. *)
Definition plain_soul_verb (voc : Vocabulary) (external_verbs : list string)
    (v : string) : bool :=
  negb (dict_has (ACTION_QUALIFIERS voc) v)
  && negb (Py.mem v _skip_words)
  && negb (Py.mem v external_verbs)
  && match dict_get (VERBS voc) v with
     | Some vd =>
         match verbdata_at vd 2 with
         | Some t => negb (Py.contains nMSG t || Py.contains nWHAT t)
         | None => false
         end
     | None => false
     end.

(** The livings of a location other than the actor. *)
Definition others (player : MudObject) (ls : list MudObject)
    : list MudObject :=
  filter (fun l => obj_is l player = false) ls.

(** The message and the collecting mode are the same in both states. *)
Definition message_kept (st st' : Locals) : Prop :=
  collect_message st' = collect_message st /\ l_message st' = l_message st.

(** The command of the example, [wave], the words [hello there] between
    double quotes, [at bob]. *)
Definition wave_hello_there_at_bob : string :=
  "wave " +:+ String Py.DQUOTE ("hello there" +:+ String Py.DQUOTE " at bob").

(** A target of the previous parse is reachable when the actor's item
    search finds something under its name or it is among the livings of
    the location; it is gone when neither holds. *)
Definition reachable (w : World) (who : MudObject) : Prop :=
  still_around w who = ret true.
Definition gone (w : World) (who : MudObject) : Prop :=
  still_around w who = ret false.

(** The two feedback lines of the pronoun [them]. *)
Definition meant_line (pronoun : string) (who : MudObject) : string :=
  "<dim>(By '" +:+ pronoun +:+ "', it is assumed you meant " +:+ title who
  +:+ ".)</>".
Definition mean_all_line (voc : Vocabulary) (pronoun : string)
    (matches : list MudObject) : string :=
  "<dim>(By '" +:+ pronoun +:+ "', it is assumed you mean: "
  +:+ lang_join voc None (title <$> matches) +:+ ".)".

(** The result of parsing a bare [smile]. *)
Definition smiled : ParseResult :=
  mkParseResult "smile" None EmptyString None None [] wd_empty_default []
    [] EmptyString.

(** The states a [Living] can be in: the one [__init__] leaves, and those
    reached from it by calls of [Living.parse] (in any world, with any
    command, whatever the outcome) and of
    [Living.remember_previous_parse]. *)
Inductive reached (voc : Vocabulary) : LivingState -> Prop :=
| reached_new : reached voc new_living
| reached_parse w self st commandline external_verbs :
    reached voc st ->
    reached voc (Living_parse voc w self st commandline external_verbs).1
| reached_remember st :
    reached voc st -> reached voc (remember_previous_parse st).

(** A slot holds nothing, or a result that [Soul.parse] has returned. *)
Definition parsed_by_soul (voc : Vocabulary) (slot : option ParseResult)
    : Prop :=
  match slot with
  | None => True
  | Some r =>
      exists w self previously_parsed cmd external_verbs,
        returns (parse voc w self previously_parsed cmd external_verbs) r
  end.

(** Two strings of which one is a prefix of the other. *)
Definition compat (a b : string) : bool :=
  String.prefix a b || String.prefix b a.

(** [old] is not empty, no occurrence of [p] can start inside an
    occurrence of [old], and no occurrence of [old] can start inside an
    occurrence of [p] after its first character. *)
Definition no_clash (old p : string) : bool :=
  Py.nonempty old
  && forallb (fun i => negb (compat (Py.drop i old) p))
            (seq 0 (String.length old))
  && forallb (fun j => negb (compat (Py.drop j p) old))
             (seq 1 (String.length p - 1)).

(** The body part of a parse result, when it has one, is in the table. *)
Definition bodypart_known (voc : Vocabulary) (parsed : ParseResult) : bool :=
  if truthy (bodypart parsed)
  then dict_has (BODY_PARTS voc) (default EmptyString (bodypart parsed))
  else true.

(** A parse result without targets. *)
Definition no_targets (parsed : ParseResult) : Prop :=
  who_order parsed = [] /\ wd_map (who_info parsed) = ∅.

(** The parse result of a bare verb. *)
Definition bare (v : string) : ParseResult :=
  mkParseResult v None EmptyString None None [] wd_empty_default [] []
    EmptyString.

(** The line that starts a string: its characters before the first
    newline. *)
Fixpoint line_of (t : string) : string :=
  match t with
  | EmptyString => EmptyString
  | String c t' =>
      if Ascii.eqb c Py.NL then EmptyString else String c (line_of t')
  end.

(** The two characters that open a quoted message. *)
Definition is_quote (c : ascii) : bool :=
  Ascii.eqb c Py.SQUOTE || Ascii.eqb c Py.DQUOTE.

(** * More of the parser, and the world around it *)

(** A property of the three variables of the walk that hold the targets. *)
Definition holds_of_targets (P : WhoDict -> list MudObject -> nat -> Prop)
    (st : Locals) : Prop :=
  P (l_who_info st) (l_who_order st) (who_sequence st).

(** The objects a call of [Soul.parse] can see: the actor, the livings,
    items and exits of the actor's location, the items the actor carries
    and the targets of the remembered parse. *)
Definition in_scene (w : World) (player : MudObject)
    (previously_parsed : option ParseResult) (x : MudObject) : Prop :=
  x = player \/ x ∈ livings w \/ x ∈ items w \/ x ∈ inventory w
  \/ x ∈ (exits w).*2
  \/ exists prev, previously_parsed = Some prev /\ x ∈ who_order prev.

(** Every target is an object that satisfies [Q]. *)
Definition targets_all (Q : MudObject -> Prop) (d : WhoDict)
    (order : list MudObject) : Prop :=
  Forall Q order
  /\ forall k x i, wd_map d !! k = Some (x, i) -> Q x.

(** The sequence numbers of [who_info] are below [n] and no two entries
    share one. *)
Definition sequences_below (d : WhoDict) (n : nat) : Prop :=
  (forall k e, wd_map d !! k = Some e -> sequence e.2 < n)
  /\ forall k k' e e',
       wd_map d !! k = Some e -> wd_map d !! k' = Some e' ->
       sequence e.2 = sequence e'.2 -> k = k'.

Definition sequences_distinct (d : WhoDict) : Prop :=
  forall k k' e e',
    wd_map d !! k = Some e -> wd_map d !! k' = Some e' ->
    sequence e.2 = sequence e'.2 -> k = k'.

(** A soul verb that is no qualifier, no filler and no external verb and
    whose template takes a message. *)
Definition message_soul_verb (voc : Vocabulary)
    (external_verbs : list string) (v : string) : bool :=
  negb (dict_has (ACTION_QUALIFIERS voc) v)
  && negb (Py.mem v _skip_words)
  && negb (Py.mem v external_verbs)
  && match dict_get (VERBS voc) v with
     | Some vd =>
         match verbdata_at vd 2 with
         | Some t => Py.contains nMSG t || Py.contains nWHAT t
         | None => false
         end
     | None => false
     end.

(** A word under which the walk finds nothing at [index]: an ordinary
    word that is no key of the two dictionaries and under which, alone
    or followed by the next words, no living, item or exit is known. *)
Definition names_nothing (voc : Vocabulary) (w : World)
    (all_livings all_items : dict MudObject) (words : list string)
    (index : nat) (word : string) : bool :=
  ordinary voc word
  && match dict_get all_livings word, dict_get all_items word,
           check_name_with_spaces words index (exits w) [],
           check_name_with_spaces words index all_livings all_items with
     | None, None, ([], inr None), ([], inr None) => true
     | _, _, _, _ => false
     end.

(** The locals after the walk has collected [rest] as message. *)
Definition collected (st : Locals) (rest : list string) : Locals :=
  mkLocals (l_adverb st) (l_message st ++ rest) (l_bodypart st)
    (arg_words st ++ rest) (unrecognized_words st) (l_who_info st)
    (l_who_order st) (who_sequence st) (include_flag st)
    (collect_message st)
    (match last rest with Some x => Some x | None => l_previous_word st end).

(** A string of whitespace only. *)
Fixpoint blank (s : string) : bool :=
  match s with
  | EmptyString => true
  | String c s' => Py.isspace c && blank s'
  end.

(** [Living.locate_item] with its three flags. The second component of a
    hit is the containing object: the actor, the actor's location, or
    the carried container in which the item was found. *)
Inductive Holder :=
| HoldsSelf
| HoldsLocation
| HoldsContainer (container : MudObject).

(** The loop over the carried objects: reading [container.inventory]
    raises [ActionRefused] for anything but a container, and the loop
    goes on. *)
Fixpoint locate_in_containers (w : World) (name0 : string)
    (carried : list MudObject) : option (MudObject * Holder) :=
  match carried with
  | [] => None
  | container :: rest =>
      match contents w container with
      | None => locate_in_containers w name0 rest
      | Some inv =>
          match Item_search_item name0 inv with
          | Some found => Some (found, HoldsContainer container)
          | None => locate_in_containers w name0 rest
          end
      end
  end.

Definition locate_item (w : World) (name0 : string)
    (include_inventory include_location include_containers_in_inventory
       : bool) : M (option (MudObject * Holder)) :=
  if negb (Py.nonempty name0) then raise ValueError
  else
    let found :=
      if include_inventory
      then (fun i => (i, HoldsSelf)) <$> Item_search_item name0 (inventory w)
      else None in
    let found :=
      match found with
      | Some hit => Some hit
      | None =>
          if include_location
          then (fun i => (i, HoldsLocation))
                 <$> Item_search_item name0 (items w)
          else None
      end in
    let found :=
      match found with
      | Some hit => Some hit
      | None =>
          if include_containers_in_inventory
          then locate_in_containers w name0 (inventory w)
          else None
      end in
    ret found.

(** The item is among the things the holder holds. *)
Definition held_by (w : World) (i : MudObject) (h : Holder) : Prop :=
  match h with
  | HoldsSelf => i ∈ inventory w
  | HoldsLocation => i ∈ items w
  | HoldsContainer c =>
      c ∈ inventory w /\ exists inv, contents w c = Some inv /\ i ∈ inv
  end.

(** The two ways an object answers to a name in [Item.search_item]. *)
Definition has_name (n : string) (i : MudObject) : bool :=
  String.eqb (name i) (Py.lower n).
Definition known_as (n : string) (i : MudObject) : bool :=
  Py.mem (Py.lower n) (aliases i)
  || String.eqb (Py.lower (title i)) (Py.lower n).

(** [i] is the first element of [l] that satisfies [p]. *)
Definition first_such {A} (p : A -> bool) (l : list A) (i : A) : Prop :=
  exists pre post,
    l = pre ++ i :: post /\ p i = true /\ Forall (fun x => p x = false) pre.

(** A scene for the examples: the actor carries a bag that holds a key,
    and a lamp lies in the location. *)
Module Carried.

Definition key : MudObject :=
  mkObj 20 IsItem "key" ["brass key"] "brass key" "it" "its" "it" None.
Definition bag : MudObject :=
  mkObj 21 IsItem "bag" [] "leather bag" "it" "its" "it" None.
Definition lamp : MudObject :=
  mkObj 22 IsItem "lamp" [] "oil lamp" "it" "its" "it" None.

Definition scene : World :=
  mkWorld [Sample.alice] [lamp] [] [bag]
    (fun o => if obj_is o bag then Some [key] else None).

End Carried.

(** ** Objects that change: exceptions, calls on other objects, stores

    The methods of [Location], [Living], [Container], [Exit] and [Door]
    change the attributes of the objects they are called on and of the
    objects these refer to. Such a method is a computation over a store
    that maps the identity of an object to its attributes. The store a
    computation leaves behind is kept also when it raises, since Python
    does not undo assignments. Calls on other objects whose effect is not
    part of the model ([tell], [tell_others], the queue of pending
    actions) are recorded in the order they are made. *)

(** Why a [LocationIntegrityError] is raised. Its message names the
    objects by their [repr], which shows a memory address; the model
    keeps which check failed, and for an exit that exists already its
    direction. *)
Inductive Integrity :=
| exit_already_exists (direction : string)
| door_not_bound
| exit_not_bound
| door_has_no_key_code.

(** The exceptions of the methods: those of the parser and two more.
    [AssertionError] is what a failed [assert] raises. *)
Inductive exn :=
| Err (e : error)
| LocationIntegrityError (why : Integrity)
| AssertionError.

(** What the queued lambdas of [Living.move] call when the driver runs
    them. *)
Inductive Notification :=
| notify_player_left (loc who target : positive)
| notify_npc_left (loc who target : positive)
| notify_player_arrived (loc who : positive) (previous : option positive)
| notify_npc_arrived (loc who : positive) (previous : option positive).

Inductive Event :=
(** [who.tell(msg)] *)
| Told (who : positive) (msg : string)
(** [who.tell_others(msg)] *)
| ToldOthers (who : positive) (msg : string)
(** [loc.tell(msg, exclude_living=exclude)] *)
| LocationTold (loc : positive) (msg : string) (exclude : option positive)
(** [tap.send((name, msg))] on the wiretap of a location *)
| Wiretapped (location_name : string) (msg : string)
(** [pending_actions.send(lambda: ...)] *)
| Queued (n : Notification).

Definition W (S A : Type) : Type := S -> list Event * S * (exn + A).

Definition wret {S A} (a : A) : W S A := fun s => ([], s, inr a).
Definition wraise {S A} (e : exn) : W S A := fun s => ([], s, inl e).
Definition emit {S} (ev : Event) : W S unit := fun s => ([ev], s, inr tt).
Definition wget {S} : W S S := fun s => ([], s, inr s).
Definition wput {S} (s' : S) : W S unit := fun _ => ([], s', inr tt).

Definition wbind {S A B} (m : W S A) (f : A -> W S B) : W S B :=
  fun s =>
    match m s with
    | (out, s1, inl e) => (out, s1, inl e)
    | (out, s1, inr a) =>
        match f a s1 with (out2, s2, r) => (out ++ out2, s2, r) end
    end.

(** [try: m except: handler; raise]: the handler runs in the store the
    failed body left; when it returns the exception of the body is raised
    again, and when it raises its own exception takes its place. *)
Definition try_reraise {S A} (m : W S A) (handler : W S unit) : W S A :=
  fun s =>
    match m s with
    | (out, s1, inl e) =>
        match handler s1 with
        | (out2, s2, inl e') => (out ++ out2, s2, inl e')
        | (out2, s2, inr _) => (out ++ out2, s2, inl e)
        end
    | r => r
    end.

Notation "'let*' x ':=' m 'in' k" := (wbind m (fun x => k))
  (at level 10, x name, m at level 100, k at level 200).
Notation "'do*' m 'in' k" := (wbind m (fun _ => k))
  (at level 10, m at level 100, k at level 200).

Definition refuse {S A} (msg : string) : W S A :=
  wraise (Err (ActionRefused msg)).

Definition events {S A} (r : list Event * S * (exn + A)) : list Event :=
  r.1.1.
Definition store {S A} (r : list Event * S * (exn + A)) : S := r.1.2.
Definition result {S A} (r : list Event * S * (exn + A)) : exn + A := r.2.

(** ** Exits: [Exit.__init__] and [Exit.bind] *)

(** The argument [directions]: one string, or a sequence of strings. *)
Inductive Directions :=
| OneDirection (direction : string)
| SeveralDirections (directions : list string).

(** The direction that becomes the name, and the others. Taking the
    first element of an empty sequence raises [IndexError]. *)
Definition split_directions (directions : Directions)
    : exn + (string * list string) :=
  match directions with
  | OneDirection direction => inr (direction, [])
  | SeveralDirections [] => inl (Err IndexError)
  | SeveralDirections (direction :: rest) => inr (direction, rest)
  end.

(** The target of an exit: a [Location], of which the constructor reads
    the title, or the name of one. *)
Inductive Target :=
| TargetLocation (loc : positive) (loc_title : string)
| TargetName (target_str : string).

(** [Exit.__init__]: the attributes that the parser reads of the new
    exit, whose identity is [id]. [MudObject.init_names] makes the name
    lower case; its assertions on the title cannot fail, since the title
    starts with [Exit to]. The aliases are a set: each is listed once. *)
Definition Exit_init (id : positive) (directions : Directions)
    (target_location : Target) : exn + MudObject :=
  match split_directions directions with
  | inl e => inl e
  | inr (direction, rest) =>
      let title0 :=
        match target_location with
        | TargetLocation _ loc_title => "Exit to " +:+ loc_title
        | TargetName target_str =>
            "Exit to <unbound:" +:+ target_str +:+ ">"
        end in
      inr (mkObj id IsExit (Py.lower direction) (remove_dups rest) title0
             "it" "its" "it" None)
  end.

(** [Exit.bind]: the loop over [self.aliases | {self.name}], whose
    iteration order is [order]. The result is the dictionary
    [location.exits] after the call, and the outcome. *)
Fixpoint Exit_bind (exits0 : dict MudObject) (self : MudObject)
    (order : list string) : dict MudObject * (exn + unit) :=
  match order with
  | [] => (exits0, inr tt)
  | direction :: rest =>
      if dict_has exits0 direction
      then (exits0, inl (LocationIntegrityError (exit_already_exists direction)))
      else Exit_bind (dict_set exits0 direction self) self rest
  end.

(** An iteration order of the set [self.aliases | {self.name}]. *)
Definition directions_of (self : MudObject) (order : list string) : Prop :=
  NoDup order
  /\ forall d, d ∈ order <-> d = name self \/ d ∈ aliases self.

(** ** Doors: [Door] and [Key]

    A door has the attributes [name], [locked], [opened], [key_code],
    [linked_door] (a [DoorPairLink] or [None]) and [target] ([None] while
    the exit is bound to the name of a location only). Key codes are
    strings, as [Key.key_code] is annotated. *)

Module Doors.

Record DoorPairLink := mkDoorPairLink {
  door : positive;
  open_msg : option string;
  close_msg : option string
}.

Record Door := mkDoor {
  name : string;
  locked : bool;
  opened : bool;
  key_code : option string;
  linked_door : option DoorPairLink;
  target : option positive
}.

Definition set_locked (d : Door) (b : bool) : Door :=
  mkDoor (name d) b (opened d) (key_code d) (linked_door d) (target d).
Definition set_opened (d : Door) (b : bool) : Door :=
  mkDoor (name d) (locked d) b (key_code d) (linked_door d) (target d).
Definition set_key_code (d : Door) (c : option string) : Door :=
  mkDoor (name d) (locked d) (opened d) c (linked_door d) (target d).
Definition set_linked_door (d : Door) (l : option DoorPairLink) : Door :=
  mkDoor (name d) (locked d) (opened d) (key_code d) l (target d).

(** What a door reads of an item: its [title], its [subjective] and
    [getattr(item, "key_code", None)]. *)
Record Item := mkItem {
  title : string;
  subjective : string;
  item_key_code : option string
}.

Abbreviation Store := (positive -> Door) (only parsing).

(** [x.attr = v] on the door [x] *)
Definition update (x : positive) (f : Door -> Door) : W Store unit :=
  let* h := wget in wput (<[x := f (h x)]> h).

Section Methods.

(** [lang.a] is not among the sources. *)
Context (lang_a : string -> string).

(** [Door.__init__] after the call of [Exit.__init__], which has made
    the name lower case: the new door, or the [ValueError] of a door
    that is locked and opened. *)
Definition Door_init (directions : Directions)
    (target_location : option positive) (locked0 opened0 : bool)
    : exn + Door :=
  match split_directions directions with
  | inl e => inl e
  | inr (direction, _) =>
      if locked0 && opened0 then inl (Err ValueError)
      else inr (mkDoor (Py.lower direction) locked0 opened0 None None
                  target_location)
  end.

(** [Door.reverse_door]: [other] is the identity of the door that the
    call creates. *)
Definition reverse_door (self other : positive) (directions : Directions)
    (returning_location : positive)
    (reverse_open_msg reverse_close_msg this_open_msg this_close_msg
       : option string) : W Store positive :=
  let* h := wget in
  match Door_init directions (Some returning_location) (locked (h self))
          (opened (h self)) with
  | inl e => wraise e
  | inr other_door =>
      do* wput (<[other := other_door]> h) in
      do* update self (fun d =>
            set_linked_door d
              (Some (mkDoorPairLink other this_open_msg this_close_msg))) in
      do* update other (fun d =>
            set_linked_door d
              (Some (mkDoorPairLink self reverse_open_msg
                       reverse_close_msg))) in
      let* h := wget in
      do* update other (fun d => set_key_code d (key_code (h self))) in
      wret other
  end.

Definition allow_passage (self : positive) : W Store unit :=
  let* h := wget in
  match target (h self) with
  | None => wraise (LocationIntegrityError door_not_bound)
  | Some _ =>
      if negb (opened (h self))
      then refuse "You can't go there; it's closed."
      else wret tt
  end.

(** [self.target.tell(msg)]; without a target the attribute access on
    [None] raises [AttributeError]. *)
Definition tell_target (self : positive) (msg : string) : W Store unit :=
  let* h := wget in
  match target (h self) with
  | Some loc => emit (LocationTold loc msg None)
  | None => wraise (Err AttributeError)
  end.

Definition open (self actor : positive) : W Store unit :=
  let* h := wget in
  if opened (h self) then refuse "It's already open."
  else if locked (h self) then refuse "You try to open it, but it's locked."
  else
    do* update self (fun d => set_opened d true) in
    do* emit (Told actor "You opened it.") in
    do* emit (ToldOthers actor
                ("{Title} opened the " +:+ name (h self) +:+ ".")) in
    match linked_door (h self) with
    | Some link =>
        do* update (door link) (fun d => set_opened d true) in
        if truthy (open_msg link)
        then tell_target self (default EmptyString (open_msg link))
        else wret tt
    | None => wret tt
    end.

Definition close (self actor : positive) : W Store unit :=
  let* h := wget in
  if negb (opened (h self)) then refuse "It's already closed."
  else
    do* update self (fun d => set_opened d false) in
    do* emit (Told actor "You closed it.") in
    do* emit (ToldOthers actor
                ("{Title} closed the " +:+ name (h self) +:+ ".")) in
    match linked_door (h self) with
    | Some link =>
        do* update (door link) (fun d => set_opened d false) in
        if truthy (close_msg link)
        then tell_target self (default EmptyString (close_msg link))
        else wret tt
    | None => wret tt
    end.

(** [Door.check_key]. With a linked door the key code of this door is
    first taken from the other door, or asserted to equal it. The result
    is the truth value of [key_code and key_code == self.key_code]. *)
Definition check_key (self : positive) (item : Item) : W Store bool :=
  let* h := wget in
  do* match linked_door (h self) with
      | Some link =>
          let other_code := key_code (h (door link)) in
          match key_code (h self) with
          | None => update self (fun d => set_key_code d other_code)
          | Some c =>
              if bool_decide (Some c = other_code) then wret tt
              else wraise AssertionError
          end
      | None => wret tt
      end in
  let* h := wget in
  wret (truthy (item_key_code item)
        && bool_decide (item_key_code item = key_code (h self))).

(** [Door.search_key] over the inventory of the actor in its iteration
    order. *)
Fixpoint search_key (self : positive) (inventory : list Item)
    : W Store (option Item) :=
  match inventory with
  | [] => wret None
  | item :: rest =>
      let* fits := check_key self item in
      if fits then wret (Some item) else search_key self rest
  end.

(** The part that [lock] and [unlock] share: the key that is used. *)
Definition find_key (self actor : positive) (inventory : list Item)
    (item : option Item) (action : string) : W Store Item :=
  match item with
  | Some i =>
      let* fits := check_key self i in
      if fits then wret i
      else refuse ("You can't use that to " +:+ action +:+ " it.")
  | None =>
      let* found := search_key self inventory in
      match found with
      | Some key =>
          do* emit (Told actor
                ("<dim>(You use your " +:+ title key +:+ "; "
                 +:+ subjective key +:+ " matches the lock.)</>")) in
          wret key
      | None =>
          refuse ("You don't seem to have the means to " +:+ action
                  +:+ " it.")
      end
  end.

(** [Door.lock(actor, item)]; [inventory] is [actor.inventory]. *)
Definition lock (self actor : positive) (inventory : list Item)
    (item : option Item) : W Store unit :=
  let* h := wget in
  if locked (h self) then refuse "It's already locked."
  else
    let* key := find_key self actor inventory item "lock" in
    do* update self (fun d => set_locked d true) in
    do* emit (Told actor
                ("Your " +:+ title key +:+ " fits, it is now locked.")) in
    do* emit (ToldOthers actor
                ("{Title} locked the " +:+ name (h self) +:+ " with "
                 +:+ lang_a (title key) +:+ ".")) in
    match linked_door (h self) with
    | Some link => update (door link) (fun d => set_locked d true)
    | None => wret tt
    end.

Definition unlock (self actor : positive) (inventory : list Item)
    (item : option Item) : W Store unit :=
  let* h := wget in
  if negb (locked (h self)) then refuse "It's not locked."
  else
    let* key := find_key self actor inventory item "unlock" in
    do* update self (fun d => set_locked d false) in
    do* emit (Told actor
                ("Your " +:+ title key +:+ " fits, it is now unlocked.")) in
    do* emit (ToldOthers actor
                ("{Title} unlocked the " +:+ name (h self) +:+ " with "
                 +:+ lang_a (title key) +:+ ".")) in
    match linked_door (h self) with
    | Some link => update (door link) (fun d => set_locked d false)
    | None => wret tt
    end.

(** [Door.insert(item, actor)] for an [Item]. *)
Definition insert (self : positive) (item : Item) : W Store unit :=
  let* fits := check_key self item in
  let* h := wget in
  if fits then
    if locked (h self)
    then refuse "You could try to unlock the door with it instead."
    else refuse "You could try to lock the door with it instead."
  else refuse ("The " +:+ title item +:+ " doesn't fit.").

(** [Key.key_for(door, code)]: the key after the call, and the outcome.
    With a [code] that is true the door must be [None]; without one the
    code is read from the door, and [None] has no such attribute. *)
Definition key_for (h : Store) (key : Item) (door0 : option positive)
    (code : option string) : Item * (exn + unit) :=
  if truthy code then
    match door0 with
    | Some _ => (key, inl AssertionError)
    | None => (mkItem (title key) (subjective key) code, inr tt)
    end
  else
    match door0 with
    | None => (key, inl (Err AttributeError))
    | Some d =>
        (mkItem (title key) (subjective key) (key_code (h d)),
         if truthy (key_code (h d)) then inr tt
         else inl (LocationIntegrityError door_has_no_key_code))
    end.

(** The methods a player can try on a door. *)
Inductive Action :=
| Open
| Close
| Lock (inventory : list Item) (item : option Item)
| Unlock (inventory : list Item) (item : option Item)
| Insert (item : Item)
| Pass.

Definition act (self actor : positive) (a : Action) : W Store unit :=
  match a with
  | Open => open self actor
  | Close => close self actor
  | Lock inventory item => lock self actor inventory item
  | Unlock inventory item => unlock self actor inventory item
  | Insert item => insert self item
  | Pass => allow_passage self
  end.

(** A sequence of attempts, each by some actor on some door; an attempt
    that raises does not stop the next one. *)
Fixpoint attempts (l : list (positive * positive * Action)) (h : Store)
    : Store :=
  match l with
  | [] => h
  | (self, actor, a) :: rest => attempts rest (store (act self actor a h))
  end.

End Methods.

(** All attributes of every door but its key code are the same in the
    two stores. *)
Definition same_but_code (h h' : Store) : Prop :=
  forall x, set_key_code (h' x) None = set_key_code (h x) None.

(** Two doors that are linked to each other and agree on being opened
    and on being locked. *)
Definition in_step (h : Store) (a b : positive) : Prop :=
  door <$> linked_door (h a) = Some b
  /\ door <$> linked_door (h b) = Some a
  /\ opened (h a) = opened (h b)
  /\ locked (h a) = locked (h b).

(** The door that [a] is linked to, if any, has the key code of [a]. *)
Definition codes_agree (h : Store) (a : positive) : Prop :=
  forall link, linked_door (h a) = Some link ->
    key_code (h (door link)) = key_code (h a).

(** No key code is known to the door [a]: it has none, and neither has
    the door it is linked to, if any. *)
Definition no_code (h : Store) (a : positive) : Prop :=
  key_code (h a) = None
  /\ forall link, linked_door (h a) = Some link ->
       key_code (h (door link)) = None.

End Doors.

(** Doors for the examples: a store in which every door is the same
    garden gate, the key that fits it and one that does not, and two
    players who try their luck. *)
Module Gate.
Import Doors.

Definition a (s : string) : string := "a " +:+ s.

Definition gate : Door :=
  mkDoor "gate" false false (Some "g7") None (Some 5%positive).
Definition open_gate : Door :=
  mkDoor "gate" false true (Some "g7") None (Some 5%positive).
Definition plain_door : Door :=
  mkDoor "door" false false None None (Some 5%positive).

Definition gates : positive -> Door := fun _ => gate.
Definition open_gates : positive -> Door := fun _ => open_gate.
Definition plain_doors : positive -> Door := fun _ => plain_door.

Definition blank_key : Item := mkItem "key" "it" None.
Definition gate_key : Item := mkItem "key" "it" (Some "g7").
Definition other_key : Item := mkItem "rusty key" "it" (Some "r2").

Definition tries : list (positive * positive * Action) :=
  [(1%positive, 9%positive, Open);
   (2%positive, 8%positive, Pass);
   (2%positive, 8%positive, Close);
   (1%positive, 9%positive, Lock [other_key; gate_key] None);
   (2%positive, 8%positive, Open);
   (2%positive, 8%positive, Insert gate_key);
   (2%positive, 8%positive, Unlock [] (Some gate_key))].

Definition tries_on_one : list (positive * positive * Action) :=
  [(1%positive, 9%positive, Lock [other_key; gate_key] None);
   (1%positive, 9%positive, Open);
   (1%positive, 8%positive, Lock [] (Some other_key));
   (1%positive, 8%positive, Unlock [gate_key] None)].

End Gate.

(** ** Where things are: [Location], [Living], [NPC], [Item] and
    [Container]

    Of an object the methods below read and write: its class, its title,
    [contained_in] (of an item), [location] (of a living), the set
    [__inventory] (of a living or a container), the sets [livings] and
    [items] (of a location), whether [privileges] holds ["wizard"], and
    [aggressive]. [Plain] stands for the classes that inherit [insert]
    and [remove] from [MudObject] unchanged: [Item], [Weapon], [Armour],
    [Key] and [Exit]. *)

Module Things.

Inductive Kind := Location | Living | NPC | Container | Item | Exit.

Record Thing := mkThing {
  kind : Kind;
  title : string;
  contained_in : option positive;
  location : option positive;
  inventory : gset positive;
  livings : gset positive;
  items : gset positive;
  privileges : list string;
  aggressive : bool
}.

(** [isinstance(x, Living)], [isinstance(x, Item)] and
    [isinstance(x, Location)] *)
Definition is_living (t : Thing) : bool :=
  match kind t with Living | NPC => true | _ => false end.
Definition is_item (t : Thing) : bool :=
  match kind t with Item | Container => true | _ => false end.
Definition is_location (t : Thing) : bool :=
  match kind t with Location => true | _ => false end.

Definition set_contained_in (t : Thing) (c : option positive) : Thing :=
  mkThing (kind t) (title t) c (location t) (inventory t) (livings t)
    (items t) (privileges t) (aggressive t).
Definition set_location (t : Thing) (l : option positive) : Thing :=
  mkThing (kind t) (title t) (contained_in t) l (inventory t) (livings t)
    (items t) (privileges t) (aggressive t).
Definition set_inventory (t : Thing) (s : gset positive) : Thing :=
  mkThing (kind t) (title t) (contained_in t) (location t) s (livings t)
    (items t) (privileges t) (aggressive t).
Definition set_livings (t : Thing) (s : gset positive) : Thing :=
  mkThing (kind t) (title t) (contained_in t) (location t) (inventory t) s
    (items t) (privileges t) (aggressive t).
Definition set_items (t : Thing) (s : gset positive) : Thing :=
  mkThing (kind t) (title t) (contained_in t) (location t) (inventory t)
    (livings t) s (privileges t) (aggressive t).

Abbreviation Store := (positive -> Thing) (only parsing).

Definition update (x : positive) (f : Thing -> Thing) : W Store unit :=
  let* h := wget in wput (<[x := f (h x)]> h).

(** [obj.location = value]: an item has the property [location], whose
    setter assigns [contained_in] when the value is [None] or a
    [Location] and raises [TypeError] otherwise; any other object has a
    plain attribute. *)
Definition assign_location (obj : positive) (value : option positive)
    : W Store unit :=
  let* h := wget in
  if is_item (h obj) then
    match value with
    | None => update obj (fun t => set_contained_in t None)
    | Some v =>
        if is_location (h v)
        then update obj (fun t => set_contained_in t (Some v))
        else wraise (Err TypeError)
    end
  else update obj (fun t => set_location t value).

(** [actor is self or actor is not None and "wizard" in actor.privileges] *)
Definition may_handle (h : Store) (self : positive) (actor : option positive)
    : bool :=
  match actor with
  | Some a => bool_decide (a = self) || Py.mem "wizard" (privileges (h a))
  | None => false
  end.

Section Methods.

(** [lang.capital] *)
Context (lang_capital : string -> string).

Definition Location_insert (self obj : positive) : W Store unit :=
  let* h := wget in
  do* (if is_living (h obj)
       then update self (fun t => set_livings t ({[obj]} ∪ livings t))
       else if is_item (h obj)
       then update self (fun t => set_items t ({[obj]} ∪ items t))
       else wraise (Err TypeError)) in
  assign_location obj (Some self).

Definition Location_remove (self obj : positive) : W Store unit :=
  let* h := wget in
  if bool_decide (obj ∈ livings (h self)) then
    do* update self (fun t => set_livings t (livings t ∖ {[obj]})) in
    assign_location obj None
  else if bool_decide (obj ∈ items (h self)) then
    do* update self (fun t => set_items t (items t ∖ {[obj]})) in
    assign_location obj None
  else wret tt.

Definition Living_insert (self item : positive) (actor : option positive)
    : W Store unit :=
  let* h := wget in
  if negb (is_item (h item)) then refuse "You can't do that."
  else if may_handle h self actor then
    do* update self (fun t => set_inventory t ({[item]} ∪ inventory t)) in
    update item (fun t => set_contained_in t (Some self))
  else if aggressive (h self) then
    refuse ("It's probably not a good idea to give " +:+ title (h item)
            +:+ " to " +:+ title (h self) +:+ ".")
  else
    refuse (lang_capital (title (h self)) +:+ " doesn't want "
            +:+ title (h item) +:+ ".").

(** [set.remove] raises [KeyError] for an element that is not there. *)
Definition Living_remove (self item : positive) (actor : option positive)
    : W Store unit :=
  let* h := wget in
  if negb (is_item (h item)) then refuse "You can't do that."
  else if may_handle h self actor then
    if bool_decide (item ∈ inventory (h self)) then
      do* update self (fun t => set_inventory t (inventory t ∖ {[item]})) in
      update item (fun t => set_contained_in t None)
    else wraise (Err KeyError)
  else
    refuse ("You can't take " +:+ title (h item) +:+ " from "
            +:+ title (h self) +:+ ".").

(** [NPC.insert] of [npc.py] *)
Definition NPC_insert (self item : positive) (actor : option positive)
    : W Store unit :=
  let* h := wget in
  if negb (aggressive (h self)) || may_handle h self actor
  then Living_insert self item (Some self)
  else if aggressive (h self) then
    refuse ("It's probably not a good idea to give " +:+ title (h item)
            +:+ " to " +:+ title (h self) +:+ ".")
  else
    refuse (lang_capital (title (h self)) +:+ " doesn't want "
            +:+ title (h item) +:+ ".").

Definition Container_insert (self item : positive) : W Store unit :=
  let* h := wget in
  if negb (is_item (h item)) then refuse "You can't do that."
  else
    do* update self (fun t => set_inventory t ({[item]} ∪ inventory t)) in
    update item (fun t => set_contained_in t (Some self)).

Definition Container_remove (self item : positive) : W Store unit :=
  let* h := wget in
  if negb (is_item (h item)) then refuse "You can't do that."
  else if bool_decide (item ∈ inventory (h self)) then
    do* update self (fun t => set_inventory t (inventory t ∖ {[item]})) in
    update item (fun t => set_contained_in t None)
  else wraise (Err KeyError).

(** [target.insert(obj, actor)] and [source.remove(obj, actor)], by the
    class of the object they are called on. *)
Definition insert (self obj : positive) (actor : option positive)
    : W Store unit :=
  let* h := wget in
  match kind (h self) with
  | Location => Location_insert self obj
  | Living => Living_insert self obj actor
  | NPC => NPC_insert self obj actor
  | Container => Container_insert self obj
  | Item | Exit => refuse "You can't put things in there."
  end.

Definition remove (self obj : positive) (actor : option positive)
    : W Store unit :=
  let* h := wget in
  match kind (h self) with
  | Location => Location_remove self obj
  | Living | NPC => Living_remove self obj actor
  | Container => Container_remove self obj
  | Item | Exit => refuse "You can't take things from there."
  end.

(** [Item.move(target, actor)]. [allow_item_move] and [notify_moved] do
    nothing in [Item]. Without a source container the handler of the
    [try] reads [insert] of [None], which raises [AttributeError]. *)
Definition Item_move (self target : positive) (actor : option positive)
    : W Store unit :=
  let* h := wget in
  let source_container := contained_in (h self) in
  do* match source_container with
      | Some source => remove source self actor
      | None => wret tt
      end in
  try_reraise (insert target self actor)
    (match source_container with
     | Some source => insert source self actor
     | None => wraise (Err AttributeError)
     end).

(** [Living.move(target, actor, silent, is_player)]. The title in the two
    messages is the one the living has at the start of the call: no
    method of the store changes a title. *)
Definition Living_move (self target : positive) (actor : option positive)
    (silent is_player : bool) : W Store unit :=
  let* h := wget in
  if negb (is_location (h target)) then wraise AssertionError
  else
    let actor := Some (default self actor) in
    let original_location := location (h self) in
    do* match original_location with
        | Some original =>
            do* remove original self actor in
            do* try_reraise (insert target self actor)
                  (insert original self actor) in
            do* (if negb silent
                 then emit (LocationTold original
                              (lang_capital (title (h self)) +:+ " leaves.")
                              (Some self))
                 else wret tt) in
            emit (Queued (if is_player
                          then notify_player_left original self target
                          else notify_npc_left original self target))
        | None => insert target self actor
        end in
    do* (if negb silent
         then emit (LocationTold target
                      (lang_capital (title (h self)) +:+ " arrives.")
                      (Some self))
         else wret tt) in
    emit (Queued (if is_player
                  then notify_player_arrived target self original_location
                  else notify_npc_arrived target self original_location)).

End Methods.

(** Whether [insert] of an item into [self] by [actor] goes through, and
    whether [remove] does, given that the item is there. *)
Definition accepts (h : Store) (self : positive) (actor : option positive)
    : bool :=
  match kind (h self) with
  | Location | Container => true
  | Living => may_handle h self actor
  | NPC => negb (aggressive (h self)) || may_handle h self actor
  | Item | Exit => false
  end.

Definition releases (h : Store) (self : positive) (actor : option positive)
    : bool :=
  match kind (h self) with
  | Location | Container => true
  | Living | NPC => may_handle h self actor
  | Item | Exit => false
  end.

(** The holder with the item [i] added to what it holds, and with [i]
    taken out. *)
Definition put_in (t : Thing) (i : positive) : Thing :=
  match kind t with
  | Location => set_items t ({[i]} ∪ items t)
  | Living | NPC | Container => set_inventory t ({[i]} ∪ inventory t)
  | Item | Exit => t
  end.

Definition take_out (t : Thing) (i : positive) : Thing :=
  match kind t with
  | Location => set_items t (items t ∖ {[i]})
  | Living | NPC | Container => set_inventory t (inventory t ∖ {[i]})
  | Item | Exit => t
  end.

(** The store after the item [i] has gone into [t], and after it has
    left [s]. *)
Definition moved_in (h : Store) (t i : positive) : Store :=
  let h1 := <[t := put_in (h t) i]> h in
  <[i := set_contained_in (h1 i) (Some t)]> h1.

Definition moved_out (h : Store) (s i : positive) : Store :=
  let h1 := <[s := take_out (h s) i]> h in
  <[i := set_contained_in (h1 i) None]> h1.

(** What an object holds as items: the items of a location, the
    inventory of a living or a container, and nothing otherwise. *)
Definition holdings (h : Store) (c : positive) : gset positive :=
  match kind (h c) with
  | Location => items (h c)
  | Living | NPC | Container => inventory (h c)
  | Item | Exit => ∅
  end.

(** The store is consistent: an item is among the holdings of exactly
    the object that its [contained_in] names, and the livings of a
    location are livings. *)
Definition consistent (h : Store) : Prop :=
  (forall i c, is_item (h i) = true ->
     (i ∈ holdings h c <-> contained_in (h i) = Some c))
  /\ forall l c, kind (h c) = Location -> l ∈ livings (h c) ->
       is_living (h l) = true.

(** The calls that a completed [Living.move] has made, in their order. *)
Definition move_events (lang_capital : string -> string) (h : Store)
    (self target : positive) (silent is_player : bool) : list Event :=
  match location (h self) with
  | Some original =>
      (if silent then []
       else [LocationTold original
               (lang_capital (title (h self)) +:+ " leaves.") (Some self)])
      ++ [Queued (if is_player
                  then notify_player_left original self target
                  else notify_npc_left original self target)]
  | None => []
  end
  ++ (if silent then []
      else [LocationTold target
              (lang_capital (title (h self)) +:+ " arrives.") (Some self)])
  ++ [Queued (if is_player
              then notify_player_arrived target self (location (h self))
              else notify_npc_arrived target self (location (h self)))].

End Things.

(** Things for the examples: a hall with Ann, a dog and a coin in it, a
    garden, and a bag that is nowhere. *)
Module Hall.
Import Things.

Definition nothing : Thing := mkThing Exit "nothing" None None ∅ ∅ ∅ [] false.
Definition hall : Thing :=
  mkThing Location "hall" None None ∅ {[2; 5]}%positive {[3%positive]} []
    false.
Definition ann : Thing :=
  mkThing Living "ann" None (Some 1%positive) ∅ ∅ ∅ [] false.
Definition coin : Thing :=
  mkThing Item "coin" (Some 1%positive) None ∅ ∅ ∅ [] false.
Definition bag : Thing := mkThing Container "bag" None None ∅ ∅ ∅ [] false.
Definition dog : Thing :=
  mkThing NPC "dog" None (Some 1%positive) ∅ ∅ ∅ [] true.
Definition garden : Thing :=
  mkThing Location "garden" None None ∅ ∅ ∅ [] false.

Definition things : positive -> Thing :=
  <[1%positive := hall]>
    (<[2%positive := ann]>
       (<[3%positive := coin]>
          (<[4%positive := bag]>
             (<[5%positive := dog]>
                (<[6%positive := garden]> (fun _ => nothing)))))).

End Hall.

(** ** [Location.tell]

    The calls that [Location.tell] makes, for a location with the given
    name whose set [livings] iterates in the given order. Objects are
    compared by identity, by [==] as well as by membership in the
    targets. *)
Definition Location_tell (location_name : string) (livings : list positive)
    (room_msg : string) (exclude_living : option positive)
    (specific_targets : list positive) (specific_target_msg : string)
    : list Event :=
  flat_map
    (fun living =>
       if bool_decide (Some living = exclude_living) then []
       else if bool_decide (living ∈ specific_targets)
       then [Told living specific_target_msg]
       else [Told living room_msg])
    livings
  ++ (if Py.nonempty room_msg then [Wiretapped location_name room_msg]
      else []).

(** The messages told to [who], in their order. *)
Definition told_to (who : positive) (evs : list Event) : list string :=
  omap (fun ev =>
          match ev with
          | Told w msg => if bool_decide (w = who) then Some msg else None
          | _ => None
          end) evs.

(** ** [Living.select_random_move] and [NPC.select_random_move]

    What the method reads of an exit of the location: whether its target
    has exits of its own ([None] for an exit without a target, where
    reading [target.exits] raises [AttributeError]), and what
    [allow_passage] does for the living. *)
Record Way := mkWay {
  way : MudObject;
  target_has_exits : option bool;
  passage : exn + unit
}.

(** [[d for d, e in exits.items() if e.target.exits]] *)
Fixpoint directions_with_exits (exits0 : dict Way) : exn + list string :=
  match exits0 with
  | [] => inr []
  | (d, e) :: rest =>
      match target_has_exits e with
      | None => inl (Err AttributeError)
      | Some b =>
          match directions_with_exits rest with
          | inl err => inl err
          | inr ds => inr (if b then d :: ds else ds)
          end
      end
  end.

(** The loop [for tries in range(4)], with [tries] rounds to go.
    [random.choice] returns an element of the list; [choice n] is the
    position it takes in round [n], read modulo the length. *)
Fixpoint try_moves (exits0 : dict Way) (ds : list string)
    (choice : nat -> nat) (round tries : nat) : exn + option Way :=
  match tries with
  | 0 => inr None
  | S tries' =>
      match ds !! (choice round mod length ds) with
      | None => inl (Err IndexError)
      | Some direction =>
          match dict_get exits0 direction with
          | None => inl (Err KeyError)
          | Some xt =>
              match passage xt with
              | inr _ => inr (Some xt)
              | inl (Err (ActionRefused _)) =>
                  try_moves exits0 ds choice (S round) tries'
              | inl e => inl e
              end
          end
      end
  end.

Definition select_random_move (exits0 : dict Way) (choice : nat -> nat)
    : exn + option Way :=
  match directions_with_exits exits0 with
  | inl e => inl e
  | inr [] => inr None
  | inr ds => try_moves exits0 ds choice 0 4
  end.

(** Exits for the examples: a way north that is open, a closed door to
    the east, and a way down into a pit without exits; an exit that
    shares a direction with the way north of [Sample.room], and one that
    [Exit_init] makes. *)
Module Ways.

Definition east : MudObject :=
  mkObj 12 IsExit "east" [] "Exit to Shed" "it" "its" "it" None.
Definition down : MudObject :=
  mkObj 13 IsExit "down" [] "Exit to Pit" "it" "its" "it" None.
Definition south : MudObject :=
  mkObj 14 IsExit "south" ["north"; "out"] "Exit to Road" "it" "its" "it"
    None.

Definition west : MudObject :=
  mkObj 15 IsExit "west" ["Westward"] "Exit to <unbound:town.road>" "it"
    "its" "it" None.

Definition ways : dict Way :=
  [("north", mkWay Sample.north (Some true) (inr tt));
   ("east", mkWay east (Some true)
              (inl (Err (ActionRefused "You can't go there; it's closed."))));
   ("down", mkWay down (Some false) (inr tt))].

(** The picks east, east, north, east. *)
Definition picks (n : nat) : nat :=
  match n with 2 => 0 | _ => 1 end.

End Ways.

(** * Properties *)

(** ** Strings and dictionaries *)

Lemma append_cons (x : ascii) (a b : string) :
  String x a +:+ b = String x (a +:+ b).
Proof. reflexivity. Qed.

Lemma append_assoc (a b c : string) : (a +:+ b) +:+ c = a +:+ (b +:+ c).
Proof.
  induction a as [|x a IH]; [done |]. by rewrite !append_cons, IH.
Qed.

Lemma join_snoc (sep : string) (l : list string) (x : string) :
  l <> [] -> Py.join sep (l ++ [x]) = Py.join sep l +:+ sep +:+ x.
Proof.
  induction l as [|y l IH]; [done | intros _].
  destruct l as [|z l]; [done |].
  change (Py.join sep ((y :: z :: l) ++ [x]))
    with (y +:+ sep +:+ Py.join sep ((z :: l) ++ [x])).
  rewrite IH by done.
  change (Py.join sep (y :: z :: l)) with (y +:+ sep +:+ Py.join sep (z :: l)).
  by rewrite !append_assoc.
Qed.

Lemma candidate_one (words : list string) (index : nat) (word : string) :
  words !! index = Some word -> candidate words index 1 = word.
Proof.
  intros H. unfold candidate.
  rewrite <- (Nat.add_0_r index), <- lookup_drop in H.
  destruct (drop index words); simplify_eq/=. done.
Qed.

Lemma candidate_succ (words : list string) (index k : nat) (word : string) :
  1 <= k -> words !! (index + k) = Some word ->
  candidate words index (k + 1)
  = candidate words index k +:+ " " +:+ word.
Proof.
  intros Hk H. unfold candidate.
  rewrite <- lookup_drop in H.
  rewrite Nat.add_1_r, (take_S_r _ _ _ H).
  apply join_snoc.
  destruct (drop index words); [done |].
  destruct k; [lia | done].
Qed.

(** ** [check_name_with_spaces] *)

Lemma check_name_loop_spec {V} (fuel : nat) (words : list string)
    (index : nat) (all_livings all_items : dict V) (wordcount : nat) :
  1 <= wordcount -> index + wordcount <= length words ->
  6 <= fuel + wordcount ->
  (forall j, 1 <= j < wordcount ->
     lookup2 all_livings all_items (candidate words index j) = None) ->
  match check_name_loop fuel words index all_livings all_items wordcount
          (candidate words index wordcount) with
  | Some (o, found, k) =>
      1 <= k <= 5 /\ index + k <= length words
      /\ found = candidate words index k
      /\ lookup2 all_livings all_items found = Some o
      /\ forall j, 1 <= j < k ->
           lookup2 all_livings all_items (candidate words index j) = None
  | None =>
      forall k, 1 <= k <= 5 -> index + k <= length words ->
        lookup2 all_livings all_items (candidate words index k) = None
  end.
Proof.
  revert wordcount.
  induction fuel as [|fuel IH]; intros wordcount Hone Hlen Hfuel Hnone; simpl.
  { intros k Hk _. apply Hnone. lia. }
  destruct (Nat.ltb_spec wordcount 6) as [Hlt|Hge];
    [| intros k Hk _; apply Hnone; lia].
  destruct (dict_get all_livings (candidate words index wordcount))
    as [o|] eqn:Hl.
  { repeat split; try done; try lia. unfold lookup2. by rewrite Hl. }
  destruct (dict_get all_items (candidate words index wordcount))
    as [o|] eqn:Hi.
  { repeat split; try done; try lia. unfold lookup2. by rewrite Hl. }
  assert (Hhere : lookup2 all_livings all_items
                    (candidate words index wordcount) = None).
  { unfold lookup2. by rewrite Hl. }
  destruct (words !! (index + wordcount)) as [word|] eqn:Hw.
  - rewrite <- (candidate_succ _ _ _ _ Hone Hw).
    apply IH; try lia.
    + apply lookup_lt_Some in Hw. lia.
    + intros j Hj. destruct (decide (j = wordcount)) as [->|]; [done |].
      apply Hnone. lia.
  - apply lookup_ge_None in Hw.
    intros k Hk Hk'. destruct (decide (k = wordcount)) as [->|]; [done |].
    apply Hnone. lia.
Qed.

(** ** Outcomes of computations *)


Lemma returns_ret {A} (a b : A) : returns (ret a) b -> a = b.
Proof. unfold returns; simpl. congruence. Qed.

Lemma returns_raise {A} (e : error) (b : A) : ~ returns (raise e) b.
Proof. unfold returns; simpl. congruence. Qed.

Lemma returns_bind {A B} (m : M A) (f : A -> M B) (b : B) :
  returns (bind m f) b -> exists a, returns m a /\ returns (f a) b.
Proof.
  unfold returns, bind. destruct m as [out [e|a]]; simpl; [congruence |].
  intros H. by exists a.
Qed.

Ltac returns_inv :=
  repeat match goal with
  | H : returns (ret _) _ |- _ => apply returns_ret in H; simplify_eq
  | H : returns (raise _) _ |- _ => by apply returns_raise in H
  | H : returns (bind _ _) _ |- _ =>
      let a := fresh "a" in
      let Ha := fresh "Ha" in
      apply returns_bind in H; destruct H as (a & Ha & H)
  | H : returns (if ?b then _ else _) _ |- _ =>
      let E := fresh "E" in destruct b eqn:E
  | H : returns (match ?x with _ => _ end) _ |- _ =>
      let E := fresh "E" in destruct x eqn:E
  end.

(** ** The targets of a parse: [who_info] against [who_order] *)

Lemma keys_in_order_size (d : WhoDict) (order : list MudObject) :
  keys_in_order d order -> size (wd_map d) <= length order.
Proof.
  intros H.
  rewrite <- (length_fmap oid order), <- length_map_to_list,
    <- (length_fmap fst (map_to_list (wd_map d))).
  apply submseteq_length, NoDup_submseteq.
  - apply NoDup_fst_map_to_list.
  - intros k Hk. apply H.
    apply list_elem_of_fmap in Hk as ([k' e] & -> & Hk).
    apply elem_of_map_to_list in Hk. by exists e.
Qed.

Lemma list_remove_keeps (x : MudObject) (l r : list MudObject) (k : positive) :
  list_remove x l = Some r -> k <> oid x -> k ∈ oid <$> l -> k ∈ oid <$> r.
Proof.
  revert r. induction l as [|y l IH]; intros r Hr Hk Hin; [done |].
  simpl in Hr. unfold obj_is in Hr. case_bool_decide as Hy.
  - simplify_eq. rewrite fmap_cons in Hin.
    apply elem_of_cons in Hin as [->|]; [congruence | done].
  - destruct (list_remove x l) as [r'|]; simplify_eq.
    rewrite fmap_cons in *.
    apply elem_of_cons in Hin as [->|Hin]; [left | right; by apply IH].
Qed.

Lemma wd_assign_other (d d' : WhoDict) (x : MudObject) (s : nat)
    (p : option string) (k : positive) :
  wd_assign d x s p = Some d' -> k <> oid x ->
  wd_map d' !! k = wd_map d !! k.
Proof.
  unfold wd_assign. intros H Hk.
  repeat case_match; simplify_eq; simpl; by rewrite lookup_insert_ne.
Qed.

Lemma wd_del_lookup (d d' : WhoDict) (x : MudObject) :
  wd_del d x = Some d' -> wd_map d' = delete (oid x) (wd_map d).
Proof. unfold wd_del. intros H. by case_match; simplify_eq. Qed.

Lemma add_who_ok (x : MudObject) (st st' : Locals) :
  returns (add_who x st) st' -> targets_ok st -> targets_ok st'.
Proof.
  unfold add_who, targets_ok, keys_in_order.
  intros H Hok. returns_inv. simpl. intros k Hk.
  rewrite fmap_app, elem_of_app.
  destruct (decide (k = oid x)) as [->|Hne];
    [right; rewrite list_fmap_singleton; apply list_elem_of_singleton; done |].
  left. apply Hok. by erewrite <- wd_assign_other.
Qed.

Lemma remove_who_ok (x : MudObject) (st st' : Locals) :
  returns (remove_who x st) st' -> targets_ok st -> targets_ok st'.
Proof.
  unfold remove_who, targets_ok, keys_in_order.
  intros H Hok. returns_inv. simpl. intros k Hk.
  erewrite wd_del_lookup in Hk by eassumption.
  destruct (decide (k = oid x)) as [->|Hne].
  - rewrite lookup_delete_eq in Hk. by destruct Hk.
  - rewrite lookup_delete_ne in Hk by done.
    eapply list_remove_keeps; eauto.
Qed.

Lemma add_or_discard_ok (x : MudObject) (st st' : Locals) :
  returns (add_or_discard x st) st' -> targets_ok st -> targets_ok st'.
Proof.
  unfold add_or_discard. intros H Hok.
  repeat case_match; eauto using add_who_ok, remove_who_ok.
  by returns_inv.
Qed.

Lemma empty_keys_in_order (b : bool) (order : list MudObject) :
  keys_in_order (mkWhoDict b ∅) order.
Proof. intros k [e He]. simpl in He. by rewrite lookup_empty in He. Qed.

(** The setters of [Locals] other than [set_who] leave the targets
    alone: [targets_ok] of a chain of setters is that of its core. *)
Ltac targets_norm :=
  unfold targets_ok; simpl;
  try match goal with
      | |- keys_in_order (l_who_info ?a) (l_who_order ?a) =>
          change (targets_ok a)
      end.

Section TargetsOk.

Context (voc : Vocabulary) (w : World) (player : MudObject)
        (previously_parsed : option ParseResult).

Lemma apply_who_list_ok (who_list : list (MudObject * string))
    (st st' : Locals) :
  returns (apply_who_list who_list st) st' -> targets_ok st -> targets_ok st'.
Proof.
  revert st. induction who_list as [|[who n] rest IH]; intros st H Hok;
    simpl in H; returns_inv; [done | |].
  all: eapply IH; [eassumption |].
  all: change (targets_ok a); eauto using add_who_ok, remove_who_ok.
Qed.

Lemma add_everyone_ok (ls : list MudObject) (st st' : Locals) :
  returns (add_everyone player ls st) st' -> targets_ok st -> targets_ok st'.
Proof.
  revert st. induction ls as [|living rest IH]; intros st H Hok;
    simpl in H; returns_inv; eauto using add_who_ok.
Qed.

Lemma unknown_word_ok verb0 external_verb words qualifier0 all_livings
    all_items word (st st' : Locals) (prev : option string) :
  returns (unknown_word voc verb0 external_verb words qualifier0 all_livings
             all_items word st) (st', prev) ->
  targets_ok st -> targets_ok st'.
Proof.
  unfold unknown_word. intros H Hok. returns_inv; done.
Qed.

Lemma step_ok verb0 message_verb external_verb words qualifier0 all_livings
    all_items index word0 (st st' : Locals) (n : nat) :
  returns (step voc w player previously_parsed verb0 message_verb
             external_verb words qualifier0 all_livings all_items index
             word0 st) (st', n) ->
  targets_ok st -> targets_ok st'.
Proof.
  unfold step. intros H Hok. returns_inv; try done.
  all: targets_norm; try apply empty_keys_in_order.
  all: eauto using add_who_ok, add_or_discard_ok, apply_who_list_ok,
      add_everyone_ok, unknown_word_ok.
Qed.

Lemma walk_ok verb0 message_verb external_verb words qualifier0 all_livings
    all_items rest index skip (st st' : Locals) :
  returns (walk voc w player previously_parsed verb0 message_verb
             external_verb words qualifier0 all_livings all_items rest
             index skip st) st' ->
  targets_ok st -> targets_ok st'.
Proof.
  revert index skip st.
  induction rest as [|word0 rest IH]; intros index skip st H Hok; simpl in H.
  { by returns_inv. }
  destruct skip as [|k]; [| by eapply IH].
  returns_inv. eapply IH; [eassumption |]. by eapply step_ok.
Qed.

Lemma initial_locals_ok (message0 : list string) :
  targets_ok (initial_locals message0).
Proof. apply empty_keys_in_order. Qed.

Lemma parse_targets_ok qualifier0 message0 unparsed0 verb0 message_verb
    external_verb words (r : ParseResult) :
  returns (parse_targets voc w player previously_parsed qualifier0 message0
             unparsed0 verb0 message_verb external_verb words) r ->
  keys_in_order (who_info r) (who_order r).
Proof.
  unfold parse_targets. intros H.
  apply returns_bind in H as (st & Hwalk & H).
  assert (Hok : targets_ok st)
    by (eapply walk_ok; [eassumption | apply initial_locals_ok]).
  unfold targets_ok in Hok. returns_inv; simpl; done.
Qed.

Lemma parse_ok (cmd : string) (external_verbs : list string)
    (r : ParseResult) :
  returns (parse voc w player previously_parsed cmd external_verbs) r ->
  keys_in_order (who_info r) (who_order r).
Proof.
  unfold parse, parse_movement. intros H.
  returns_inv; eauto using parse_targets_ok.
Qed.

End TargetsOk.

(** ** The targets of a successful parse (claim C1) *)




(** ** Names of several words (claim C2) *)

(** C2, as the code has it: from a valid index the search returns the
    candidate of the least number [k] of words, between 1 and 5, that is
    a key of one of the two dictionaries (the first dictionary wins), and
    it reports no match exactly when no candidate of 1 to 5 words is a
    key. The loop ends when [wordcount] reaches 6, before the name of six
    words is looked up. *)
Theorem check_name_with_spaces_shortest {V} (words : list string)
    (index : nat) (all_livings all_items : dict V) :
  index < length words ->
  exists r,
    check_name_with_spaces words index all_livings all_items = ret r
    /\ match r with
       | Some (o, found, k) =>
           1 <= k <= 5 /\ index + k <= length words
           /\ found = candidate words index k
           /\ lookup2 all_livings all_items found = Some o
           /\ forall j, 1 <= j < k ->
                lookup2 all_livings all_items (candidate words index j) = None
       | None =>
           forall k, 1 <= k <= 5 -> index + k <= length words ->
             lookup2 all_livings all_items (candidate words index k) = None
       end.
Proof.
  intros Hindex. unfold check_name_with_spaces.
  destruct (words !! index) as [word|] eqn:Hw;
    [| apply lookup_ge_None in Hw; lia].
  eexists. split; [reflexivity |].
  rewrite <- (candidate_one _ _ _ Hw).
  apply check_name_loop_spec; try lia.
Qed.

Lemma check_name_with_spaces_shortest_witness :
  0 < length ["north"; "gate"]
  /\ exists r,
       check_name_with_spaces ["north"; "gate"] 0 (exits Sample.room) []
       = ret r
       /\ match r with
          | Some (o, found, k) =>
              1 <= k <= 5 /\ 0 + k <= length ["north"; "gate"]
              /\ found = candidate ["north"; "gate"] 0 k
              /\ lookup2 (exits Sample.room) [] found = Some o
              /\ forall j, 1 <= j < k ->
                   lookup2 (exits Sample.room) []
                     (candidate ["north"; "gate"] 0 j) = None
          | None =>
              forall k, 1 <= k <= 5 -> 0 + k <= length ["north"; "gate"] ->
                lookup2 (exits Sample.room) []
                  (candidate ["north"; "gate"] 0 k) = None
          end.
Proof.
  split; [simpl; lia |].
  apply (check_name_with_spaces_shortest ["north"; "gate"] 0
           (exits Sample.room) []).
  simpl; lia.
Defined.

(** The example of the specification: with exits keyed [north] and
    [north gate], the words [north gate] resolve to the exit [north] and
    one word is consumed. *)
Example north_gate_resolves_to_north :
  check_name_with_spaces ["north"; "gate"] 0 (exits Sample.room) []
  = ret (Some (Sample.north, "north", 1)).
Proof. reflexivity. Qed.

(** C2 as stated fails: a name of six words that is a key of the
    dictionary is never found. *)
Lemma six_word_name_not_matched :
  let words := ["gate"; "to"; "the"; "old"; "north"; "road"] in
  let d := [("gate to the old north road", Sample.north_gate)] in
  dict_get d (candidate words 0 6) = Some Sample.north_gate
  /\ check_name_with_spaces words 0 d [] = ret None.
Proof. split; reflexivity. Qed.

(** ** The plain dictionary left by [everyone] after [except] (claim C9) *)

Lemma raises_bind_l {A B} (m : M A) (f : A -> M B) (e : error) :
  raises m e -> raises (bind m f) e.
Proof.
  unfold raises, bind. destruct m as [out [e'|a]]; simpl; congruence.
Qed.

Lemma add_who_plain (x : MudObject) (st : Locals) :
  l_who_info st = wd_empty_plain -> raises (add_who x st) KeyError.
Proof. unfold add_who, wd_assign. by intros ->. Qed.

Lemma remove_who_plain (x : MudObject) (st : Locals) :
  l_who_info st = wd_empty_plain -> raises (remove_who x st) KeyError.
Proof. unfold remove_who, wd_del. by intros ->. Qed.

Lemma returns_not_raises {A} (m : M A) (a : A) (e : error) :
  returns m a -> raises m e -> False.
Proof. unfold returns, raises. congruence. Qed.

Lemma add_or_discard_plain (x : MudObject) (st st' : Locals) :
  l_who_info st = wd_empty_plain ->
  returns (add_or_discard x st) st' -> st' = st.
Proof.
  unfold add_or_discard. intros Hp H.
  destruct (include_flag st).
  - exfalso. eauto using returns_not_raises, add_who_plain.
  - unfold wd_has in H. rewrite Hp in H. simpl in H.
    by apply returns_ret in H.
Qed.

Section Plain.

Context (voc : Vocabulary) (w : World) (player : MudObject)
        (previously_parsed : option ParseResult).

Lemma apply_who_list_plain (who_list : list (MudObject * string))
    (st st' : Locals) :
  l_who_info st = wd_empty_plain ->
  returns (apply_who_list who_list st) st' -> l_who_info st' = wd_empty_plain.
Proof.
  destruct who_list as [|[who n] rest]; simpl; intros Hp H.
  - apply returns_ret in H. by subst.
  - apply returns_bind in H as (st1 & H & _). exfalso.
    destruct (include_flag st);
      eauto using returns_not_raises, add_who_plain, remove_who_plain.
Qed.

Lemma add_everyone_plain (ls : list MudObject) (st st' : Locals) :
  l_who_info st = wd_empty_plain ->
  returns (add_everyone player ls st) st' -> l_who_info st' = wd_empty_plain.
Proof.
  induction ls as [|living rest IH]; simpl; intros Hp H.
  - apply returns_ret in H. by subst.
  - destruct (obj_is living player); [by apply IH |].
    apply returns_bind in H as (st1 & H & _). exfalso.
    eauto using returns_not_raises, add_who_plain.
Qed.

Lemma unknown_word_who_info verb0 external_verb words qualifier0 all_livings
    all_items word (st st' : Locals) (prev : option string) :
  returns (unknown_word voc verb0 external_verb words qualifier0 all_livings
             all_items word st) (st', prev) ->
  l_who_info st' = l_who_info st.
Proof. unfold unknown_word. intros H. by returns_inv. Qed.

Lemma step_plain verb0 message_verb external_verb words qualifier0
    all_livings all_items index word0 (st st' : Locals) (n : nat) :
  l_who_info st = wd_empty_plain ->
  returns (step voc w player previously_parsed verb0 message_verb
             external_verb words qualifier0 all_livings all_items index
             word0 st) (st', n) ->
  l_who_info st' = wd_empty_plain.
Proof.
  unfold step. intros Hp H. returns_inv; simpl; try done.
  all: try (erewrite unknown_word_who_info by eassumption; done).
  all: try (match goal with
            | H : returns (add_or_discard _ _) _ |- _ =>
                apply add_or_discard_plain in H; [by subst | done]
            end).
  all: try (exfalso; eauto using returns_not_raises, add_who_plain; fail).
  all: eauto using apply_who_list_plain, add_everyone_plain.
Qed.

End Plain.



(** A whole command that runs into it: bob is added, [except] turns the
    inclusion off, [all] rebinds [who_info], [but] turns the inclusion
    on again, and naming alice raises [KeyError]. *)
Example wave_bob_except_all_but_alice :
  raises (parse Sample.vocabulary Sample.room Sample.dave None
            "wave bob except all but alice" [])
         KeyError.
Proof. reflexivity. Qed.

(** ** Running the walk word by word *)

#[local] Arguments bind {_ _} _ _ : simpl never.
#[local] Arguments ret {_} _ : simpl never.
#[local] Arguments tell _ : simpl never.

Lemma bind_told {A B} (out : list string) (a : A) (f : A -> M B) :
  bind (out, inr a) f = (out ++ (f a).1, (f a).2).
Proof. reflexivity. Qed.

Lemma bind_tell {B} (line : string) (f : unit -> M B) :
  bind (tell line) f = (line :: (f tt).1, (f tt).2).
Proof. reflexivity. Qed.

Lemma bind_ret_l {A B} (a : A) (f : A -> M B) : bind (ret a) f = f a.
Proof. unfold bind, ret. by destruct (f a). Qed.

Section Rounds.

Context (voc : Vocabulary) (w : World) (player : MudObject)
        (previously_parsed : option ParseResult).
Context (verb0 : option string) (message_verb external_verb : bool)
        (words : list string) (qualifier0 : option string)
        (all_livings all_items : dict MudObject).

Local Abbreviation round := (step voc w player previously_parsed verb0 message_verb
                     external_verb words qualifier0 all_livings all_items).
Local Abbreviation walk_on := (walk voc w player previously_parsed verb0 message_verb
                       external_verb words qualifier0 all_livings all_items).

Lemma walk_next (word0 : string) (rest : list string) (index : nat)
    (st : Locals) :
  walk_on (word0 :: rest) index 0 st
  = bind (round index word0 st)
         (fun r => match r with
                   | (st1, n) => walk_on rest (S index) n st1
                   end).
Proof. reflexivity. Qed.

Lemma ordinary_inv (word : string) :
  ordinary voc word = true ->
  Py.mem word ["them"; "him"; "her"; "it"] = false
  /\ Py.mem word ["me"; "myself"; "self"] = false
  /\ dict_has (BODY_PARTS voc) word = false
  /\ Py.mem word ["everyone"; "everybody"; "all"] = false
  /\ String.eqb word "everything" = false
  /\ Py.mem word ["except"; "but"] = false
  /\ Py.mem word (ADVERBS voc) = false.
Proof.
  unfold ordinary. rewrite !andb_true_iff, !negb_true_iff. tauto.
Qed.

(** A filler word only becomes [previous_word]. *)
Lemma round_passed_over (index : nat) (word0 : string) (st : Locals) :
  collect_message st = false ->
  passed_over voc w all_livings all_items words index
    (current_word message_verb st word0) = true ->
  message_verb = false \/ l_message st <> [] ->
  round index word0 st
  = ret (set_previous_word st (Some (current_word message_verb st word0)), 0).
Proof.
  intros Hc Hp Hm. unfold step. rewrite Hc.
  set (word := current_word message_verb st word0) in *.
  unfold passed_over in Hp. rewrite !andb_true_iff in Hp.
  destruct Hp as [[Ho Hn] Hs].
  apply ordinary_inv in Ho as (-> & -> & -> & -> & -> & -> & ->).
  destruct (dict_get all_livings word); [done |].
  destruct (dict_get all_items word); [done |].
  destruct (check_name_with_spaces words index (exits w) [])
    as [[|] [|[|]]]; try done.
  destruct (check_name_with_spaces words index all_livings all_items)
    as [[|] [|[|]]]; try done.
  rewrite Hs. simpl.
  destruct Hm as [->|Hm]; [done |].
  rewrite (bool_decide_eq_true_2 _ Hm). by rewrite andb_false_r.
Qed.

(** A word that names an entity adds it or discards it. *)
Lemma round_named (index : nat) (word0 : string) (st : Locals)
    (target : MudObject) :
  collect_message st = false ->
  names_target voc player all_livings all_items
    (current_word message_verb st word0) = Some target ->
  round index word0 st
  = bind (add_or_discard target st)
         (fun st1 =>
            ret (set_previous_word
                   (push_arg st1 (current_word message_verb st word0)) None,
                 0)).
Proof.
  intros Hc Hn. unfold step. rewrite Hc.
  set (word := current_word message_verb st word0) in *.
  unfold names_target, lookup2 in Hn.
  destruct (Py.mem word ["them"; "him"; "her"; "it"]); [done |].
  destruct (Py.mem word ["me"; "myself"; "self"]); [by simplify_eq |].
  destruct (dict_has (BODY_PARTS voc) word); [done |].
  destruct (Py.mem word ["everyone"; "everybody"; "all"]); [done |].
  destruct (word =? "everything")%string; [done |].
  destruct (Py.mem word ["except"; "but"]); [done |].
  destruct (Py.mem word (ADVERBS voc)); [done |].
  destruct (dict_get all_livings word); [by simplify_eq |].
  destruct (dict_get all_items word); [by simplify_eq | done].
Qed.

(** [except] and [but] toggle the inclusion. *)
Lemma round_except (index : nat) (word0 : string) (st : Locals) :
  collect_message st = false ->
  Py.mem (current_word message_verb st word0) ["except"; "but"] = true ->
  dict_has (BODY_PARTS voc) (current_word message_verb st word0) = false ->
  round index word0 st
  = ret (push_arg (set_include_flag st (negb (include_flag st)))
           (current_word message_verb st word0), 0).
Proof.
  intros Hc He Hb. unfold step. rewrite Hc.
  set (word := current_word message_verb st word0) in *.
  rewrite Hb, He. clearbody word.
  assert (word = "except" \/ word = "but") as [-> | ->]; [| done | done].
  unfold Py.mem in He. simpl in He.
  destruct (String.eqb_spec word "except"); [by left |].
  destruct (String.eqb_spec word "but"); [by right | done].
Qed.

(** A collective word met while the inclusion is on adds the others. *)
Lemma round_everyone (index : nat) (word0 : string) (st : Locals) :
  collect_message st = false -> include_flag st = true ->
  Py.mem (current_word message_verb st word0)
    ["everyone"; "everybody"; "all"] = true ->
  dict_has (BODY_PARTS voc) (current_word message_verb st word0) = false ->
  all_livings <> [] ->
  round index word0 st
  = bind (add_everyone player (livings w) st)
         (fun st1 =>
            ret (set_previous_word
                   (push_arg st1 (current_word message_verb st word0)) None,
                 0)).
Proof.
  intros Hc Hi He Hb Hl. unfold step. rewrite Hc.
  set (word := current_word message_verb st word0) in *.
  rewrite Hb, He, Hi. clearbody word.
  assert (word = "everyone" \/ word = "everybody" \/ word = "all") as Hw.
  { unfold Py.mem in He. simpl in He.
    destruct (String.eqb_spec word "everyone"); [by left |].
    destruct (String.eqb_spec word "everybody"); [by right; left |].
    destruct (String.eqb_spec word "all"); [by right; right | done]. }
  destruct all_livings; [done |].
  by destruct Hw as [->|[->| ->]].
Qed.

(** A pronoun is handed to the memory of the previous parse. *)
Lemma round_pronoun (index : nat) (word0 : string) (st : Locals)
    (prev : ParseResult) :
  collect_message st = false ->
  Py.mem (current_word message_verb st word0)
    ["them"; "him"; "her"; "it"] = true ->
  previously_parsed = Some prev ->
  round index word0 st
  = bind (match_previously_parsed voc w prev
            (current_word message_verb st word0))
         (fun who_list =>
            bind (apply_who_list who_list st)
                 (fun st1 => ret (set_previous_word st1 None, 0))).
Proof. intros Hc Hp Hprev. unfold step. by rewrite Hc, Hp, Hprev. Qed.

End Rounds.

Section Front.

Context (voc : Vocabulary) (w : World) (player : MudObject)
        (previously_parsed : option ParseResult).

(** The statements of [parse] before the walk, for a command that
    starts with a plain soul verb. *)
Lemma parse_plain_soul_verb (cmd cmd1 v : string) (message0 ws : list string)
    (external_verbs : list string) :
  extract_message cmd = ret (message0, cmd1) ->
  Py.split cmd1 = v :: ws ->
  plain_soul_verb voc external_verbs v = true ->
  parse voc w player previously_parsed cmd external_verbs
  = parse_targets voc w player previously_parsed None message0 cmd (Some v)
      false false ws.
Proof.
  intros He Hs Hv. unfold parse. rewrite He, bind_ret_l.
  destruct cmd1 as [|c cmd1]; [done |].
  cbn [Py.nonempty negb]. rewrite Hs.
  unfold plain_soul_verb in Hv. rewrite !andb_true_iff, !negb_true_iff in Hv.
  destruct Hv as [[[Hq Hk] Hx] Hd].
  rewrite Hq. cbn [tail]. rewrite Hk, Hx.
  destruct (dict_get (VERBS voc) v) as [vd|]; [| done].
  destruct (verbdata_at vd 2) as [t|]; [| done].
  apply negb_true_iff in Hd. by rewrite Hd.
Qed.

Lemma add_who_default (x : MudObject) (st : Locals) :
  wd_default (l_who_info st) = true ->
  exists d,
    add_who x st
    = ret (set_who st d (l_who_order st ++ [x]) (who_sequence st + 1))
    /\ wd_default d = true
    /\ forall k, is_Some (wd_map d !! k)
                 <-> is_Some (wd_map (l_who_info st) !! k) \/ k = oid x.
Proof.
  intros Hd. unfold add_who, wd_assign. rewrite Hd.
  destruct (wd_map (l_who_info st) !! oid x) as [[k0 i]|] eqn:Hx;
    (eexists; split; [reflexivity |]; split; [done |]); simpl; intros k.
  all: destruct (decide (k = oid x)) as [->|Hne];
    [rewrite lookup_insert_eq; split; [by right | by eexists]
    | rewrite lookup_insert_ne by done; tauto].
Qed.

Lemma add_everyone_default (ls : list MudObject) (st : Locals) :
  wd_default (l_who_info st) = true ->
  exists d n,
    add_everyone player ls st
    = ret (set_who st d (l_who_order st ++ others player ls) n)
    /\ wd_default d = true
    /\ forall k, is_Some (wd_map d !! k)
                 <-> is_Some (wd_map (l_who_info st) !! k)
                     \/ k ∈ oid <$> others player ls.
Proof.
  revert st. induction ls as [|living rest IH]; intros st Hd; simpl.
  { exists (l_who_info st), (who_sequence st). unfold others; simpl.
    rewrite app_nil_r. split; [by destruct st |]. split; [done |].
    intros k. rewrite elem_of_nil. tauto. }
  unfold others. rewrite filter_cons.
  destruct (obj_is living player) eqn:Hp.
  - rewrite decide_False by done. by apply IH.
  - rewrite decide_True by done.
    destruct (add_who_default living st Hd) as (d1 & -> & Hd1 & Hk1).
    rewrite bind_ret_l.
    destruct (IH (set_who st d1 (l_who_order st ++ [living])
                    (who_sequence st + 1)) Hd1) as (d & n & -> & Hd' & Hk).
    exists d, n. split; [| split; [done |]].
    + simpl. by rewrite <- app_assoc.
    + intros k. rewrite Hk. simpl. rewrite Hk1, ?fmap_cons, elem_of_cons.
      fold (others player rest). tauto.
Qed.

End Front.

Lemma filter_all {A} (P : A -> Prop) `{!forall x, Decision (P x)}
    (l : list A) :
  Forall P l -> filter P l = l.
Proof.
  induction 1 as [|x l Hx _ IH]; [done |].
  by rewrite filter_cons_True, IH.
Qed.

Lemma list_remove_nodup (x : MudObject) (l : list MudObject) :
  NoDup (oid <$> l) -> oid x ∈ oid <$> l ->
  list_remove x l = Some (filter (fun y => obj_is y x = false) l).
Proof.
  induction l as [|y l IH]; intros Hnd Hin; [by apply elem_of_nil in Hin |].
  rewrite fmap_cons in Hnd, Hin. apply NoDup_cons in Hnd as [Hy Hnd].
  simpl. destruct (obj_is y x) eqn:Heq.
  - rewrite filter_cons_False by (rewrite Heq; done). f_equal.
    symmetry. apply filter_all, Forall_forall. intros z Hz.
    unfold obj_is in *. apply bool_decide_eq_true in Heq.
    apply bool_decide_eq_false. intros Hzx. apply Hy.
    rewrite Heq, <- Hzx. by apply list_elem_of_fmap_2.
  - rewrite filter_cons_True by done.
    unfold obj_is in Heq. apply bool_decide_eq_false in Heq.
    apply elem_of_cons in Hin as [Hin|Hin]; [congruence |].
    by rewrite IH.
Qed.

(** Excluding a target that is there, from a [who_order] without
    repeats. *)
Lemma discard_present (x : MudObject) (st : Locals) :
  include_flag st = false ->
  is_Some (wd_map (l_who_info st) !! oid x) ->
  NoDup (oid <$> l_who_order st) ->
  oid x ∈ oid <$> l_who_order st ->
  add_or_discard x st
  = ret (set_who st
           (mkWhoDict (wd_default (l_who_info st))
              (delete (oid x) (wd_map (l_who_info st))))
           (filter (fun y => obj_is y x = false) (l_who_order st))
           (who_sequence st)).
Proof.
  intros Hi Hs Hnd Hin. unfold add_or_discard, wd_has, remove_who, wd_del.
  rewrite Hi, (bool_decide_eq_true_2 _ Hs).
  destruct Hs as [e ->]. by rewrite list_remove_nodup.
Qed.

Lemma add_names_nonempty (d : dict MudObject) (o : MudObject) :
  add_names d o <> [].
Proof.
  unfold add_names.
  assert (Hset : forall (d' : dict MudObject) k, dict_set d' k o <> []).
  { intros d' k. destruct d' as [|[k' v'] d']; simpl; [done |].
    by destruct (String.eqb k' k). }
  assert (Hfold : forall l (d' : dict MudObject), d' <> [] ->
            fold_left (fun d' alias => dict_set d' alias o) l d' <> []).
  { induction l as [|a l IH]; intros d' Hd'; simpl; [done |].
    apply IH, Hset. }
  apply Hfold, Hset.
Qed.

Lemma build_all_livings_nonempty (w : World) :
  livings w <> [] -> build_all_livings w <> [].
Proof.
  unfold build_all_livings.
  assert (Hfold : forall l (d : dict MudObject), d <> [] ->
            fold_left add_names l d <> []).
  { induction l as [|a l IH]; intros d Hd; simpl; [done |].
    apply IH, add_names_nonempty. }
  destruct (livings w) as [|l ls]; [done | intros _]. simpl.
  apply Hfold, add_names_nonempty.
Qed.

Lemma NoDup_four {A} (a b c d : A) :
  NoDup [a; b; c; d] ->
  a <> b /\ a <> c /\ a <> d /\ b <> c /\ b <> d /\ c <> d.
Proof.
  intros H.
  apply NoDup_cons in H as [Ha H]. apply NoDup_cons in H as [Hb H].
  apply NoDup_cons in H as [Hc _].
  rewrite list_elem_of_In in Ha, Hb, Hc. simpl in Ha, Hb, Hc.
  repeat split; intros ->; tauto.
Qed.

(** ** Everyone except one (claim C4) *)

(** C4: let the livings of dave's location be alice, bob and carol (with
    or without dave himself, in any iteration order), let [wave] be a
    soul verb that takes no message, [at] a filler the walk passes over,
    and [bob] the word that names bob. Then the parse of
    [wave at everyone except bob] succeeds and its targets are exactly
    alice and carol, in [who_order] and as the keys of [who_info]. *)
Theorem wave_at_everyone_except_bob (voc : Vocabulary) (w : World)
    (alice bob carol dave : MudObject)
    (previously_parsed : option ParseResult) (external_verbs : list string) :
  let all_livings := build_all_livings w in
  let all_items := build_all_items w in
  plain_soul_verb voc external_verbs "wave" = true ->
  passed_over voc w all_livings all_items
    ["at"; "everyone"; "except"; "bob"] 0 "at" = true ->
  dict_has (BODY_PARTS voc) "everyone" = false ->
  dict_has (BODY_PARTS voc) "except" = false ->
  names_target voc dave all_livings all_items "bob" = Some bob ->
  NoDup (oid <$> [alice; bob; carol; dave]) ->
  livings w ≡ₚ [alice; bob; carol] \/ livings w ≡ₚ [alice; bob; carol; dave] ->
  exists r,
    parse voc w dave previously_parsed "wave at everyone except bob"
      external_verbs = ret r
    /\ verb r = "wave"
    /\ who_order r ≡ₚ [alice; carol]
    /\ dom (wd_map (who_info r)) = {[oid alice; oid carol]}
    /\ args r = ["everyone"; "except"; "bob"].
Proof.
  intros all_livings all_items Hverb Hat Hev Hex Hbob Hnd Hperm.
  rewrite (parse_plain_soul_verb voc w dave previously_parsed
             "wave at everyone except bob" "wave at everyone except bob"
             "wave" [] ["at"; "everyone"; "except"; "bob"] external_verbs
             eq_refl eq_refl Hverb).
  unfold parse_targets.
  fold all_livings all_items.
  rewrite walk_next.
  rewrite (round_passed_over voc w dave previously_parsed (Some "wave") false
             false _ None all_livings all_items 0 "at" (initial_locals [])
             eq_refl Hat (or_introl eq_refl)).
  rewrite bind_ret_l. cbn iota.
  assert (Hneq : forall a b : MudObject,
            oid a <> oid b -> obj_is a b = false).
  { intros a b Hab. by apply bool_decide_eq_false. }
  apply (NoDup_four (oid alice) (oid bob) (oid carol) (oid dave)) in Hnd
    as (Hab & Hac & Had & Hbc & Hbd & Hcd).
  assert (Hl : all_livings <> []).
  { apply build_all_livings_nonempty. intros Hnil. rewrite Hnil in Hperm.
    destruct Hperm as [Hperm|Hperm]; by apply Permutation_nil_cons in Hperm. }
  assert (Hothers : others dave (livings w) ≡ₚ [alice; bob; carol]).
  { unfold others. destruct Hperm as [-> | ->].
    - rewrite !filter_cons_True by (apply Hneq; done). done.
    - rewrite !filter_cons_True by (apply Hneq; done).
      rewrite filter_cons_False; [done |].
      unfold obj_is. by rewrite bool_decide_eq_true_2. }
  rewrite walk_next.
  rewrite round_everyone by done.
  destruct (add_everyone_default dave (livings w)
              (set_previous_word (initial_locals [])
                 (Some (current_word false (initial_locals []) "at")))
              eq_refl)
    as (d & n & Hadd & Hd & Hk).
  rewrite Hadd, !bind_ret_l. cbn iota.
  rewrite walk_next, round_except by done.
  rewrite bind_ret_l. cbn iota.
  rewrite walk_next. erewrite round_named by (done || exact Hbob).
  assert (Hnd' : NoDup (oid <$> others dave (livings w))).
  { rewrite Hothers. rewrite !fmap_cons, fmap_nil. 
    repeat (apply NoDup_cons;
            split; [rewrite list_elem_of_In; simpl; intuition congruence |]).
    apply NoDup_nil_2. }
  assert (Hin : oid bob ∈ oid <$> others dave (livings w)).
  { rewrite Hothers. apply list_elem_of_In. simpl. tauto. }
  rewrite discard_present; [| done | | done | done].
  2:{ cbn. apply Hk. by right. }
  rewrite !bind_ret_l. cbn.
  eexists. split; [reflexivity |]. cbn.
  split; [done |]. split; [| split; [| done]].
  - rewrite Hothers.
    rewrite filter_cons_True by (apply Hneq; done).
    rewrite filter_cons_False
      by (unfold obj_is; by rewrite bool_decide_eq_true_2).
    by rewrite filter_cons_True by (apply Hneq; done).
  - apply set_eq. intros k.
    rewrite elem_of_dom, lookup_delete_is_Some, Hk.
    cbn. rewrite lookup_empty, is_Some_alt, Hothers.
    rewrite elem_of_union, !elem_of_singleton, list_elem_of_In. simpl.
    intuition congruence.
Qed.

Lemma wave_at_everyone_except_bob_witness :
  exists r,
    parse Sample.vocabulary Sample.room Sample.dave None
      "wave at everyone except bob" [] = ret r
    /\ verb r = "wave"
    /\ who_order r ≡ₚ [Sample.alice; Sample.carol]
    /\ dom (wd_map (who_info r)) = {[oid Sample.alice; oid Sample.carol]}
    /\ args r = ["everyone"; "except"; "bob"].
Proof.
  apply (wave_at_everyone_except_bob Sample.vocabulary Sample.room
           Sample.alice Sample.bob Sample.carol Sample.dave None []);
    try reflexivity.
  - apply (bool_decide_unpack _). reflexivity.
  - right. reflexivity.
Defined.

(** ** A pronoun after a successful parse (claim C8) *)

Lemma still_around_living (w : World) (who : MudObject) :
  Py.nonempty (name who) = true -> obj_in who (livings w) = true ->
  still_around w who = ret true.
Proof.
  intros Hn Hl. unfold still_around, search_item. rewrite Hn. cbn [negb].
  destruct (Item_search_item (name who) (inventory w));
    [by rewrite bind_ret_l |].
  destruct (Item_search_item (name who) (items w));
    [by rewrite bind_ret_l |].
  rewrite bind_ret_l.
  by destruct (search_containers w (name who) (inventory w)); rewrite ?Hl.
Qed.

(** [him] or [her] resolves to the first target of the previous parse
    with that objective pronoun, when it is still around. *)
Lemma match_previously_parsed_first (voc : Vocabulary) (w : World)
    (prev : ParseResult) (pronoun : string) (who : MudObject)
    (rest : list MudObject) :
  Py.mem pronoun ["them"; "it"] = false ->
  who_order prev = who :: rest ->
  objective who = pronoun ->
  still_around w who = ret true ->
  match_previously_parsed voc w prev pronoun
  = (["<dim>(By '" +:+ pronoun +:+ "', it is assumed you mean "
      +:+ title who +:+ ".)</>"], inr [(who, name who)]).
Proof.
  intros Hp Ho Hobj Ha. unfold match_previously_parsed.
  unfold Py.mem in Hp. simpl in Hp.
  apply orb_false_elim in Hp as [-> Hp].
  apply orb_false_elim in Hp as [Hit _].
  rewrite Ho. simpl. rewrite Hit, Hobj, String.eqb_refl, Ha, bind_ret_l.
  by rewrite bind_tell.
Qed.

Lemma add_who_first (x : MudObject) (st : Locals) :
  l_who_info st = wd_empty_default ->
  add_who x st
  = ret (set_who st
           (mkWhoDict true
              {[oid x := (x, mkWhoInfo (who_sequence st) (l_previous_word st))]})
           (l_who_order st ++ [x]) (who_sequence st + 1)).
Proof.
  intros Hd. unfold add_who, wd_assign. rewrite Hd. simpl.
  by rewrite lookup_empty, insert_empty.
Qed.

(** C8: let [smile] and [wave] be soul verbs that take no message, [at]
    a filler the walk passes over, and [bob] the word that names bob, a
    living whose objective pronoun is [him] and who is still in the
    location at the second command. Then [smile at bob] parses with
    [who_order == [bob]], and with that result remembered
    [wave at him] parses with [who_order == [bob]] again and with bob's
    name in [args] in place of the pronoun, after one line has told the
    actor who is meant. *)
Theorem smile_at_bob_then_wave_at_him (voc : Vocabulary) (w1 w2 : World)
    (alice bob : MudObject) (previously_parsed : option ParseResult)
    (external_verbs : list string) :
  plain_soul_verb voc external_verbs "smile" = true ->
  plain_soul_verb voc external_verbs "wave" = true ->
  passed_over voc w1 (build_all_livings w1) (build_all_items w1)
    ["at"; "bob"] 0 "at" = true ->
  names_target voc alice (build_all_livings w1) (build_all_items w1) "bob"
  = Some bob ->
  passed_over voc w2 (build_all_livings w2) (build_all_items w2)
    ["at"; "him"] 0 "at" = true ->
  name bob = "bob" -> objective bob = "him" ->
  obj_in bob (livings w2) = true ->
  exists r1,
    parse voc w1 alice previously_parsed "smile at bob" external_verbs
    = ret r1
    /\ who_order r1 = [bob]
    /\ exists r2,
         parse voc w2 alice (Some r1) "wave at him" external_verbs
         = (["<dim>(By 'him', it is assumed you mean " +:+ title bob
             +:+ ".)</>"], inr r2)
         /\ who_order r2 = [bob]
         /\ args r2 = ["bob"]
         /\ dom (wd_map (who_info r2)) = {[oid bob]}.
Proof.
  intros Hsmile Hwave Hat1 Hbob Hat2 Hname Hobj Hhere.
  rewrite (parse_plain_soul_verb voc w1 alice previously_parsed
             "smile at bob" "smile at bob" "smile" [] ["at"; "bob"]
             external_verbs eq_refl eq_refl Hsmile).
  unfold parse_targets.
  rewrite walk_next, round_passed_over by (done || by left).
  rewrite bind_ret_l. cbn iota.
  rewrite walk_next. erewrite round_named by (done || exact Hbob).
  unfold add_or_discard. cbn [include_flag set_previous_word initial_locals].
  rewrite add_who_first by done.
  rewrite !bind_ret_l. simpl.
  eexists. split; [reflexivity |]. split; [done |].
  rewrite (parse_plain_soul_verb voc w2 alice _
             "wave at him" "wave at him" "wave" [] ["at"; "him"]
             external_verbs eq_refl eq_refl Hwave).
  unfold parse_targets.
  rewrite walk_next, round_passed_over by (done || by left).
  rewrite bind_ret_l. cbn iota.
  rewrite walk_next. erewrite round_pronoun by done.
  erewrite (match_previously_parsed_first voc w2 _ "him" bob [])
    by (done || apply still_around_living; (done || by rewrite Hname)).
  rewrite bind_told. simpl.
  rewrite add_who_first by done.
  rewrite !bind_ret_l. simpl.
  eexists. split; [reflexivity |].
  rewrite Hname. simpl. split; [done |]. split; [done |].
  by rewrite dom_singleton_L.
Qed.

Lemma smile_at_bob_then_wave_at_him_witness :
  exists r1,
    parse Sample.vocabulary Sample.room Sample.alice None "smile at bob" []
    = ret r1
    /\ who_order r1 = [Sample.bob]
    /\ exists r2,
         parse Sample.vocabulary Sample.room Sample.alice (Some r1)
           "wave at him" []
         = (["<dim>(By 'him', it is assumed you mean " +:+ title Sample.bob
             +:+ ".)</>"], inr r2)
         /\ who_order r2 = [Sample.bob]
         /\ args r2 = ["bob"]
         /\ dom (wd_map (who_info r2)) = {[oid Sample.bob]}.
Proof.
  apply (smile_at_bob_then_wave_at_him Sample.vocabulary Sample.room
           Sample.room Sample.alice Sample.bob None []); reflexivity.
Defined.

(** ** The search for the quoted message *)

Lemma last_quote_none (q : ascii) (t : string) :
  last_quote q t = None <->
  forall i, String.get i (line_of t) <> Some q.
Proof.
  induction t as [|c t IH]; simpl.
  - split; [intros _ i; by destruct i | done].
  - destruct (Ascii.eqb c Py.NL); [split; [intros _ i; by destruct i | done] |].
    destruct (last_quote q t) as [j|].
    + split; [done |]. intros H. exfalso.
      assert (Hex : ~ forall i, String.get i (line_of t) <> Some q).
      { intros Hall. by apply IH in Hall. }
      apply Hex. intros i. apply (H (S i)).
    + destruct (Ascii.eqb_spec c q) as [->|Hne].
      * split; [done |]. intros H. by specialize (H 0).
      * split; [| done]. intros _ [|i]; simpl; [congruence |].
        by apply IH.
Qed.

(** The group that the greedy pattern finds after an opening quote [q]:
    it has [j] characters, none of them a newline, a quote [q] follows
    it, and no further [q] follows on the line. *)
Lemma last_quote_some (q : ascii) (t : string) (j : nat) :
  last_quote q t = Some j ->
  String.get j (line_of t) = Some q
  /\ Py.take j t +:+ String q (Py.drop (S j) t) = t
  /\ forall i, j < i -> String.get i (line_of t) <> Some q.
Proof.
  revert j. induction t as [|c t IH]; intros j H; simpl in H; [done |].
  simpl. destruct (Ascii.eqb c Py.NL); [done |].
  destruct (last_quote q t) as [j'|] eqn:Hj.
  - simplify_eq. destruct (IH j' eq_refl) as (Hget & Heq & Hlast).
    split; [done |]. split.
    + simpl. rewrite append_cons. by f_equal.
    + intros [|i] Hi; [lia |]. simpl. apply Hlast. lia.
  - destruct (Ascii.eqb_spec c q) as [->|Hne]; [| done]. simplify_eq.
    split; [done |]. split; [done |].
    intros [|i] Hi; [lia |]. simpl. by apply last_quote_none.
Qed.

Lemma last_quote_length (q : ascii) (t : string) (j : nat) :
  last_quote q t = Some j -> String.length (Py.take j t) = j.
Proof.
  revert j. induction t as [|c t IH]; intros j H; simpl in H; [done |].
  destruct (Ascii.eqb c Py.NL); [done |].
  destruct (last_quote q t) as [j'|].
  - simplify_eq. simpl. by rewrite IH.
  - by destruct (Ascii.eqb c q); simplify_eq.
Qed.


(** What [search] returns: the match starts at the first quote
    character that has a quote of its kind after it on its line, and
    runs to the last such quote; the group between them is [msg1] for
    single and [msg2] for double quotes. *)
Lemma quoted_search_from_spec (i : nat) (s : string) (m : QuoteMatch) :
  quoted_search_from i s = Some m ->
  exists k q g,
    m_start m = i + k /\ m_end m = i + k + String.length g + 2
    /\ String.get k s = Some q
    /\ last_quote q (Py.drop (S k) s) = Some (String.length g)
    /\ g = Py.take (String.length g) (Py.drop (S k) s)
    /\ (q = Py.SQUOTE /\ msg1 m = Some g /\ msg2 m = None
        \/ q = Py.DQUOTE /\ msg1 m = None /\ msg2 m = Some g)
    /\ forall k' c, k' < k -> String.get k' s = Some c ->
         is_quote c = true -> last_quote c (Py.drop (S k') s) = None.
Proof.
  revert i m. induction s as [|c t IH]; intros i m H; simpl in H; [done |].
  assert (Hlater : forall m',
            quoted_search_from (S i) t = Some m' ->
            (is_quote c = true -> last_quote c t = None) ->
            exists k q g,
              m_start m' = i + k
              /\ m_end m' = i + k + String.length g + 2
              /\ String.get k (String c t) = Some q
              /\ last_quote q (Py.drop (S k) (String c t))
                 = Some (String.length g)
              /\ g = Py.take (String.length g) (Py.drop (S k) (String c t))
              /\ (q = Py.SQUOTE /\ msg1 m' = Some g /\ msg2 m' = None
                  \/ q = Py.DQUOTE /\ msg1 m' = None /\ msg2 m' = Some g)
              /\ forall k' c', k' < k ->
                   String.get k' (String c t) = Some c' ->
                   is_quote c' = true ->
                   last_quote c' (Py.drop (S k') (String c t)) = None).
  { intros m' Hm' Hc.
    destruct (IH _ _ Hm') as (k & q & g & Hs & He & Hget & Hl & Hg & Hq & Hf).
    exists (S k), q, g. simpl. repeat split; try done; try lia.
    intros [|k'] c' Hk' Hget' Hquote; simpl in Hget' |- *.
    - simplify_eq. by apply Hc.
    - apply (Hf k' c'); [lia | done | done]. }
  assert (Hhere : forall q j,
            last_quote q t = Some j ->
            String.length (Py.take j t) = j).
  { intros q j Hj. pose proof (last_quote_length q t j Hj). done. }
  unfold is_quote in Hlater.
  destruct (Ascii.eqb_spec c Py.SQUOTE) as [->|Hs].
  - destruct (last_quote Py.SQUOTE t) as [j|] eqn:Hj; [| by apply Hlater].
    simplify_eq. exists 0, Py.SQUOTE, (Py.take j t). simpl.
    rewrite (Hhere _ _ Hj).
    repeat split; try done; try lia; try (by left).
  - destruct (Ascii.eqb_spec c Py.DQUOTE) as [->|Hd].
    + destruct (last_quote Py.DQUOTE t) as [j|] eqn:Hj; [| by apply Hlater].
      simplify_eq. exists 0, Py.DQUOTE, (Py.take j t). simpl.
      rewrite (Hhere _ _ Hj).
      repeat split; try done; try lia; try (by right).
    + by apply Hlater.
Qed.

(** ** The quoted message (claim C5) *)


Lemma add_who_message (x : MudObject) (st st' : Locals) :
  returns (add_who x st) st' -> message_kept st st'.
Proof. unfold add_who. intros H. by returns_inv. Qed.

Lemma remove_who_message (x : MudObject) (st st' : Locals) :
  returns (remove_who x st) st' -> message_kept st st'.
Proof. unfold remove_who. intros H. by returns_inv. Qed.

Lemma add_or_discard_message (x : MudObject) (st st' : Locals) :
  returns (add_or_discard x st) st' -> message_kept st st'.
Proof.
  unfold add_or_discard. intros H.
  repeat case_match; eauto using add_who_message, remove_who_message.
  by returns_inv.
Qed.

Lemma message_kept_trans (a b c : Locals) :
  message_kept a b -> message_kept b c -> message_kept a c.
Proof. unfold message_kept. intros [-> ->] [-> ->]. done. Qed.

Section Message.

Context (voc : Vocabulary) (w : World) (player : MudObject)
        (previously_parsed : option ParseResult).

Lemma apply_who_list_message (who_list : list (MudObject * string))
    (st st' : Locals) :
  returns (apply_who_list who_list st) st' -> message_kept st st'.
Proof.
  revert st. induction who_list as [|[who n] rest IH]; intros st H;
    simpl in H; returns_inv; [done | |].
  all: eapply (message_kept_trans _ (push_arg a n));
    [| eapply IH; eassumption].
  all: change (message_kept st a);
    eauto using add_who_message, remove_who_message.
Qed.

Lemma add_everyone_message (ls : list MudObject) (st st' : Locals) :
  returns (add_everyone player ls st) st' -> message_kept st st'.
Proof.
  revert st. induction ls as [|living rest IH]; intros st H;
    simpl in H; returns_inv; [done | eauto |].
  eapply message_kept_trans; eauto using add_who_message.
Qed.

Lemma unknown_word_message verb0 external_verb words qualifier0 all_livings
    all_items word (st st' : Locals) (prev : option string) :
  returns (unknown_word voc verb0 external_verb words qualifier0 all_livings
             all_items word st) (st', prev) ->
  message_kept st st'.
Proof. unfold unknown_word. intros H. by returns_inv. Qed.

Lemma step_message verb0 message_verb external_verb words qualifier0
    all_livings all_items index word0 (st st' : Locals) (n : nat) :
  collect_message st = false -> l_message st <> [] ->
  returns (step voc w player previously_parsed verb0 message_verb
             external_verb words qualifier0 all_livings all_items index
             word0 st) (st', n) ->
  message_kept st st'.
Proof.
  unfold step. intros Hc Hm H. rewrite Hc in H.
  rewrite (bool_decide_eq_true_2 _ Hm), andb_false_r in H.
  returns_inv; try done.
  all: match goal with
       | H : returns ?m _ |- message_kept _ ?s =>
           let K := fresh in
           first
             [ pose proof (add_or_discard_message _ _ _ H) as K
             | pose proof (add_who_message _ _ _ H) as K
             | pose proof (apply_who_list_message _ _ _ H) as K
             | pose proof (add_everyone_message _ _ _ H) as K
             | pose proof (unknown_word_message _ _ _ _ _ _ _ _ _ _ H) as K ];
           exact K
       end.
Qed.

Lemma walk_message verb0 message_verb external_verb words qualifier0
    all_livings all_items rest index skip (st st' : Locals) :
  collect_message st = false -> l_message st <> [] ->
  returns (walk voc w player previously_parsed verb0 message_verb
             external_verb words qualifier0 all_livings all_items rest
             index skip st) st' ->
  message_kept st st'.
Proof.
  revert index skip st.
  induction rest as [|word0 rest IH]; intros index skip st Hc Hm H;
    simpl in H.
  { by returns_inv. }
  destruct skip as [|k]; [| by eapply IH].
  returns_inv.
  match goal with H : returns (step _ _ _ _ _ _ _ _ _ _ _ _ _ _) _ |- _ =>
    apply step_message in H as [Hc' Hm']; [| done | done] end.
  eapply message_kept_trans; [split; eassumption |].
  eapply IH; [congruence | congruence | eassumption].
Qed.

(** What holds of the extraction: when the pattern matches and its group
    can be stripped, every successful parse has the stripped group as its
    message, and it is the command without the quoted span that is split
    into words ([extract_message]). *)
Lemma parse_message_from_quotes (cmd cmd1 g : string)
    (external_verbs : list string) (r : ParseResult) :
  extract_message cmd = ret ([g], cmd1) ->
  returns (parse voc w player previously_parsed cmd external_verbs) r ->
  message r = g.
Proof.
  intros He H. unfold parse in H. rewrite He in H.
  assert (Htargets : forall q u v mv ev ws,
            returns (parse_targets voc w player previously_parsed q [g] u v
                       mv ev ws) r -> message r = g).
  { intros q u v mv ev ws Ht. unfold parse_targets in Ht.
    apply returns_bind in Ht as (st & Hwalk & Ht).
    apply walk_message in Hwalk as [_ Hm]; [| done | done].
    simpl in Hm. returns_inv; simpl; by rewrite Hm. }
  unfold parse_movement in H. returns_inv; eauto.
Qed.

End Message.


(** The example of the specification: the message is the quoted text and
    only bob's name is left in [args]. *)
Lemma parse_wave_hello_there_at_bob (voc : Vocabulary) (w : World)
    (player bob : MudObject) (previously_parsed : option ParseResult)
    (external_verbs : list string) :
  plain_soul_verb voc external_verbs "wave" = true ->
  passed_over voc w (build_all_livings w) (build_all_items w)
    ["at"; "bob"] 0 "at" = true ->
  names_target voc player (build_all_livings w) (build_all_items w) "bob"
  = Some bob ->
  exists r,
    parse voc w player previously_parsed wave_hello_there_at_bob
      external_verbs = ret r
    /\ message r = "hello there" /\ args r = ["bob"]
    /\ who_order r = [bob].
Proof.
  intros Hwave Hat Hbob.
  rewrite (parse_plain_soul_verb voc w player previously_parsed
             wave_hello_there_at_bob "wave  at bob" "wave" ["hello there"]
             ["at"; "bob"] external_verbs eq_refl eq_refl Hwave).
  unfold parse_targets.
  rewrite walk_next, round_passed_over by (done || by left).
  rewrite bind_ret_l. cbn iota.
  rewrite walk_next. erewrite round_named by (done || exact Hbob).
  unfold add_or_discard. simpl.
  rewrite add_who_first by done.
  rewrite !bind_ret_l. simpl.
  eexists. split; [reflexivity |]. done.
Qed.

Example sample_wave_hello_there_at_bob :
  exists r,
    parse Sample.vocabulary Sample.room Sample.dave None
      wave_hello_there_at_bob [] = ret r
    /\ message r = "hello there" /\ args r = ["bob"]
    /\ who_order r = [Sample.bob].
Proof.
  apply (parse_wave_hello_there_at_bob Sample.vocabulary Sample.room
           Sample.dave Sample.bob None []); reflexivity.
Qed.

(** The match is greedy: it runs from the first quote to the last quote
    of the same kind on the line. *)
Example extract_message_is_greedy :
  extract_message "say 'so' and 'so on' to bob"
  = ret (["so' and 'so on"], "say  to bob").
Proof. reflexivity. Qed.

(** C5 at the input where the code leaves it: a pair of single quotes
    with nothing between them. The group [msg1] is the empty string,
    which is false, so the [or] yields the group [msg2], which is [None],
    and calling [strip] on it raises [AttributeError], whatever the
    vocabulary, the world and the actor. The same input with double
    quotes extracts the empty message and removes the span. *)
Theorem empty_single_quotes_raise (voc : Vocabulary) (w : World)
    (player : MudObject) (previously_parsed : option ParseResult)
    (external_verbs : list string) :
  parse voc w player previously_parsed "wave '' at bob" external_verbs
  = raise AttributeError
  /\ extract_message
       ("wave " +:+ String Py.DQUOTE (String Py.DQUOTE " at bob"))
     = ret ([EmptyString], "wave  at bob").
Proof.
  split; [| reflexivity].
  assert (He : extract_message "wave '' at bob" = raise AttributeError)
    by reflexivity.
  unfold parse. by rewrite He.
Qed.

(** ** The pronoun [them] (claim C6) *)

Section Them.

Context (voc : Vocabulary) (w : World).

Lemma check_them_all (pronoun : string) (matches : list MudObject) :
  Forall (reachable w) matches -> check_them voc w pronoun matches = ret tt.
Proof.
  induction 1 as [|who rest Hwho _ IH]; [done |].
  simpl. by rewrite Hwho, bind_ret_l.
Qed.

Lemma check_them_gone (pronoun : string) (pre post : list MudObject)
    (who : MudObject) :
  Forall (reachable w) pre -> gone w who ->
  check_them voc w pronoun (pre ++ who :: post)
  = ([meant_line pronoun who],
     inl (ParseError (lang_capital voc (subjective who)
                      +:+ " is no longer around."))).
Proof.
  intros Hpre Hgone.
  induction Hpre as [|x pre Hx _ IH]; simpl.
  - by rewrite Hgone, bind_ret_l.
  - by rewrite Hx, bind_ret_l.
Qed.

End Them.

(** C6, as the code has it, for the pronoun [them] and the targets of
    the previous parse: (1) at the first target that is gone, the line
    that names it is told and the resolution fails with
    "... is no longer around."; the targets after it are not looked at;
    (2) when there is at least one target and all are reachable, one line
    that lists them all is told and every target is returned with its
    name; (3) when the previous parse has no target, nothing is told and
    the resolution fails with "It is not clear who you're referring
    to.". *)
Theorem them_resolves_all_or_fails_at_first (voc : Vocabulary) (w : World)
    (prev : ParseResult) :
  (forall pre who post,
     who_order prev = pre ++ who :: post ->
     Forall (reachable w) pre -> gone w who ->
     match_previously_parsed voc w prev "them"
     = ([meant_line "them" who],
        inl (ParseError (lang_capital voc (subjective who)
                         +:+ " is no longer around."))))
  /\ (who_order prev <> [] -> Forall (reachable w) (who_order prev) ->
      match_previously_parsed voc w prev "them"
      = ([mean_all_line voc "them" (who_order prev)],
         inr ((fun who => (who, name who)) <$> who_order prev)))
  /\ (who_order prev = [] ->
      match_previously_parsed voc w prev "them"
      = raise (ParseError "It is not clear who you're referring to.")).
Proof.
  unfold match_previously_parsed. simpl. repeat split.
  - intros pre who post -> Hpre Hgone.
    by rewrite check_them_gone.
  - intros Hne Hall. rewrite check_them_all, bind_ret_l by done.
    destruct (who_order prev); [done |]. by rewrite bind_tell.
  - intros ->. simpl. by rewrite bind_ret_l.
Qed.

Lemma them_resolves_all_or_fails_at_first_witness :
  let prev :=
    mkParseResult "wave" None EmptyString None None []
      (who_info_of_order [Sample.alice; Sample.carol])
      [Sample.alice; Sample.carol] [] EmptyString in
  match_previously_parsed Sample.vocabulary Sample.room prev "them"
  = ([mean_all_line Sample.vocabulary "them" [Sample.alice; Sample.carol]],
     inr [(Sample.alice, "alice"); (Sample.carol, "carol")]).
Proof.
  intros prev.
  destruct (them_resolves_all_or_fails_at_first Sample.vocabulary
              Sample.room prev) as (_ & H & _).
  apply H; [done |]. repeat constructor.
Defined.

(** C6 as stated fails where the previous parse has no target: all of
    its targets are reachable, yet no line is told and nothing is
    returned; the resolution fails. So does the command
    [wave at them] after a bare [smile]. *)
Lemma them_after_no_target :
  Forall (reachable Sample.room) (who_order smiled)
  /\ match_previously_parsed Sample.vocabulary Sample.room smiled "them"
     = ([], inl (ParseError "It is not clear who you're referring to."))
  /\ parse Sample.vocabulary Sample.room Sample.dave None "smile" []
     = ret smiled
  /\ parse Sample.vocabulary Sample.room Sample.dave (Some smiled)
       "wave at them" []
     = ([], inl (ParseError "It is not clear who you're referring to.")).
Proof. repeat split; try reflexivity. constructor. Qed.

(** ** The memory of the previous parse (claim C3) *)

Section Memory.

Context (voc : Vocabulary).

Lemma Living_parse_memory w self st commandline external_verbs :
  __previously_parsed
    (Living_parse voc w self st commandline external_verbs).1
  = __previously_parsed st.
Proof.
  unfold Living_parse. repeat case_match; simplify_eq/=; try done.
  match goal with H : parse_line _ _ _ _ _ _ = _ |- _ =>
    apply (f_equal (fun p => __previously_parsed p.1)) in H end.
  done.
Qed.

Lemma parse_line_staged w self st commandline external_verbs :
  parsed_by_soul voc (_previous_parse st) ->
  parsed_by_soul voc
    (_previous_parse (parse_line voc w self st commandline external_verbs).1).
Proof.
  intros Hst. unfold parse_line. simpl.
  destruct (outcome (parse voc w self (__previously_parsed st) commandline
                       external_verbs)) as [e|parsed] eqn:Hp; [done |].
  simpl. by exists w, self, (__previously_parsed st), commandline,
    external_verbs.
Qed.

Lemma Living_parse_staged w self st commandline external_verbs :
  parsed_by_soul voc (_previous_parse st) ->
  parsed_by_soul voc
    (_previous_parse
       (Living_parse voc w self st commandline external_verbs).1).
Proof.
  intros Hst. unfold Living_parse. repeat case_match; simplify_eq/=; try done.
  - match goal with H : parse_line _ _ _ _ ?c _ = _ |- _ =>
      pose proof (parse_line_staged w self st c external_verbs Hst) as K;
      by rewrite H in K end.
  - by apply parse_line_staged.
Qed.

Lemma reached_slots (st : LivingState) :
  reached voc st ->
  parsed_by_soul voc (__previously_parsed st)
  /\ parsed_by_soul voc (_previous_parse st).
Proof.
  induction 1 as [|w self st commandline external_verbs _ [IH1 IH2]
                  |st _ [IH1 IH2]].
  - done.
  - split; [by rewrite Living_parse_memory | by apply Living_parse_staged].
  - done.
Qed.

End Memory.



(** ** Repeating the previous command (claim C10) *)

(** [Living.parse] never stores the word [again] as the previous
    command line. *)
Lemma reached_not_again (voc : Vocabulary) (st : LivingState) :
  reached voc st -> previous_commandline st <> Some "again".
Proof.
  induction 1 as [|w self st commandline external_verbs _ IH|st _ IH];
    [done | | done].
  unfold Living_parse.
  destruct (String.eqb_spec commandline "again") as [->|Hne].
  - destruct (truthy (previous_commandline st)) eqn:Ht; [| done].
    destruct (parse_line voc w self st _ external_verbs) eqn:Hp.
    apply (f_equal (fun p => previous_commandline p.1)) in Hp.
    simpl in Hp |- *. rewrite <- Hp.
    destruct (previous_commandline st); [simpl; congruence | done].
  - simpl. congruence.
Qed.




(** ** Replacing one placeholder keeps another *)

Lemma prefix_nil (s : string) : String.prefix EmptyString s = true.
Proof. by destruct s. Qed.

Lemma prefix_cons (a b : ascii) (s t : string) :
  String.prefix (String a s) (String b t) = true
  <-> a = b /\ String.prefix s t = true.
Proof.
  simpl. destruct (ascii_dec a b) as [e|n];
    (split; [intros H | intros [Hab H]]); done.
Qed.

Lemma prefix_drop (p s : string) (j : nat) :
  String.prefix p s = true ->
  String.prefix (Py.drop j p) (Py.drop j s) = true.
Proof.
  revert p s. induction j as [|j IH]; intros p s H; [by simpl |].
  destruct p as [|a p]; [simpl; apply prefix_nil |].
  destruct s as [|b s]; [by simpl in H |].
  apply prefix_cons in H as [_ H]. simpl. by apply IH.
Qed.

Lemma prefixes_compat (a b s : string) :
  String.prefix a s = true -> String.prefix b s = true -> compat a b = true.
Proof.
  unfold compat. revert b s. induction a as [|x a IH]; intros b s Ha Hb.
  { by rewrite prefix_nil. }
  destruct b as [|y b]; [by rewrite prefix_nil, orb_true_r |].
  destruct s as [|z s]; [by simpl in Ha |].
  apply prefix_cons in Ha as [-> Ha]. apply prefix_cons in Hb as [-> Hb].
  specialize (IH b s Ha Hb). apply orb_true_iff in IH.
  apply orb_true_iff.
  destruct IH as [IH|IH]; [left | right]; by apply prefix_cons.
Qed.

Lemma contains_occurs (p s : string) :
  Py.contains p s = true
  <-> exists i, i <= String.length s
                /\ String.prefix p (Py.drop i s) = true.
Proof.
  induction s as [|c s IH]; simpl.
  - rewrite orb_false_r. split.
    + intros H. exists 0. done.
    + intros (i & _ & H). by destruct i.
  - rewrite orb_true_iff, IH. split.
    + intros [H | (i & Hi & H)]; [by exists 0; split; [lia |] |].
      exists (S i). split; [lia | done].
    + intros ([|i] & Hi & H); [by left |].
      right. exists i. split; [lia | done].
Qed.

Lemma drop_drop (i j : nat) (s : string) :
  Py.drop i (Py.drop j s) = Py.drop (j + i) s.
Proof.
  revert s. induction j as [|j IH]; intros s; [done |].
  destruct s as [|c s]; simpl; [by destruct i | apply IH].
Qed.

Lemma drop_length (j : nat) (s : string) :
  String.length (Py.drop j s) = String.length s - j.
Proof.
  revert s. induction j as [|j IH]; intros s; simpl; [lia |].
  destruct s as [|c s]; simpl; [done | apply IH].
Qed.

Lemma contains_app_r (p a b : string) :
  Py.contains p b = true -> Py.contains p (a +:+ b) = true.
Proof.
  intros H. induction a as [|c a IH]; [done |].
  rewrite append_cons. simpl. by rewrite IH, orb_true_r.
Qed.

Section Keep.

Context (old new p : string).
Hypothesis Hclash : no_clash old p = true.

Lemma clash_inside_old (i : nat) :
  i < String.length old -> compat (Py.drop i old) p = false.
Proof.
  intros Hi. unfold no_clash in Hclash.
  apply andb_true_iff in Hclash as [H _].
  apply andb_true_iff in H as [_ H].
  rewrite forallb_forall in H. apply negb_true_iff, H.
  apply in_seq. lia.
Qed.

Lemma clash_inside_p (j : nat) :
  1 <= j < String.length p -> compat (Py.drop j p) old = false.
Proof.
  intros Hj. unfold no_clash in Hclash.
  apply andb_true_iff in Hclash as [_ H].
  rewrite forallb_forall in H. apply negb_true_iff, H.
  apply in_seq. lia.
Qed.

(** An occurrence of [p] in a string that starts with [old] lies after
    that occurrence of [old]. *)
Lemma contains_after_old (s : string) :
  String.prefix old s = true -> Py.contains p s = true ->
  Py.contains p (Py.drop (String.length old) s) = true.
Proof.
  intros Hold Hp. apply contains_occurs in Hp as (i & Hi & Hp).
  destruct (decide (i < String.length old)) as [Hlt|Hge].
  - pose proof (prefixes_compat _ _ _ (prefix_drop old s i Hold) Hp) as Hc.
    by rewrite clash_inside_old in Hc.
  - apply contains_occurs. exists (i - String.length old).
    rewrite drop_drop, drop_length.
    replace (String.length old + (i - String.length old)) with i by lia.
    split; [lia | done].
Qed.

(** The characters of an occurrence of [p] are copied when no
    occurrence of [old] starts among them. *)
Lemma prefix_replace_from (q s : string) :
  String.prefix q s = true ->
  (forall j, j < String.length q ->
     String.prefix old (Py.drop j s) = false) ->
  String.prefix q (Py.replace_from 0 old new s) = true.
Proof.
  revert s. induction q as [|a q IH]; intros s Hq Hno; [apply prefix_nil |].
  destruct s as [|b s]; [by simpl in Hq |].
  apply prefix_cons in Hq as [-> Hq].
  change (Py.replace_from 0 old new (String b s))
    with (if String.prefix old (String b s)
          then new +:+ Py.replace_from (String.length old - 1) old new s
          else String b (Py.replace_from 0 old new s)).
  pose proof (Hno 0 ltac:(simpl; lia)) as H0.
  change (Py.drop 0 (String b s)) with (String b s) in H0. rewrite H0.
  apply prefix_cons. split; [done |].
  apply IH; [done |]. intros j Hj. apply (Hno (S j)). simpl. lia.
Qed.

Lemma replace_from_keeps (s : string) (skip : nat) :
  Py.contains p (Py.drop skip s) = true ->
  Py.contains p (Py.replace_from skip old new s) = true.
Proof.
  revert skip. induction s as [|c s IH]; intros skip H.
  { by destruct skip. }
  destruct skip as [|k]; [| by apply IH].
  change (Py.replace_from 0 old new (String c s))
    with (if String.prefix old (String c s)
          then new +:+ Py.replace_from (String.length old - 1) old new s
          else String c (Py.replace_from 0 old new s)).
  change (Py.drop 0 (String c s)) with (String c s) in H.
  destruct (String.prefix old (String c s)) eqn:Hold.
  - apply contains_app_r, IH.
    pose proof (contains_after_old _ Hold H) as Hafter.
    destruct old as [|o old'].
    { unfold no_clash in Hclash. by simpl in Hclash. }
    simpl in Hafter |- *. by rewrite Nat.sub_0_r.
  - simpl in H. apply orb_true_iff in H as [H|H].
    + assert (Hkeep : String.prefix p (Py.replace_from 0 old new (String c s))
                      = true).
      { apply prefix_replace_from; [done |]. intros j Hj.
        destruct j as [|j]; [done |].
        destruct (String.prefix old (Py.drop (S j) (String c s))) eqn:Hj';
          [| done].
        pose proof (prefixes_compat _ _ _
                      (prefix_drop p (String c s) (S j) H) Hj') as Hc.
        rewrite clash_inside_p in Hc by lia. done. }
      change (Py.replace_from 0 old new (String c s))
        with (if String.prefix old (String c s)
              then new +:+ Py.replace_from (String.length old - 1) old new s
              else String c (Py.replace_from 0 old new s)) in Hkeep.
      rewrite Hold in Hkeep.
      destruct p; simpl in *; [done |]. by rewrite Hkeep.
    + simpl. rewrite (IH 0 H). by rewrite orb_true_r.
Qed.

Lemma replace_keeps (s : string) :
  Py.contains p s = true -> Py.contains p (Py.replace s old new) = true.
Proof. intros H. by apply replace_from_keeps. Qed.

End Keep.
Lemma contains_app_l (p a b : string) :
  Py.contains p a = true -> Py.contains p (a +:+ b) = true.
Proof.
  assert (Hpre : forall q x y, String.prefix q x = true ->
                   String.prefix q (x +:+ y) = true).
  { induction q as [|c q IH]; intros x y H; [apply prefix_nil |].
    destruct x as [|d x]; [by simpl in H |].
    apply prefix_cons in H as [-> H]. rewrite append_cons.
    apply prefix_cons. split; [done | by apply IH]. }
  induction a as [|c a IH]; intros H.
  - simpl in H. rewrite orb_false_r in H.
    destruct p; [| by simpl in H].
    assert (Py.contains EmptyString (EmptyString +:+ b) = true) as ->; [| done].
    destruct b; simpl; by rewrite ?prefix_nil.
  - rewrite append_cons. simpl in H |- *.
    apply orb_true_iff in H as [H|H].
    + pose proof (Hpre p (String c a) b H) as K. rewrite append_cons in K.
      simpl in K. by rewrite K.
    + by rewrite IH, orb_true_r.
Qed.

Lemma contains_lstrip (f : ascii -> bool) (c : ascii) (q s : string) :
  f c = false -> Py.contains (String c q) s = true ->
  Py.contains (String c q) (Py.lstrip_with f s) = true.
Proof.
  intros Hc. induction s as [|a s IH]; intros H; [done |].
  simpl. destruct (f a) eqn:Ha; [| done].
  apply IH. simpl in H. apply orb_true_iff in H as [H|H]; [| done].
  destruct (ascii_dec c a) as [->|]; [congruence | done].
Qed.

Lemma contains_spacify (c : ascii) (q s : string) :
  Ascii.eqb c " " || Ascii.eqb c Py.TAB = false ->
  Py.contains (String c q) s = true ->
  Py.contains (String c q) (spacify s) = true.
Proof.
  intros Hc H. unfold spacify.
  destruct s as [|a s]; [by simpl in H |].
  cbn [Py.nonempty]. unfold sp.
  change (String " " ?x) with (" " +:+ x).
  apply contains_app_r. by apply contains_lstrip.
Qed.

(** ** A verb that needs a person (claim C7) *)

Lemma check_person_placeholder (action : string) :
  Py.contains nWHO action || Py.contains nPOSS action = true ->
  check_person action [] = false.
Proof. intros H. simpl. by rewrite H. Qed.

(** With [\nWHO] or [\nPOSS] in it, an action still has it once the AT
    clause has been removed. *)
Lemma placeholder_after_at (action0 : string) :
  Py.contains nWHO action0 || Py.contains nPOSS action0 = true ->
  check_person (Py.replace action0 (sp nAT) EmptyString) [] = false.
Proof.
  intros H. apply check_person_placeholder.
  apply orb_true_iff in H as [H|H]; apply orb_true_iff; [left | right];
    by apply replace_keeps.
Qed.




(** * Properties of the rest of the parser and of the world around it *)

(** ** Invariants of the token walk

    A property of [who_info], [who_order] and [who_sequence] that holds
    at the start, that adding an admissible target and removing a target
    keep, and that holds of the empty state, holds when the walk
    returns. The admissible targets are those the walk can find. *)

Lemma dict_get_elem_of {V} (d : dict V) (k : string) (v : V) :
  dict_get d k = Some v -> v ∈ d.*2.
Proof.
  induction d as [|[k' v'] d IH]; simpl; [done |].
  destruct (String.eqb k' k); intros H; simplify_eq;
    [apply elem_of_cons; by left | apply elem_of_cons; right; by apply IH].
Qed.

Lemma dict_set_values {V} (d : dict V) (k : string) (v x : V) :
  x ∈ (dict_set d k v).*2 -> x = v \/ x ∈ d.*2.
Proof.
  induction d as [|[k' v'] d IH]; simpl.
  - rewrite elem_of_cons, elem_of_nil. tauto.
  - destruct (String.eqb k' k); simpl; rewrite !elem_of_cons; [tauto |].
    intros [->|H]; [tauto |]. apply IH in H. tauto.
Qed.

Lemma add_names_values (d : dict MudObject) (o x : MudObject) :
  x ∈ (add_names d o).*2 -> x = o \/ x ∈ d.*2.
Proof.
  unfold add_names.
  assert (forall als d', (x ∈ d'.*2 -> x = o \/ x ∈ d.*2) ->
            x ∈ (fold_left (fun d0 alias => dict_set d0 alias o) als d').*2 ->
            x = o \/ x ∈ d.*2) as H.
  { induction als as [|a als IH]; intros d' Hd'; simpl; [done |].
    apply IH. intros Hx. apply dict_set_values in Hx. tauto. }
  apply H. intros Hx. apply dict_set_values in Hx. tauto.
Qed.

Lemma fold_add_names_values (l : list MudObject) (d : dict MudObject)
    (x : MudObject) :
  x ∈ (fold_left add_names l d).*2 -> x ∈ l \/ x ∈ d.*2.
Proof.
  revert d. induction l as [|o l IH]; intros d; simpl; [tauto |].
  intros H. apply IH in H as [H|H]; [left; by apply elem_of_cons; right |].
  apply add_names_values in H as [->|H]; [left; apply elem_of_cons; by left |].
  by right.
Qed.

Lemma build_all_livings_values (w : World) (k : string) (x : MudObject) :
  dict_get (build_all_livings w) k = Some x -> x ∈ livings w.
Proof.
  intros H. apply dict_get_elem_of, fold_add_names_values in H as [H|H];
    [done |]. by apply elem_of_nil in H.
Qed.

Lemma build_all_items_values (w : World) (k : string) (x : MudObject) :
  dict_get (build_all_items w) k = Some x -> x ∈ items w \/ x ∈ inventory w.
Proof.
  intros H. apply dict_get_elem_of, fold_add_names_values in H as [H|H];
    [by right |].
  apply fold_add_names_values in H as [H|H]; [by left |].
  by apply elem_of_nil in H.
Qed.

Lemma check_name_loop_value {V} (fuel : nat) (words : list string)
    (index : nat) (all_livings all_items : dict V) (wordcount : nat)
    (name0 : string) (o : V) (found : string) (k : nat) :
  check_name_loop fuel words index all_livings all_items wordcount name0
  = Some (o, found, k) ->
  dict_get all_livings found = Some o \/ dict_get all_items found = Some o.
Proof.
  revert wordcount name0. induction fuel as [|fuel IH];
    intros wordcount name0 H; simpl in H; [done |].
  destruct (wordcount <? 6); [| done].
  destruct (dict_get all_livings name0) eqn:Hl; [simplify_eq; by left |].
  destruct (dict_get all_items name0) eqn:Hi; [simplify_eq; by right |].
  destruct (words !! (index + wordcount)); [| done]. by eapply IH.
Qed.

Lemma check_name_with_spaces_value {V} (words : list string) (index : nat)
    (all_livings all_items : dict V) (o : V) (found : string) (k : nat) :
  returns (check_name_with_spaces words index all_livings all_items)
    (Some (o, found, k)) ->
  dict_get all_livings found = Some o \/ dict_get all_items found = Some o.
Proof.
  unfold check_name_with_spaces. intros H. returns_inv.
  by eapply check_name_loop_value.
Qed.

Section Previous.

Context (voc : Vocabulary).

Lemma match_single_from_order (w : World) (pronoun : string)
    (order : list MudObject) (who_list : list (MudObject * string)) :
  returns (match_single voc w pronoun order) who_list ->
  forall x, x ∈ who_list.*1 -> x ∈ order.
Proof.
  induction order as [|who rest IH]; intros H x Hx; simpl in H;
    returns_inv.
  - simpl in Hx. apply list_elem_of_singleton in Hx as ->.
    apply elem_of_cons; by left.
  - simpl in Hx. apply list_elem_of_singleton in Hx as ->.
    apply elem_of_cons; by left.
  - apply elem_of_cons; right. by apply IH.
Qed.

Lemma match_previously_parsed_from_order (w : World) (prev : ParseResult)
    (pronoun : string) (who_list : list (MudObject * string)) :
  returns (match_previously_parsed voc w prev pronoun) who_list ->
  forall x, x ∈ who_list.*1 -> x ∈ who_order prev.
Proof.
  unfold match_previously_parsed. intros H x Hx.
  destruct (String.eqb pronoun "them");
    [| by eapply match_single_from_order].
  apply returns_bind in H as (_ & _ & H).
  destruct (who_order prev) as [|y l]; [by returns_inv |].
  returns_inv. rewrite <- list_fmap_compose in Hx.
  by apply list_elem_of_fmap in Hx as (z & -> & Hz).
Qed.

End Previous.

Section WalkInvariant.

Context (voc : Vocabulary) (w : World) (player : MudObject)
        (previously_parsed : option ParseResult).
Context (Q : MudObject -> Prop)
        (P : WhoDict -> list MudObject -> nat -> Prop).

Hypothesis P_add : forall x d o n p d',
  Q x -> wd_assign d x n p = Some d' -> P d o n -> P d' (o ++ [x]) (n + 1).
Hypothesis P_remove : forall x d o n d' o',
  wd_del d x = Some d' -> list_remove x o = Some o' -> P d o n -> P d' o' n.
Hypothesis P_reset : P wd_empty_plain [] 0.

Hypothesis Q_scene : forall x, in_scene w player previously_parsed x -> Q x.

Local Abbreviation inv := (holds_of_targets P).

Lemma add_who_inv (x : MudObject) (st st' : Locals) :
  Q x -> returns (add_who x st) st' -> inv st -> inv st'.
Proof.
  unfold add_who, holds_of_targets. intros Hx H Hok. returns_inv. simpl.
  by eapply P_add.
Qed.

Lemma remove_who_inv (x : MudObject) (st st' : Locals) :
  returns (remove_who x st) st' -> inv st -> inv st'.
Proof.
  unfold remove_who, holds_of_targets. intros H Hok. returns_inv. simpl.
  by eapply P_remove.
Qed.

Lemma add_or_discard_inv (x : MudObject) (st st' : Locals) :
  Q x -> returns (add_or_discard x st) st' -> inv st -> inv st'.
Proof.
  unfold add_or_discard. intros Hx H Hok.
  repeat case_match; eauto using add_who_inv, remove_who_inv.
  by returns_inv.
Qed.

Lemma apply_who_list_inv (who_list : list (MudObject * string))
    (st st' : Locals) :
  (forall x, x ∈ who_list.*1 -> Q x) ->
  returns (apply_who_list who_list st) st' -> inv st -> inv st'.
Proof.
  revert st. induction who_list as [|[who n] rest IH]; intros st HQ H Hok;
    simpl in H; returns_inv; [done | |].
  all: eapply IH; [| eassumption |];
    [intros x Hx; apply HQ; simpl; apply elem_of_cons; by right |].
  all: change (inv a).
  - eapply add_who_inv; [| eassumption | done].
    apply HQ. simpl. apply elem_of_cons; by left.
  - by eapply remove_who_inv.
Qed.

Lemma add_everyone_inv (ls : list MudObject) (st st' : Locals) :
  (forall x, x ∈ ls -> Q x) ->
  returns (add_everyone player ls st) st' -> inv st -> inv st'.
Proof.
  revert st. induction ls as [|living rest IH]; intros st HQ H Hok;
    simpl in H; returns_inv; [done | |].
  - eapply IH; [| eassumption | done].
    intros x Hx. apply HQ, elem_of_cons. by right.
  - eapply IH; [| eassumption |].
    + intros x Hx. apply HQ, elem_of_cons. by right.
    + eapply add_who_inv; [| eassumption | done].
      apply HQ, elem_of_cons. by left.
Qed.

Lemma unknown_word_inv verb0 external_verb words qualifier0 all_livings
    all_items word (st st' : Locals) (prev : option string) :
  returns (unknown_word voc verb0 external_verb words qualifier0 all_livings
             all_items word st) (st', prev) ->
  inv st -> inv st'.
Proof. unfold unknown_word. intros H Hok. returns_inv; done. Qed.

Context (all_livings all_items : dict MudObject).
Hypothesis livings_scene : forall k x,
  dict_get all_livings k = Some x -> Q x.
Hypothesis items_scene : forall k x,
  dict_get all_items k = Some x -> Q x.

Lemma step_inv verb0 message_verb external_verb words qualifier0
    index word0 (st st' : Locals) (n : nat) :
  returns (step voc w player previously_parsed verb0 message_verb
             external_verb words qualifier0 all_livings all_items index
             word0 st) (st', n) ->
  inv st -> inv st'.
Proof.
  assert (Hplayer : Q player) by (apply Q_scene; by left).
  assert (Hexit : forall k x, dict_get (exits w) k = Some x -> Q x).
  { intros k x Hx. apply Q_scene. do 4 right. left.
    by eapply dict_get_elem_of. }
  unfold step. intros H Hok. returns_inv; try done.
  all: unfold holds_of_targets; simpl;
    try match goal with
        | |- P (l_who_info ?a) (l_who_order ?a) (who_sequence ?a) =>
            change (inv a)
        end.
  all: eauto using add_or_discard_inv, unknown_word_inv.
  - eapply apply_who_list_inv; [| eassumption | done].
    intros x Hx. apply Q_scene. do 5 right. eexists. split; [done |].
    by eapply match_previously_parsed_from_order.
  - eapply add_everyone_inv; [| eassumption | done].
    intros x Hx. apply Q_scene. right. by left.
  - eapply add_who_inv; [| eassumption | done].
    match goal with H : returns (check_name_with_spaces _ _ (exits w) _) _
                    |- _ =>
      apply check_name_with_spaces_value in H as [H|H]; [eauto | done] end.
  - eapply add_or_discard_inv; [| eassumption | done].
    match goal with H : returns (check_name_with_spaces _ _ all_livings _) _
                    |- _ =>
      apply check_name_with_spaces_value in H as [H|H]; eauto end.
Qed.

Lemma walk_inv verb0 message_verb external_verb words qualifier0
    rest index skip (st st' : Locals) :
  returns (walk voc w player previously_parsed verb0 message_verb
             external_verb words qualifier0 all_livings all_items rest
             index skip st) st' ->
  inv st -> inv st'.
Proof.
  revert index skip st.
  induction rest as [|word0 rest IH]; intros index skip st H Hok; simpl in H.
  { by returns_inv. }
  destruct skip as [|k]; [| by eapply IH].
  returns_inv. eapply IH; [eassumption |]. by eapply step_inv.
Qed.

End WalkInvariant.

Section ParseInvariant.

Context (voc : Vocabulary) (w : World) (player : MudObject)
        (previously_parsed : option ParseResult).
Context (Q : MudObject -> Prop)
        (P : WhoDict -> list MudObject -> nat -> Prop).

Hypothesis P_add : forall x d o n p d',
  Q x -> wd_assign d x n p = Some d' -> P d o n -> P d' (o ++ [x]) (n + 1).
Hypothesis P_remove : forall x d o n d' o',
  wd_del d x = Some d' -> list_remove x o = Some o' -> P d o n -> P d' o' n.
Hypothesis P_reset : P wd_empty_plain [] 0.
Hypothesis P_start : P wd_empty_default [] 0.
Hypothesis Q_scene : forall x, in_scene w player previously_parsed x -> Q x.

Lemma parse_targets_inv qualifier0 message0 unparsed0 verb0 message_verb
    external_verb words (r : ParseResult) :
  returns (parse_targets voc w player previously_parsed qualifier0 message0
             unparsed0 verb0 message_verb external_verb words) r ->
  exists n, P (who_info r) (who_order r) n.
Proof.
  unfold parse_targets. intros H.
  apply returns_bind in H as (st & Hwalk & H).
  assert (Hok : holds_of_targets P st).
  { eapply (walk_inv voc w player previously_parsed Q P); try eassumption.
    - intros k x Hx. apply Q_scene. right. left.
      by eapply build_all_livings_values.
    - intros k x Hx. apply Q_scene.
      apply build_all_items_values in Hx as [Hx|Hx]; unfold in_scene; tauto. }
  unfold holds_of_targets in Hok. returns_inv; simpl; eauto.
Qed.

Lemma parse_inv (cmd : string) (external_verbs : list string)
    (r : ParseResult) :
  returns (parse voc w player previously_parsed cmd external_verbs) r ->
  exists n, P (who_info r) (who_order r) n.
Proof.
  unfold parse, parse_movement. intros H.
  returns_inv; eauto using parse_targets_inv.
Qed.

End ParseInvariant.

(** Whenever [Soul.parse] returns, every object in [who_order] and every
    key of [who_info] is the actor, a living, item or exit of the actor's
    location, an item the actor carries, or a target of the remembered
    parse. *)
Theorem parse_targets_are_in_scene (voc : Vocabulary) (w : World)
    (player : MudObject) (previously_parsed : option ParseResult)
    (cmd : string) (external_verbs : list string) (r : ParseResult) :
  returns (parse voc w player previously_parsed cmd external_verbs) r ->
  targets_all (in_scene w player previously_parsed) (who_info r)
    (who_order r).
Proof.
  intros H.
  set (Q := in_scene w player previously_parsed).
  assert (Hempty : forall b, targets_all Q (mkWhoDict b ∅) []).
  { intros b. split; [done |]. intros k x i Hk. simpl in Hk.
    by rewrite lookup_empty in Hk. }
  destruct (parse_inv voc w player previously_parsed Q
              (fun d o _ => targets_all Q d o)) with (6 := H) as [_ Hr];
    try done.
  - intros x d o n p d' Hx Hd [Ho Hk]. split.
    + apply Forall_app. split; [done |]. by apply Forall_singleton.
    + intros k y i Hy. unfold wd_assign in Hd.
      destruct (wd_map d !! oid x) as [[k0 i0]|] eqn:Hold;
        [| destruct (wd_default d)]; simplify_eq; simpl in Hy.
      all: destruct (decide (k = oid x)) as [->|Hne];
        [rewrite lookup_insert_eq in Hy; simplify_eq; eauto
        | rewrite lookup_insert_ne in Hy by done; eauto].
  - intros x d o n d' o' Hd Ho [Hall Hk]. split.
    + clear Hd. revert o' Ho. induction Hall as [|y l Hy Hl IH];
        intros o' Ho; simpl in Ho; [done |].
      destruct (obj_is y x); [by simplify_eq |].
      destruct (list_remove x l); simplify_eq.
      apply Forall_cons. split; [done | by apply IH].
    + intros k y i Hy. erewrite wd_del_lookup in Hy by eassumption.
      apply lookup_delete_Some in Hy as [_ Hy]. eauto.
Qed.

Lemma parse_targets_are_in_scene_witness :
  exists r,
    returns (parse Sample.vocabulary Sample.room Sample.dave None
               "wave at alice and north" []) r
    /\ who_order r = [Sample.alice; Sample.north]
    /\ targets_all (in_scene Sample.room Sample.dave None) (who_info r)
         (who_order r).
Proof.
  eexists. split; [vm_compute; reflexivity |]. split; [reflexivity |].
  apply (parse_targets_are_in_scene Sample.vocabulary Sample.room
           Sample.dave None "wave at alice and north" []).
  vm_compute. reflexivity.
Defined.

(** Whenever [Soul.parse] returns, no two entries of [who_info] carry
    the same sequence number. *)
Theorem parse_sequence_numbers_distinct (voc : Vocabulary) (w : World)
    (player : MudObject) (previously_parsed : option ParseResult)
    (cmd : string) (external_verbs : list string) (r : ParseResult) :
  returns (parse voc w player previously_parsed cmd external_verbs) r ->
  sequences_distinct (who_info r).
Proof.
  intros H.
  assert (Hempty : forall b, sequences_below (mkWhoDict b ∅) 0).
  { intros b. split; intros k; intros; simpl in *;
      by rewrite lookup_empty in *. }
  destruct (parse_inv voc w player previously_parsed (fun _ => True)
              (fun d _ n => sequences_below d n)) with (6 := H)
    as [n [_ Hr]]; try done.
  - intros x d o n p d' _ Hd [Hlt Hinj].
    assert (Hnew : exists y, wd_map d' = <[oid x := (y, mkWhoInfo n p)]> (wd_map d)).
    { unfold wd_assign in Hd.
      destruct (wd_map d !! oid x) as [[k0 i0]|];
        [| destruct (wd_default d)]; simplify_eq; simpl; eauto. }
    destruct Hnew as [y Hnew]. unfold sequences_below. rewrite Hnew.
    split.
    + intros k e He. destruct (decide (k = oid x)) as [->|Hne].
      * rewrite lookup_insert_eq in He. simplify_eq. simpl. lia.
      * rewrite lookup_insert_ne in He by done.
        apply Hlt in He. lia.
    + intros k k' e e' He He' Hs.
      destruct (decide (k = oid x)) as [->|Hne];
        destruct (decide (k' = oid x)) as [->|Hne']; [done | | |].
      * rewrite lookup_insert_eq in He. rewrite lookup_insert_ne in He' by done.
        simplify_eq. simpl in Hs. apply Hlt in He'. lia.
      * rewrite lookup_insert_eq in He'. rewrite lookup_insert_ne in He by done.
        simplify_eq. simpl in Hs. apply Hlt in He. lia.
      * rewrite lookup_insert_ne in He, He' by done. eauto.
  - intros x d o n d' o' Hd _ [Hlt Hinj].
    unfold sequences_below. erewrite wd_del_lookup by eassumption.
    split.
    + intros k e He. apply lookup_delete_Some in He as [_ He]. eauto.
    + intros k k' e e' He He' Hs.
      apply lookup_delete_Some in He as [_ He].
      apply lookup_delete_Some in He' as [_ He']. eauto.
Qed.

Lemma parse_sequence_numbers_distinct_witness :
  exists r,
    returns (parse Sample.vocabulary Sample.room Sample.dave None
               "wave alice alice bob bob except bob" []) r
    /\ sequences_distinct (who_info r).
Proof.
  eexists. split; [vm_compute; reflexivity |].
  apply (parse_sequence_numbers_distinct Sample.vocabulary Sample.room
           Sample.dave None "wave alice alice bob bob except bob" []).
  vm_compute. reflexivity.
Defined.

(** ** The message of a message verb *)

Section Collect.

Context (voc : Vocabulary) (w : World) (player : MudObject)
        (previously_parsed : option ParseResult).
Context (verb0 : option string) (message_verb external_verb : bool)
        (words : list string) (qualifier0 : option string)
        (all_livings all_items : dict MudObject).

(** Once the walk collects the message, every further word goes into the
    message and into the arguments as it is. *)
Lemma walk_collects (rest : list string) (index : nat) (st : Locals) :
  collect_message st = true ->
  walk voc w player previously_parsed verb0 message_verb external_verb words
    qualifier0 all_livings all_items rest index 0 st
  = ret (collected st rest).
Proof.
  revert index st. induction rest as [|word0 rest IH]; intros index st Hc.
  - simpl. unfold collected. simpl. rewrite !app_nil_r.
    by destruct st.
  - rewrite walk_next. unfold step. rewrite Hc, bind_ret_l.
    rewrite IH by done. f_equal. unfold collected. simpl.
    rewrite <- !app_assoc. simpl. f_equal.
    rewrite last_cons. by destruct (last rest).
Qed.

(** A word that names nothing starts the message of a message verb. *)
Lemma round_starts_message (index : nat) (word0 : string) (st : Locals) :
  collect_message st = false -> message_verb = true -> l_message st = [] ->
  names_nothing voc w all_livings all_items words index word0 = true ->
  step voc w player previously_parsed verb0 message_verb external_verb words
    qualifier0 all_livings all_items index word0 st
  = ret (push_arg (push_message (set_collect_message st true) word0) word0,
         0).
Proof.
  intros Hc -> Hm Hn. unfold step. rewrite Hc.
  change (current_word true st word0) with word0.
  unfold names_nothing in Hn. rewrite andb_true_iff in Hn.
  destruct Hn as [Ho Hn].
  apply ordinary_inv in Ho as (-> & -> & -> & -> & -> & -> & ->).
  destruct (dict_get all_livings word0); [done |].
  destruct (dict_get all_items word0); [done |].
  destruct (check_name_with_spaces words index (exits w) [])
    as [[|] [|[|]]]; try done.
  destruct (check_name_with_spaces words index all_livings all_items)
    as [[|] [|[|]]]; try done.
  by rewrite Hm.
Qed.

End Collect.

Lemma parse_message_soul_verb (voc : Vocabulary) (w : World)
    (player : MudObject) (previously_parsed : option ParseResult)
    (cmd cmd1 v : string) (message0 ws : list string)
    (external_verbs : list string) :
  extract_message cmd = ret (message0, cmd1) ->
  Py.split cmd1 = v :: ws ->
  message_soul_verb voc external_verbs v = true ->
  parse voc w player previously_parsed cmd external_verbs
  = parse_targets voc w player previously_parsed None message0 cmd (Some v)
      true false ws.
Proof.
  intros He Hs Hv. unfold parse. rewrite He, bind_ret_l.
  destruct cmd1 as [|c cmd1]; [done |].
  cbn [Py.nonempty negb]. rewrite Hs.
  unfold message_soul_verb in Hv.
  rewrite !andb_true_iff, !negb_true_iff in Hv.
  destruct Hv as [[[Hq Hk] Hx] Hd].
  rewrite Hq. cbn [tail]. rewrite Hk, Hx.
  destruct (dict_get (VERBS voc) v) as [vd|]; [| done].
  destruct (verbdata_at vd 2) as [t|]; [| done].
  by rewrite Hd.
Qed.

(** For a verb whose template takes a message, in a command without a
    quoted part: when the word after the verb names nothing, that word
    and all the words after it are the message, joined by single spaces,
    and the arguments; none of them is looked up, so the result has no
    target, adverb or body part. *)
Theorem message_verb_takes_the_rest (voc : Vocabulary) (w : World)
    (player : MudObject) (previously_parsed : option ParseResult)
    (cmd v x : string) (rest : list string) (external_verbs : list string) :
  extract_message cmd = ret ([], cmd) ->
  Py.split cmd = v :: x :: rest ->
  message_soul_verb voc external_verbs v = true ->
  names_nothing voc w (build_all_livings w) (build_all_items w) (x :: rest)
    0 x = true ->
  exists r,
    parse voc w player previously_parsed cmd external_verbs = ret r
    /\ verb r = v
    /\ message r = Py.join " " (x :: rest)
    /\ args r = x :: rest
    /\ who_order r = [] /\ wd_map (who_info r) = ∅
    /\ adverb r = None /\ bodypart r = None.
Proof.
  intros He Hs Hv Hx.
  rewrite (parse_message_soul_verb voc w player previously_parsed cmd cmd v
             [] (x :: rest) external_verbs He Hs Hv).
  unfold parse_targets. rewrite walk_next.
  rewrite round_starts_message by done.
  rewrite bind_ret_l. cbn iota. rewrite walk_collects by done.
  rewrite bind_ret_l.
  assert (Hv' : truthy (Some v) = true).
  { destruct v; [| done].
    assert (Hsplit : forall cur s, In EmptyString (Py.split_from cur s) ->
              False).
    { intros cur s. revert cur. induction s as [|c s IH]; intros cur; simpl.
      - destruct cur; simpl; [tauto | intros [|[]]; done].
      - destruct (Py.isspace c).
        + destruct cur; simpl; [apply IH |].
          intros [|H]; [done | by apply IH in H].
        + apply IH. }
    exfalso. apply (Hsplit EmptyString cmd). unfold Py.split in Hs.
    rewrite Hs. by left. }
  rewrite Hv', bind_ret_l. eexists. split; [reflexivity |]. done.
Qed.

Lemma message_verb_takes_the_rest_witness :
  exists r,
    parse Sample.vocabulary Sample.room Sample.dave None
      "say to bob hello" [] = ret r
    /\ verb r = "say"
    /\ message r = Py.join " " ["to"; "bob"; "hello"]
    /\ args r = ["to"; "bob"; "hello"]
    /\ who_order r = [] /\ wd_map (who_info r) = ∅
    /\ adverb r = None /\ bodypart r = None.
Proof.
  apply (message_verb_takes_the_rest Sample.vocabulary Sample.room
           Sample.dave None "say to bob hello" "say" "to" ["bob"; "hello"]
           []); reflexivity.
Defined.

(** ** A command of whitespace only *)

Lemma blank_no_quote (i : nat) (s : string) :
  blank s = true -> quoted_search_from i s = None.
Proof.
  revert i. induction s as [|c s IH]; intros i H; simpl in *; [done |].
  apply andb_true_iff in H as [Hc Hs].
  destruct (Ascii.eqb_spec c Py.SQUOTE) as [->|_]; [done |].
  destruct (Ascii.eqb_spec c Py.DQUOTE) as [->|_]; [done |].
  by apply IH.
Qed.

Lemma blank_split (s : string) :
  blank s = true -> Py.split_from EmptyString s = [].
Proof.
  induction s as [|c s IH]; intros H; simpl in *; [done |].
  apply andb_true_iff in H as [-> Hs]. by apply IH.
Qed.

(** [Soul.parse] answers the empty command with [ParseError "What?"];
    a command that is not empty and holds whitespace only passes that
    test, splits into no words, and reading its first word raises
    [IndexError]. *)
Theorem blank_command_raises_index_error (voc : Vocabulary) (w : World)
    (player : MudObject) (previously_parsed : option ParseResult)
    (cmd : string) (external_verbs : list string) :
  blank cmd = true ->
  parse voc w player previously_parsed cmd external_verbs
  = if Py.nonempty cmd then raise IndexError
    else raise (ParseError "What?").
Proof.
  intros H. unfold parse, extract_message, quoted_search.
  rewrite blank_no_quote by done. rewrite bind_ret_l.
  destruct cmd as [|c cmd]; [done |].
  cbn [Py.nonempty negb]. unfold Py.split. by rewrite blank_split.
Qed.

Lemma blank_command_raises_index_error_witness :
  parse Sample.vocabulary Sample.room Sample.dave None "  " []
  = raise IndexError.
Proof.
  apply (blank_command_raises_index_error Sample.vocabulary Sample.room
           Sample.dave None "  " []).
  reflexivity.
Defined.

(** ** Finding items *)

Lemma head_filter_first {A} (p : A -> bool) (l : list A) :
  match head (filter (fun x => p x = true) l) with
  | Some i => first_such p l i
  | None => Forall (fun x => p x = false) l
  end.
Proof.
  induction l as [|x l IH]; [by apply Forall_nil |].
  destruct (p x) eqn:Hx.
  - rewrite filter_cons_True by done. simpl. exists [], l.
    split; [done |]. split; [done | by apply Forall_nil].
  - rewrite filter_cons_False by (by rewrite Hx).
    destruct (head (filter (fun x => p x = true) l)) as [i|].
    + destruct IH as (pre & post & -> & Hi & Hpre).
      exists (x :: pre), post. split; [done |]. split; [done |].
      by apply Forall_cons.
    + by apply Forall_cons.
Qed.

Lemma Item_search_item_first (n : string) (collection : list MudObject) :
  match Item_search_item n collection with
  | Some i =>
      first_such (has_name n) collection i
      \/ Forall (fun x => has_name n x = false) collection
         /\ first_such (known_as n) collection i
  | None =>
      Forall (fun x => has_name n x = false /\ known_as n x = false)
        collection
  end.
Proof.
  unfold Item_search_item.
  pose proof (head_filter_first (has_name n) collection) as Hn.
  pose proof (head_filter_first (known_as n) collection) as Hk.
  unfold has_name in Hn at 1. unfold known_as in Hk at 1.
  destruct (filter (fun i => String.eqb (name i) (Py.lower n) = true)
              collection) as [|i rest]; simpl in Hn; [| by left].
  destruct (head (filter _ collection)) as [i|]; [by right |].
  apply Forall_forall. intros x Hx.
  rewrite Forall_forall in Hn, Hk. split; [by apply Hn | by apply Hk].
Qed.

(** [Item.search_item] returns the first item of the collection whose
    name is the lower-cased search name; when no item has that name, the
    first one that has it among its aliases or whose lower-cased title is
    it; and [None] exactly when no item answers in either way. *)
Theorem search_item_prefers_names (n : string)
    (collection : list MudObject) :
  match Item_search_item n collection with
  | Some i =>
      first_such (has_name n) collection i
      \/ Forall (fun x => has_name n x = false) collection
         /\ first_such (known_as n) collection i
  | None =>
      Forall (fun x => has_name n x = false /\ known_as n x = false)
        collection
  end.
Proof. apply Item_search_item_first. Qed.

Lemma Item_search_item_elem (n : string) (collection : list MudObject)
    (i : MudObject) :
  Item_search_item n collection = Some i -> i ∈ collection.
Proof.
  intros H. pose proof (Item_search_item_first n collection) as Hs.
  rewrite H in Hs.
  destruct Hs as [(pre & post & -> & _)|[_ (pre & post & -> & _)]];
    apply elem_of_app; right; apply elem_of_cons; by left.
Qed.

Lemma locate_in_containers_held (w : World) (n : string)
    (carried : list MudObject) (i : MudObject) (h : Holder) :
  locate_in_containers w n carried = Some (i, h) ->
  exists c inv,
    h = HoldsContainer c /\ c ∈ carried /\ contents w c = Some inv
    /\ i ∈ inv.
Proof.
  induction carried as [|c rest IH]; simpl; [done |].
  assert (Hrest : locate_in_containers w n rest = Some (i, h) ->
            exists c0 inv, h = HoldsContainer c0 /\ c0 ∈ c :: rest
              /\ contents w c0 = Some inv /\ i ∈ inv).
  { intros H. destruct (IH H) as (c0 & inv & -> & Hc0 & Hinv & Hi).
    exists c0, inv. split; [done |]. split; [| done].
    apply elem_of_cons. by right. }
  destruct (contents w c) as [inv|] eqn:Hc; [| done].
  destruct (Item_search_item n inv) as [found|] eqn:Hf; [| done].
  intros H. simplify_eq. exists c, inv. split; [done |].
  split; [apply elem_of_cons; by left |]. split; [done |].
  by eapply Item_search_item_elem.
Qed.

(** What [Living.locate_item] returns: for an empty name it raises
    [ValueError]; a hit is an item together with the object that holds
    it, found in a place the flags allow; an item the actor carries
    hides one of the same name in the location, and that one hides one
    inside a carried container. *)
Theorem locate_item_finds_the_holder (w : World) (n : string)
    (include_inventory include_location include_containers : bool)
    (i : MudObject) (h : Holder) :
  returns (locate_item w n include_inventory include_location
             include_containers) (Some (i, h)) ->
  held_by w i h
  /\ match h with
     | HoldsSelf => include_inventory = true
     | HoldsLocation =>
         include_location = true
         /\ (include_inventory = true ->
             Item_search_item n (inventory w) = None)
     | HoldsContainer _ =>
         include_containers = true
         /\ (include_inventory = true ->
             Item_search_item n (inventory w) = None)
         /\ (include_location = true -> Item_search_item n (items w) = None)
     end.
Proof.
  unfold locate_item. intros H.
  destruct (negb (Py.nonempty n)); [by returns_inv |].
  apply returns_ret in H.
  destruct include_inventory.
  - destruct (Item_search_item n (inventory w)) as [a|] eqn:Ha; simpl in H.
    { simplify_eq. split; [| done]. by eapply Item_search_item_elem. }
    destruct include_location.
    + destruct (Item_search_item n (items w)) as [b|] eqn:Hb; simpl in H.
      { simplify_eq. split; [| done]. by eapply Item_search_item_elem. }
      destruct include_containers; [| done].
      apply locate_in_containers_held in H as (c & inv & -> & ? & ? & ?).
      split; [| done]. simpl. eauto.
    + destruct include_containers; [| done].
      apply locate_in_containers_held in H as (c & inv & -> & ? & ? & ?).
      split; [| done]. simpl. eauto.
  - destruct include_location.
    + destruct (Item_search_item n (items w)) as [b|] eqn:Hb; simpl in H.
      { simplify_eq. split; [| done]. by eapply Item_search_item_elem. }
      destruct include_containers; [| done].
      apply locate_in_containers_held in H as (c & inv & -> & ? & ? & ?).
      split; [| done]. simpl. eauto.
    + destruct include_containers; [| done].
      apply locate_in_containers_held in H as (c & inv & -> & ? & ? & ?).
      split; [| done]. simpl. eauto.
Qed.

Lemma locate_item_finds_the_holder_witness :
  returns (locate_item Carried.scene "Brass Key" true true true)
    (Some (Carried.key, HoldsContainer Carried.bag))
  /\ held_by Carried.scene Carried.key (HoldsContainer Carried.bag)
  /\ Item_search_item "Brass Key" (inventory Carried.scene) = None
  /\ Item_search_item "Brass Key" (items Carried.scene) = None.
Proof.
  split; [reflexivity |].
  destruct (locate_item_finds_the_holder Carried.scene "Brass Key" true true
              true Carried.key (HoldsContainer Carried.bag) eq_refl)
    as (Hheld & _ & Hinv & Hloc).
  split; [exact Hheld |]. split; [exact (Hinv eq_refl) | exact (Hloc eq_refl)].
Defined.

Lemma locate_in_containers_item (w : World) (n : string)
    (carried : list MudObject) :
  fst <$> locate_in_containers w n carried = search_containers w n carried.
Proof.
  induction carried as [|c rest IH]; simpl; [done |].
  destruct (contents w c); [| done].
  by destruct (Item_search_item n _).
Qed.

(** [Living.search_item] is [Living.locate_item] without the holder. *)
Theorem search_item_is_locate_item (w : World) (n : string) :
  search_item w n
  = bind (locate_item w n true true true) (fun r => ret (fst <$> r)).
Proof.
  unfold search_item, locate_item.
  destruct (negb (Py.nonempty n)); [done |]. rewrite bind_ret_l.
  destruct (Item_search_item n (inventory w)); [done |]. simpl.
  destruct (Item_search_item n (items w)); [done |]. simpl.
  by rewrite locate_in_containers_item.
Qed.

(** ** [Soul.spacify] *)

Lemma lstrip_with_idem (p : ascii -> bool) (s : string) :
  Py.lstrip_with p (Py.lstrip_with p s) = Py.lstrip_with p s.
Proof.
  induction s as [|c s IH]; simpl; [done |].
  destruct (p c) eqn:Hc; [done |]. simpl. by rewrite Hc.
Qed.

Lemma lstrip_with_head (p : ascii -> bool) (s : string) (d : ascii)
    (t : string) :
  Py.lstrip_with p s = String d t -> p d = false.
Proof.
  induction s as [|x s IH]; simpl; [done |].
  destruct (p x) eqn:Hx; [exact IH |]. intros H. by simplify_eq.
Qed.

(** [spacify] normalises the blanks in front of a text: the result is
    empty exactly for the empty text, it starts with one space that no
    space or tab follows, and applying [spacify] again changes nothing. *)
Theorem spacify_normalises (s : string) :
  spacify (spacify s) = spacify s
  /\ (spacify s = EmptyString <-> s = EmptyString)
  /\ forall c t, spacify s = String c t ->
       c = " "%char
       /\ forall d t', t = String d t' -> d <> " "%char /\ d <> Py.TAB.
Proof.
  unfold spacify. destruct s as [|a s]; [done |].
  cbn [Py.nonempty]. unfold sp. cbn [Py.nonempty].
  set (p := fun c : ascii => Ascii.eqb c " " || Ascii.eqb c Py.TAB).
  split; [| split; [done |]].
  - f_equal. change (Py.lstrip_with p (String " " ?t))
      with (Py.lstrip_with p t). apply lstrip_with_idem.
  - intros c t H. injection H as <- <-. split; [done |].
    intros d t' Ht.
    change (Py.lstrip_with p (String a s) = String d t') in Ht.
    apply lstrip_with_head in Ht.
    unfold p in Ht. apply orb_false_iff in Ht as [H1 H2].
    split; intros ->; done.
Qed.

(** ** The targets that [process_verb_parsed] returns *)

Section Rendered.

Context (voc : Vocabulary).

Lemma result_messages_targets (player : MudObject) (parsed : ParseResult)
    (action0 action_room0 : string) (who : list MudObject)
    (pm rm tm : string) :
  returns (result_messages voc player parsed action0 action_room0)
    (who, pm, rm, tm) ->
  who = filter (fun o => obj_is o player = false)
          (who_keys (who_info parsed)).
Proof.
  unfold result_messages. intros H.
  apply returns_bind in H as ([a r] & _ & H).
  destruct (who_order parsed) as [|x [|y l]]; cbn zeta iota in H;
    apply returns_ret in H; by simplify_eq.
Qed.

(** Whenever [process_verb_parsed] returns, the set of targets it
    returns holds exactly the keys of [who_info] other than the actor:
    the actor is never among them, and no other target is left out. *)
Theorem process_verb_parsed_leaves_actor_out (player : MudObject)
    (parsed : ParseResult) (who : list MudObject) (pm rm tm : string) :
  returns (process_verb_parsed voc player parsed) (who, pm, rm, tm) ->
  forall x,
    x ∈ who <-> x ∈ who_keys (who_info parsed) /\ oid x <> oid player.
Proof.
  intros H x.
  assert (Hw : who = filter (fun o => obj_is o player = false)
                       (who_keys (who_info parsed))).
  { unfold process_verb_parsed, template in H.
    returns_inv; eauto using result_messages_targets. }
  rewrite Hw, list_elem_of_filter. unfold obj_is.
  rewrite bool_decide_eq_false. tauto.
Qed.

End Rendered.

Lemma process_verb_parsed_leaves_actor_out_witness :
  exists r who pm rm tm,
    returns (parse Sample.vocabulary Sample.room Sample.dave None
               "wave at bob and me" []) r
    /\ returns (process_verb_parsed Sample.vocabulary Sample.dave r)
         (who, pm, rm, tm)
    /\ who = [Sample.bob]
    /\ forall x,
         x ∈ who <-> x ∈ who_keys (who_info r) /\ oid x <> oid Sample.dave.
Proof.
  eexists _, _, _, _, _. split; [vm_compute; reflexivity |].
  split; [vm_compute; reflexivity |]. split; [reflexivity |].
  eapply (process_verb_parsed_leaves_actor_out Sample.vocabulary Sample.dave).
  vm_compute. reflexivity.
Defined.

(** ** What [Living.parse] lets through *)

(** Whenever [Living.parse] returns a result, it is the result kept as
    [_previous_parse]; its verb is none of the external verbs; unless the
    verb is one of [NONLIVING_OK_VERBS], every entry of [who_order] is a
    living; and no key of [who_info] is an exit. *)
Theorem Living_parse_returns_social (voc : Vocabulary) (w : World)
    (self : MudObject) (st : LivingState) (commandline : string)
    (external_verbs : list string) (r : ParseResult) :
  returns (Living_parse voc w self st commandline external_verbs).2 r ->
  _previous_parse (Living_parse voc w self st commandline external_verbs).1
  = Some r
  /\ Py.mem (verb r) external_verbs = false
  /\ (Py.mem (verb r) (NONLIVING_OK_VERBS voc) = true
      \/ Forall (fun x => is_living x = true) (who_order r))
  /\ Forall (fun x => is_exit x = false) (who_keys (who_info r)).
Proof.
  assert (Hline : forall line,
            returns (parse_line voc w self st line external_verbs).2 r ->
            _previous_parse (parse_line voc w self st line external_verbs).1
            = Some r
            /\ Py.mem (verb r) external_verbs = false
            /\ (Py.mem (verb r) (NONLIVING_OK_VERBS voc) = true
                \/ Forall (fun x => is_living x = true) (who_order r))
            /\ Forall (fun x => is_exit x = false)
                 (who_keys (who_info r))).
  { intros line H. unfold parse_line in *. simpl in *.
    apply returns_bind in H as (parsed & Hp & H).
    unfold returns in Hp. rewrite Hp.
    unfold check_parsed, validate_socialize_targets in H.
    destruct (bool_decide (external_verbs <> [])
              && Py.mem (verb parsed) external_verbs) eqn:Hx;
      [by returns_inv |].
    destruct (negb (Py.mem (verb parsed) (NONLIVING_OK_VERBS voc))
              && negb (forallb is_living (who_order parsed))) eqn:Hl;
      [by returns_inv |].
    destruct (existsb is_exit (who_keys (who_info parsed))) eqn:He;
      [by returns_inv |].
    returns_inv. split; [done |]. split; [| split].
    - apply andb_false_iff in Hx as [Hx|Hx]; [| done].
      apply bool_decide_eq_false in Hx.
      destruct external_verbs; [done |]. by destruct Hx.
    - apply andb_false_iff in Hl as [Hl|Hl].
      + left. by apply negb_false_iff in Hl.
      + right. apply negb_false_iff in Hl.
        apply Forall_forall. intros x Hx'.
        rewrite forallb_forall in Hl. apply Hl.
        by apply list_elem_of_In.
    - apply Forall_forall. intros x Hx'.
      destruct (is_exit x) eqn:Hex; [| done].
      assert (existsb is_exit (who_keys (who_info r)) = true); [| congruence].
      apply existsb_exists. exists x. split; [| done].
      by apply list_elem_of_In. }
  unfold Living_parse. intros H.
  destruct (String.eqb commandline "again"); [| by apply Hline].
  destruct (truthy (previous_commandline st)); [| by returns_inv].
  specialize (Hline (default EmptyString (previous_commandline st))).
  destruct (parse_line voc w self st
              (default EmptyString (previous_commandline st))
              external_verbs) as [st1 m].
  simpl in *. apply returns_bind in H as (_ & _ & H). by apply Hline.
Qed.

Lemma Living_parse_returns_social_witness :
  exists r,
    returns (Living_parse Sample.vocabulary Sample.room Sample.dave
               new_living "smile at bob" ["take"]).2 r
    /\ _previous_parse
         (Living_parse Sample.vocabulary Sample.room Sample.dave
            new_living "smile at bob" ["take"]).1 = Some r
    /\ Py.mem (verb r) ["take"] = false
    /\ (Py.mem (verb r) (NONLIVING_OK_VERBS Sample.vocabulary) = true
        \/ Forall (fun x => is_living x = true) (who_order r))
    /\ Forall (fun x => is_exit x = false) (who_keys (who_info r)).
Proof.
  eexists. split; [vm_compute; reflexivity |].
  apply (Living_parse_returns_social Sample.vocabulary Sample.room
           Sample.dave new_living "smile at bob" ["take"]).
  vm_compute. reflexivity.
Defined.

(** ** Doors *)

Section DoorFacts.

Import Doors.

Context (lang_a : string -> string).

Lemma door_insert_eq (h : Store) (x : positive) (d : Door) :
  (<[x := d]> h) x = d.
Proof. apply fn_lookup_insert. Qed.

Lemma door_insert_ne (h : Store) (x y : positive) (d : Door) :
  x <> y -> (<[x := d]> h) y = h y.
Proof. apply fn_lookup_insert_ne. Qed.

Lemma same_but_code_refl (h : Store) : same_but_code h h.
Proof. done. Qed.

Lemma same_but_code_trans (h1 h2 h3 : Store) :
  same_but_code h1 h2 -> same_but_code h2 h3 -> same_but_code h1 h3.
Proof. intros H12 H23 x. by rewrite H23, H12. Qed.

Lemma same_but_code_fields (h h' : Store) (x : positive) :
  same_but_code h h' ->
  name (h' x) = name (h x) /\ locked (h' x) = locked (h x)
  /\ opened (h' x) = opened (h x) /\ linked_door (h' x) = linked_door (h x)
  /\ target (h' x) = target (h x).
Proof.
  intros H. specialize (H x). unfold set_key_code in H.
  by injection H as -> -> -> -> ->.
Qed.

Lemma same_but_code_set (h : Store) (x : positive) (c : option string) :
  same_but_code h (<[x := set_key_code (h x) c]> h).
Proof.
  intros y. destruct (decide (x = y)) as [->|Hne].
  - by rewrite door_insert_eq.
  - by rewrite door_insert_ne.
Qed.

(** [check_key] in one piece. *)
Lemma check_key_unfold (self : positive) (item : Item) (h : Store) :
  check_key self item h
  = match linked_door (h self) with
    | Some link =>
        match key_code (h self) with
        | None =>
            ([], <[self := set_key_code (h self) (key_code (h (door link)))]> h,
             inr (truthy (item_key_code item)
                  && bool_decide (item_key_code item
                                  = key_code (h (door link)))))
        | Some c =>
            if bool_decide (Some c = key_code (h (door link)))
            then ([], h,
                  inr (truthy (item_key_code item)
                       && bool_decide (item_key_code item = Some c)))
            else ([], h, inl AssertionError)
        end
    | None =>
        ([], h,
         inr (truthy (item_key_code item)
              && bool_decide (item_key_code item = key_code (h self))))
    end.
Proof.
  unfold check_key, wbind, wget, update, wput, wret, wraise. simpl.
  destruct (linked_door (h self)) as [link|]; [| done].
  destruct (key_code (h self)) as [c|] eqn:Hc; simpl.
  - case_bool_decide; simpl; [by rewrite Hc | done].
  - by rewrite door_insert_eq.
Qed.

Lemma check_key_frame (self : positive) (item : Item) (h : Store) :
  events (check_key self item h) = []
  /\ same_but_code h (store (check_key self item h)).
Proof.
  rewrite check_key_unfold.
  destruct (linked_door (h self)) as [link|]; [| done].
  destruct (key_code (h self)) as [c|]; [by case_bool_decide |].
  split; [done |]. apply same_but_code_set.
Qed.

(** [lock] and [unlock] in one piece: [b] is the new value of
    [locked]. *)
Lemma lock_unfold (self actor : positive) (inventory : list Item)
    (item : option Item) (h : Store) :
  lock lang_a self actor inventory item h
  = if locked (h self)
    then ([], h, inl (Err (ActionRefused "It's already locked.")))
    else
      match find_key self actor inventory item "lock" h with
      | (out, h1, inl e) => (out, h1, inl e)
      | (out, h1, inr key) =>
          (out ++ [Told actor
                     ("Your " +:+ title key +:+ " fits, it is now locked.");
                   ToldOthers actor
                     ("{Title} locked the " +:+ name (h self) +:+ " with "
                      +:+ lang_a (title key) +:+ ".")],
           let h2 := <[self := set_locked (h1 self) true]> h1 in
           match linked_door (h self) with
           | Some link => <[door link := set_locked (h2 (door link)) true]> h2
           | None => h2
           end,
           inr tt)
      end.
Proof.
  unfold lock, wbind at 1, wget. cbn beta iota zeta.
  destruct (locked (h self)); [done |].
  unfold wbind at 1.
  destruct (find_key self actor inventory item "lock" h)
    as [[out h1] [e|key]]; [done |].
  unfold wbind, update, wget, wput, emit, wret. simpl.
  by destruct (linked_door (h self)).
Qed.

Lemma unlock_unfold (self actor : positive) (inventory : list Item)
    (item : option Item) (h : Store) :
  unlock lang_a self actor inventory item h
  = if negb (locked (h self))
    then ([], h, inl (Err (ActionRefused "It's not locked.")))
    else
      match find_key self actor inventory item "unlock" h with
      | (out, h1, inl e) => (out, h1, inl e)
      | (out, h1, inr key) =>
          (out ++ [Told actor
                     ("Your " +:+ title key
                      +:+ " fits, it is now unlocked.");
                   ToldOthers actor
                     ("{Title} unlocked the " +:+ name (h self) +:+ " with "
                      +:+ lang_a (title key) +:+ ".")],
           let h2 := <[self := set_locked (h1 self) false]> h1 in
           match linked_door (h self) with
           | Some link =>
               <[door link := set_locked (h2 (door link)) false]> h2
           | None => h2
           end,
           inr tt)
      end.
Proof.
  unfold unlock, wbind at 1, wget. cbn beta iota zeta.
  destruct (negb (locked (h self))); [done |].
  unfold wbind at 1.
  destruct (find_key self actor inventory item "unlock" h)
    as [[out h1] [e|key]]; [done |].
  unfold wbind, update, wget, wput, emit, wret. simpl.
  by destruct (linked_door (h self)).
Qed.

Lemma find_key_unfold (self actor : positive) (inventory : list Item)
    (i : Item) (action : string) (h : Store) :
  find_key self actor inventory (Some i) action h
  = match check_key self i h with
    | (out, h1, inl e) => (out, h1, inl e)
    | (out, h1, inr true) => (out ++ [], h1, inr i)
    | (out, h1, inr false) =>
        (out ++ [], h1,
         inl (Err (ActionRefused
                     ("You can't use that to " +:+ action +:+ " it."))))
    end.
Proof.
  unfold find_key, wbind.
  by destruct (check_key self i h) as [[out h1] [e|[|]]].
Qed.

Lemma search_key_frame (self : positive) (inventory : list Item)
    (h : Store) :
  events (search_key self inventory h) = []
  /\ same_but_code h (store (search_key self inventory h)).
Proof.
  revert h. induction inventory as [|item rest IH]; intros h; [done |].
  simpl. unfold wbind.
  destruct (check_key_frame self item h) as [Hev Hst].
  unfold events, store in *.
  destruct (check_key self item h) as [[out h1] [e|fits]];
    simpl in Hev, Hst; subst out; [done |].
  destruct fits; [done |].
  destruct (IH h1) as [Hev' Hst'].
  destruct (search_key self rest h1) as [[out2 h2] r]; simpl in *.
  subst. split; [done |]. by eapply same_but_code_trans.
Qed.

Lemma find_key_frame (self actor : positive) (inventory : list Item)
    (item : option Item) (action : string) (h : Store) :
  same_but_code h (store (find_key self actor inventory item action h)).
Proof.
  unfold find_key. destruct item as [i|].
  - unfold wbind. destruct (check_key_frame self i h) as [_ Hst].
    unfold store in *.
    destruct (check_key self i h) as [[out h1] [e|fits]]; simpl in *;
      [done |]. by destruct fits.
  - unfold wbind. destruct (search_key_frame self inventory h) as [_ Hst].
    unfold store in *.
    destruct (search_key self inventory h) as [[out h1] [e|[key|]]];
      simpl in *; done.
Qed.

Lemma in_step_same_but_code (h h' : Store) (a b : positive) :
  same_but_code h h' -> in_step h a b -> in_step h' a b.
Proof.
  intros Hs (Hab & Hba & Ho & Hl). unfold in_step.
  destruct (same_but_code_fields h h' a Hs) as (_ & -> & -> & -> & _).
  destruct (same_but_code_fields h h' b Hs) as (_ & -> & -> & -> & _).
  done.
Qed.

Lemma in_step_sym (h : Store) (a b : positive) :
  in_step h a b -> in_step h b a.
Proof. intros (Hab & Hba & Ho & Hl). by split; [| split; [| split]]. Qed.

(** Setting [opened] or [locked] on both doors keeps them in step. *)
Lemma in_step_set_both (h : Store) (a b : positive) (f : Door -> Door) :
  (forall d, linked_door (f d) = linked_door d) ->
  (forall d d', opened d = opened d' -> opened (f d) = opened (f d')) ->
  (forall d d', locked d = locked d' -> locked (f d) = locked (f d')) ->
  (forall d, f (f d) = f d) ->
  in_step h a b ->
  in_step (<[b := f ((<[a := f (h a)]> h) b)]> (<[a := f (h a)]> h)) a b.
Proof.
  intros Hlink Hopen Hlock Hidem (Hab & Hba & Ho & Hl). unfold in_step.
  destruct (decide (a = b)) as [->|Hne].
  - rewrite !door_insert_eq, !Hlink. done.
  - rewrite door_insert_eq, (door_insert_ne _ b a) by done.
    rewrite door_insert_eq, (door_insert_ne _ a b) by done.
    rewrite !Hlink. auto.
Qed.

Lemma act_in_step (a b actor : positive) (op : Action) (h : Store) :
  in_step h a b -> in_step (store (act lang_a a actor op h)) a b.
Proof.
  intros Hin. pose proof Hin as (Hab & _).
  destruct (linked_door (h a)) as [link|] eqn:Hlink; [| done].
  simpl in Hab. injection Hab as Hb.
  destruct op as [| |inventory item|inventory item|item|]; simpl.
  - unfold open, tell_target, wbind, wget, update, wput, wret, emit, refuse,
      wraise; simpl.
    destruct (opened (h a)); [done |]. destruct (locked (h a)); [done |].
    simpl. rewrite Hlink. simpl. rewrite Hb.
    assert (Hres : in_step
              (<[b := set_opened ((<[a := set_opened (h a) true]> h) b) true]>
                 (<[a := set_opened (h a) true]> h)) a b).
    { by apply (in_step_set_both h a b (fun d => set_opened d true)). }
    destruct (truthy (open_msg link)); simpl; [| done].
    by destruct (target _).
  - unfold close, tell_target, wbind, wget, update, wput, wret, emit, refuse,
      wraise; simpl.
    destruct (opened (h a)); [| done]. simpl. rewrite Hlink. simpl.
    rewrite Hb.
    assert (Hres : in_step
              (<[b := set_opened ((<[a := set_opened (h a) false]> h) b) false]>
                 (<[a := set_opened (h a) false]> h)) a b).
    { by apply (in_step_set_both h a b (fun d => set_opened d false)). }
    destruct (truthy (close_msg link)); simpl; [| done].
    by destruct (target _).
  - unfold lock, wbind at 1, wget. simpl.
    destruct (locked (h a)) eqn:Hl; [done |].
    unfold wbind at 1.
    pose proof (find_key_frame a actor inventory item "lock" h) as Hf.
    destruct (find_key a actor inventory item "lock" h)
      as [[out h1] [e|key]]; simpl in Hf;
      [by eapply in_step_same_but_code |].
    unfold wbind, update, wget, wput, emit, wret. simpl.
    rewrite Hlink. simpl. rewrite Hb.
    apply (in_step_set_both h1 a b (fun d => set_locked d true)); try done.
    by eapply in_step_same_but_code.
  - unfold unlock, wbind at 1, wget. simpl.
    destruct (locked (h a)) eqn:Hl; [| done]. simpl.
    unfold wbind at 1.
    pose proof (find_key_frame a actor inventory item "unlock" h) as Hf.
    destruct (find_key a actor inventory item "unlock" h)
      as [[out h1] [e|key]]; simpl in Hf;
      [by eapply in_step_same_but_code |].
    unfold wbind, update, wget, wput, emit, wret. simpl.
    rewrite Hlink. simpl. rewrite Hb.
    apply (in_step_set_both h1 a b (fun d => set_locked d false)); try done.
    by eapply in_step_same_but_code.
  - unfold insert, wbind.
    destruct (check_key_frame a item h) as [_ Hst].
    destruct (check_key a item h) as [[out h1] [e|fits]]; simpl in *;
      [by eapply in_step_same_but_code |].
    unfold wget. simpl.
    destruct fits; [destruct (locked (h1 a)) |]; simpl;
      by eapply in_step_same_but_code.
  - unfold allow_passage, wbind, wget. simpl.
    destruct (target (h a)); [| done]. by destruct (opened (h a)).
Qed.

Lemma attempts_in_step (l : list (positive * positive * Action))
    (a b : positive) (h : Store) :
  Forall (fun p => p.1.1 = a \/ p.1.1 = b) l ->
  in_step h a b -> in_step (attempts lang_a l h) a b.
Proof.
  revert h. induction l as [|[[self actor] op] l IH]; intros h Hl Hin;
    [done |].
  apply Forall_cons_1 in Hl as [Hself Hl]. simpl in *. apply IH; [done |].
  destruct Hself as [-> | ->]; [by apply act_in_step |].
  by apply in_step_sym, act_in_step, in_step_sym.
Qed.

Lemma reverse_door_in_step (self other : positive) (directions : Directions)
    (returning_location : positive) (m1 m2 m3 m4 : option string)
    (h : Store) (x : positive) :
  other <> self ->
  result (reverse_door self other directions returning_location m1 m2 m3 m4
            h) = inr x ->
  x = other
  /\ in_step (store (reverse_door self other directions returning_location
                       m1 m2 m3 m4 h)) self other
  /\ codes_agree (store (reverse_door self other directions
                           returning_location m1 m2 m3 m4 h)) self.
Proof.
  intros Hne.
  unfold reverse_door, Door_init, wbind, wget, update, wput, wret, wraise,
    result, store. simpl.
  destruct (split_directions directions) as [e|[direction rest]]; [done |].
  destruct (locked (h self) && opened (h self)); [done |]. simpl.
  intros H. injection H as <-. split; [done |].
  unfold in_step, codes_agree.
  repeat first [rewrite door_insert_eq
               | rewrite (door_insert_ne _ other self) by done
               | rewrite (door_insert_ne _ self other) by done].
  simpl. split; [done |].
  intros link Hlink. injection Hlink as <-. simpl.
  repeat first [rewrite door_insert_eq
               | rewrite (door_insert_ne _ other self) by done
               | rewrite (door_insert_ne _ self other) by done].
  done.
Qed.


(** *** A door without a key code *)

Lemma check_key_no_code (a : positive) (item : Item) (h : Store) :
  no_code h a ->
  result (check_key a item h) = inr false
  /\ forall x, store (check_key a item h) x = h x.
Proof.
  intros [Ha Hl]. rewrite check_key_unfold.
  destruct (linked_door (h a)) as [link|] eqn:Hlink.
  - rewrite Ha, (Hl link eq_refl). unfold result, store. cbn [fst snd].
    split.
    + destruct (item_key_code item) as [c|]; [| done].
      by rewrite bool_decide_eq_false_2, andb_false_r.
    + intros x. destruct (decide (a = x)) as [->|Hne].
      * rewrite door_insert_eq. rewrite <- Ha. by destruct (h x).
      * by rewrite door_insert_ne.
  - rewrite Ha. unfold result, store. cbn [fst snd]. split; [| done].
    destruct (item_key_code item) as [c|]; [| done].
    by rewrite bool_decide_eq_false_2, andb_false_r.
Qed.

Lemma search_key_no_code (a : positive) (inventory : list Item) (h : Store) :
  no_code h a ->
  result (search_key a inventory h) = inr None
  /\ forall x, store (search_key a inventory h) x = h x.
Proof.
  intros Hno. revert h Hno.
  induction inventory as [|item rest IH]; intros h Hno; [done |].
  simpl. unfold wbind.
  destruct (check_key_no_code a item h Hno) as [Hr Hs].
  destruct (check_key_frame a item h) as [Hev _].
  unfold result, store, events in *.
  destruct (check_key a item h) as [[out h1] r]; simpl in *. subst.
  assert (Hno1 : no_code h1 a).
  { destruct Hno as [Ha Hl]. split; [by rewrite Hs |].
    intros link. rewrite !Hs. apply Hl. }
  destruct (IH h1 Hno1) as [Hr' Hs'].
  destruct (search_key a rest h1) as [[out2 h2] r2]; simpl in *.
  split; [done |]. intros x. by rewrite Hs', Hs.
Qed.

Lemma find_key_no_code (a actor : positive) (inventory : list Item)
    (item : option Item) (action : string) (h : Store) :
  no_code h a ->
  (exists msg, result (find_key a actor inventory item action h)
               = inl (Err (ActionRefused msg)))
  /\ forall x, store (find_key a actor inventory item action h) x = h x.
Proof.
  intros Hno. unfold find_key. destruct item as [i|]; unfold wbind.
  - destruct (check_key_no_code a i h Hno) as [Hr Hs].
    unfold result, store in *.
    destruct (check_key a i h) as [[out h1] r]; simpl in *. subst.
    split; [by eexists | done].
  - destruct (search_key_no_code a inventory h Hno) as [Hr Hs].
    unfold result, store in *.
    destruct (search_key a inventory h) as [[out h1] r]; simpl in *. subst.
    split; [by eexists | done].
Qed.

Lemma act_no_code (a actor : positive) (op : Action) (h : Store) :
  no_code h a ->
  locked (store (act lang_a a actor op h) a) = locked (h a)
  /\ no_code (store (act lang_a a actor op h)) a.
Proof.
  intros Hno.
  assert (Hsame : forall h', (forall x, h' x = h x) ->
            locked (h' a) = locked (h a) /\ no_code h' a).
  { intros h' Hs. split; [by rewrite Hs |].
    destruct Hno as [Ha Hl]. split; [by rewrite Hs |].
    intros link. rewrite !Hs. apply Hl. }
  assert (Hopen : forall b,
            (forall link, linked_door (h a) = Some link ->
               exists h1, h1 = <[a := set_opened (h a) b]> h
                 /\ locked (<[door link := set_opened (h1 (door link)) b]> h1 a)
                    = locked (h a)
                 /\ no_code (<[door link := set_opened (h1 (door link)) b]> h1)
                      a)
            /\ (linked_door (h a) = None ->
                locked (<[a := set_opened (h a) b]> h a) = locked (h a)
                /\ no_code (<[a := set_opened (h a) b]> h) a)).
  { intros b. destruct Hno as [Ha Hl]. split.
    - intros link Hlink. eexists. split; [done |].
      specialize (Hl link Hlink).
      destruct (decide (door link = a)) as [Heq|Hne].
      + rewrite Heq, !door_insert_eq. split; [done |].
        split; [by rewrite door_insert_eq |].
        intros link'. rewrite door_insert_eq. simpl. intros Hl'.
        rewrite Hlink in Hl'. injection Hl' as <-.
        by rewrite Heq, door_insert_eq.
      + rewrite (door_insert_ne _ (door link) a) by done.
        rewrite door_insert_eq. split; [done |].
        split.
        * rewrite (door_insert_ne _ (door link) a) by done.
          by rewrite door_insert_eq.
        * intros link'.
          rewrite (door_insert_ne _ (door link) a) by done.
          rewrite door_insert_eq. simpl. intros Hl'.
          rewrite Hlink in Hl'. injection Hl' as <-.
          rewrite door_insert_eq. simpl.
          by rewrite door_insert_ne by done.
    - intros Hlink. rewrite door_insert_eq. split; [done |].
      split; [by rewrite door_insert_eq |].
      intros link'. rewrite door_insert_eq. simpl. congruence. }
  destruct op as [| |inventory item|inventory item|item|]; simpl.
  - unfold open, tell_target, wbind, wget, update, wput, wret, emit, refuse,
      wraise, store; simpl.
    destruct (opened (h a)); [by apply Hsame |].
    destruct (locked (h a)) eqn:Hlk; [by apply Hsame |]. simpl.
    destruct (Hopen true) as [Hlinked Hnone].
    destruct (linked_door (h a)) as [link|] eqn:Hlink; simpl.
    + destruct (Hlinked link eq_refl) as (h1 & -> & H1 & H2).
      destruct (truthy (open_msg link)); simpl; [| done].
      by destruct (target _).
    + by destruct (Hnone eq_refl) as [H1 H2].
  - unfold close, tell_target, wbind, wget, update, wput, wret, emit, refuse,
      wraise, store; simpl.
    destruct (opened (h a)); [| by apply Hsame]. simpl.
    destruct (Hopen false) as [Hlinked Hnone].
    destruct (linked_door (h a)) as [link|] eqn:Hlink; simpl.
    + destruct (Hlinked link eq_refl) as (h1 & -> & H1 & H2).
      destruct (truthy (close_msg link)); simpl; [| done].
      by destruct (target _).
    + by destruct (Hnone eq_refl) as [H1 H2].
  - rewrite lock_unfold.
    destruct (locked (h a)); [by apply Hsame |].
    destruct (find_key_no_code a actor inventory item "lock" h Hno)
      as [[msg Hr] Hs].
    unfold result, store in *.
    destruct (find_key a actor inventory item "lock" h) as [[out h1] r];
      simpl in *. subst. by apply Hsame.
  - rewrite unlock_unfold.
    destruct (locked (h a)); [| by apply Hsame]. simpl.
    destruct (find_key_no_code a actor inventory item "unlock" h Hno)
      as [[msg Hr] Hs].
    unfold result, store in *.
    destruct (find_key a actor inventory item "unlock" h) as [[out h1] r];
      simpl in *. subst. by apply Hsame.
  - unfold insert, wbind.
    destruct (check_key_no_code a item h Hno) as [Hr Hs].
    unfold result, store in *.
    destruct (check_key a item h) as [[out h1] r]; simpl in *. subst.
    unfold wget, refuse, wraise. simpl. by apply Hsame.
  - unfold allow_passage, wbind, wget, refuse, wraise, wret, store. simpl.
    destruct (target (h a)); [| by apply Hsame].
    destruct (opened (h a)); by apply Hsame.
Qed.

(** A door that has no key code, and whose linked door has none either,
    cannot be locked or unlocked: whatever is tried on it, with whatever
    items, [locked] keeps its value. *)
Theorem door_without_code_keeps_its_lock
    (l : list (positive * positive * Action)) (a : positive) (h : Store) :
  no_code h a ->
  Forall (fun p => p.1.1 = a) l ->
  locked (attempts lang_a l h a) = locked (h a).
Proof.
  revert h. induction l as [|[[self actor] op] l IH]; intros h Hno Hl;
    [done |].
  apply Forall_cons_1 in Hl as [Hself Hl]. simpl in *. subst self.
  destruct (act_no_code a actor op h Hno) as [Hlk Hno'].
  rewrite IH by done. done.
Qed.

(** *** Keys *)

Ltac door_lookup :=
  repeat first
    [ rewrite door_insert_eq
    | rewrite door_insert_ne by done ].

(** A key with the code of the door is accepted, and the check changes
    nothing, when the linked door has the same code. *)
Lemma check_key_accepts (a : positive) (key : Item) (h : Store) :
  truthy (item_key_code key) = true ->
  item_key_code key = key_code (h a) ->
  codes_agree h a ->
  check_key a key h = ([], h, inr true).
Proof.
  intros Ht Hc Hagree. rewrite check_key_unfold.
  destruct (key_code (h a)) as [c|] eqn:Ha;
    [| by rewrite Hc in Ht].
  destruct (linked_door (h a)) as [link|] eqn:Hlink.
  - rewrite (Hagree link Hlink), Ha.
    rewrite bool_decide_eq_true_2 by done.
    by rewrite Ht, bool_decide_eq_true_2.
  - by rewrite Ht, bool_decide_eq_true_2.
Qed.


(** *** Locking an open door *)


(** *** A key code given after the pairing *)

(** When a door gets its key code only after [reverse_door] has paired
    it, [check_key] on that door fails its assertion for every item,
    since the other door has no code yet; [check_key] on the other door
    copies the code, and from then on both doors check keys against it. *)
Theorem key_code_after_pairing (self other : positive)
    (directions : Directions) (returning_location : positive)
    (m1 m2 m3 m4 : option string) (c : string) (h : Store)
    (item item' : Item) :
  other <> self ->
  key_code (h self) = None ->
  result (reverse_door self other directions returning_location m1 m2 m3 m4
            h) = inr other ->
  let h1 := store (reverse_door self other directions returning_location
                     m1 m2 m3 m4 h) in
  let h2 := <[self := set_key_code (h1 self) (Some c)]> h1 in
  result (check_key self item h2) = inl AssertionError
  /\ result (check_key other item h2)
     = inr (truthy (item_key_code item)
            && bool_decide (item_key_code item = Some c))
  /\ result (check_key self item' (store (check_key other item h2)))
     = inr (truthy (item_key_code item')
            && bool_decide (item_key_code item' = Some c)).
Proof.
  intros Hne Hnone Hr h1 h2.
  assert (H1 : linked_door (h1 self) = Some (mkDoorPairLink other m3 m4)
               /\ linked_door (h1 other) = Some (mkDoorPairLink self m1 m2)
               /\ key_code (h1 other) = None).
  { unfold h1. revert Hr.
    unfold reverse_door, Door_init, wbind, wget, update, wput, wret, wraise,
      result, store. simpl.
    destruct (split_directions directions) as [e|[direction rest]]; [done |].
    destruct (locked (h self) && opened (h self)); [done |]. simpl.
    intros _.
    repeat first [rewrite door_insert_eq
                 | rewrite (door_insert_ne _ other self) by done
                 | rewrite (door_insert_ne _ self other) by done].
    simpl.
    repeat first [rewrite door_insert_eq
                 | rewrite (door_insert_ne _ other self) by done
                 | rewrite (door_insert_ne _ self other) by done].
    by rewrite Hnone. }
  destruct H1 as (Hls & Hlo & Hko).
  assert (H2s : h2 self = set_key_code (h1 self) (Some c))
    by (unfold h2; by door_lookup).
  assert (H2o : h2 other = h1 other)
    by (unfold h2; by rewrite door_insert_ne).
  split; [| split].
  - rewrite check_key_unfold, H2s. cbn [linked_door key_code set_key_code].
    rewrite Hls. cbn [door]. rewrite H2o, Hko.
    by rewrite bool_decide_eq_false_2.
  - rewrite check_key_unfold, H2o, Hlo, Hko. cbn [door].
    by rewrite H2s.
  - rewrite (check_key_unfold other item h2), H2o, Hlo, Hko.
    cbn [door fst snd store].
    rewrite check_key_unfold.
    rewrite (door_insert_ne _ other self) by done.
    rewrite H2s. cbn [linked_door key_code set_key_code].
    rewrite Hls. cbn [door]. rewrite door_insert_eq.
    cbn [key_code set_key_code].
    by rewrite bool_decide_eq_true_2.
Qed.

End DoorFacts.

(** *** The theorems on doors at the garden gate *)

Section AtTheGate.

Import Doors.
Local Open Scope positive_scope.


Lemma door_without_code_keeps_its_lock_witness :
  locked (attempts Gate.a Gate.tries_on_one Gate.plain_doors 1) = false.
Proof.
  rewrite (door_without_code_keeps_its_lock Gate.a Gate.tries_on_one 1
             Gate.plain_doors).
  - reflexivity.
  - split; [reflexivity | intros link H; discriminate H].
  - unfold Gate.tries_on_one.
    repeat (apply Forall_cons; split; [reflexivity |]). apply Forall_nil_2.
Defined.



Lemma key_code_after_pairing_witness :
  let h1 := store (reverse_door 1 2 (OneDirection "Out") 6 None None None
                     None Gate.plain_doors) in
  let h2 := <[1%positive := set_key_code (h1 1%positive) (Some "g7")]> h1 in
  result (check_key 1 Gate.gate_key h2) = inl AssertionError
  /\ result (check_key 2 Gate.gate_key h2) = inr true
  /\ result (check_key 1 Gate.other_key
               (store (check_key 2 Gate.gate_key h2))) = inr false.
Proof.
  apply (key_code_after_pairing 1 2 (OneDirection "Out") 6 None None None
           None "g7" Gate.plain_doors Gate.gate_key Gate.other_key).
  - done.
  - reflexivity.
  - reflexivity.
Defined.

End AtTheGate.

(** ** Running computations over a store *)

Lemma wbind_wget {S B} (f : S -> W S B) (h : S) :
  wbind wget f h = f h h.
Proof. unfold wbind, wget. by destruct (f h h) as [[out s] r]. Qed.

Lemma wbind_wret {S A B} (a : A) (f : A -> W S B) (h : S) :
  wbind (wret a) f h = f a h.
Proof. unfold wbind, wret. by destruct (f a h) as [[out s] r]. Qed.

Lemma wbind_wput {S B} (h' : S) (f : unit -> W S B) (h : S) :
  wbind (wput h') f h = f tt h'.
Proof. unfold wbind, wput. by destruct (f tt h') as [[out s] r]. Qed.

Lemma wbind_wraise {S A B} (e : exn) (f : A -> W S B) (h : S) :
  wbind (wraise e) f h = ([], h, inl e).
Proof. done. Qed.

Lemma wbind_refuse {S A B} (msg : string) (f : A -> W S B) (h : S) :
  wbind (refuse msg) f h = ([], h, inl (Err (ActionRefused msg))).
Proof. done. Qed.

Lemma wbind_emit {S B} (ev : Event) (f : unit -> W S B) (h : S) :
  wbind (emit ev) f h
  = (ev :: events (f tt h), store (f tt h), result (f tt h)).
Proof. unfold wbind, emit. by destruct (f tt h) as [[out s] r]. Qed.

Lemma wbind_run {S A B} (m : W S A) (f : A -> W S B) (h : S) :
  wbind m f h
  = match result (m h) with
    | inl e => (events (m h), store (m h), inl e)
    | inr a =>
        (events (m h) ++ events (f a (store (m h))),
         store (f a (store (m h))), result (f a (store (m h))))
    end.
Proof.
  unfold wbind, events, store, result.
  destruct (m h) as [[out s1] [e|a]]; [done |]. simpl.
  by destruct (f a s1) as [[out2 s2] r].
Qed.

(** ** Where things are *)

Section ThingFacts.

Import Things.

Context (lang_capital : string -> string).

Lemma thing_insert_eq (h : Store) (x : positive) (t : Thing) :
  (<[x := t]> h) x = t.
Proof. apply fn_lookup_insert. Qed.

Lemma thing_insert_ne (h : Store) (x y : positive) (t : Thing) :
  x <> y -> (<[x := t]> h) y = h y.
Proof. apply fn_lookup_insert_ne. Qed.

Ltac thing_lookup :=
  repeat first
    [ rewrite thing_insert_eq
    | rewrite thing_insert_ne by done ].

Ltac decide_all :=
  repeat match goal with
  | |- context [bool_decide (?a = ?b)] =>
      first [ rewrite (bool_decide_eq_true_2 (a = b)) by done
            | rewrite (bool_decide_eq_false_2 (a = b)) by done ]
  end.

Lemma wbind_update {B} (x : positive) (g : Thing -> Thing)
    (f : unit -> W Store B) (h : Store) :
  wbind (update x g) f h = f tt (<[x := g (h x)]> h).
Proof.
  unfold update, wbind, wget, wput.
  by destruct (f tt (<[x := g (h x)]> h)) as [[out s] r].
Qed.

Lemma update_run (x : positive) (g : Thing -> Thing) (h : Store) :
  update x g h = ([], <[x := g (h x)]> h, inr tt).
Proof. done. Qed.

Lemma kind_put_in (t : Thing) (i : positive) : kind (put_in t i) = kind t.
Proof. unfold put_in. by destruct (kind t) eqn:E; simpl; rewrite ?E. Qed.

Lemma kind_take_out (t : Thing) (i : positive) : kind (take_out t i) = kind t.
Proof. unfold take_out. by destruct (kind t) eqn:E; simpl; rewrite ?E. Qed.

Lemma kind_update_put (h : Store) (t i x : positive) :
  kind ((<[t := put_in (h t) i]> h) x) = kind (h x).
Proof.
  destruct (decide (t = x)) as [->|Ht]; thing_lookup; [| done].
  apply kind_put_in.
Qed.

Lemma kind_update_take (h : Store) (t i x : positive) :
  kind ((<[t := take_out (h t) i]> h) x) = kind (h x).
Proof.
  destruct (decide (t = x)) as [->|Ht]; thing_lookup; [| done].
  apply kind_take_out.
Qed.

Lemma kind_moved_in (h : Store) (t i x : positive) :
  kind (moved_in h t i x) = kind (h x).
Proof.
  unfold moved_in. cbn zeta.
  destruct (decide (i = x)) as [->|Hi]; thing_lookup;
    [simpl |]; apply kind_update_put.
Qed.

Lemma kind_moved_out (h : Store) (s i x : positive) :
  kind (moved_out h s i x) = kind (h x).
Proof.
  unfold moved_out. cbn zeta.
  destruct (decide (i = x)) as [->|Hi]; thing_lookup;
    [simpl |]; apply kind_update_take.
Qed.

Lemma item_not_living (t : Thing) : is_item t = true -> is_living t = false.
Proof. unfold is_item, is_living. by destruct (kind t). Qed.

(** The methods [insert], for an item. *)
Lemma Location_insert_item (self i : positive) (h : Store) :
  is_item (h i) = true -> kind (h self) = Location ->
  Location_insert self i h = ([], moved_in h self i, inr tt).
Proof.
  intros Hi Hk. unfold Location_insert. rewrite wbind_wget.
  rewrite (item_not_living _ Hi), Hi. rewrite wbind_update.
  unfold assign_location. rewrite wbind_wget.
  assert (Hi' : is_item ((<[self := set_items (h self)
                              ({[i]} ∪ items (h self))]> h) i) = true).
  { destruct (decide (self = i)) as [->|Hne]; thing_lookup; [| done].
    by unfold is_item in *. }
  rewrite Hi'. thing_lookup. unfold is_location at 1. cbn [kind set_items].
  rewrite Hk. rewrite update_run. unfold moved_in, put_in. by rewrite Hk.
Qed.

Lemma Living_insert_item (self i : positive) (actor : option positive)
    (h : Store) :
  is_item (h i) = true ->
  kind (h self) = Living \/ kind (h self) = NPC ->
  Living_insert lang_capital self i actor h
  = if may_handle h self actor then ([], moved_in h self i, inr tt)
    else ([], h,
          inl (Err (ActionRefused
            (if aggressive (h self)
             then "It's probably not a good idea to give " +:+ title (h i)
                  +:+ " to " +:+ title (h self) +:+ "."
             else lang_capital (title (h self)) +:+ " doesn't want "
                  +:+ title (h i) +:+ ".")))).
Proof.
  intros Hi Hk. unfold Living_insert. rewrite wbind_wget, Hi. cbn [negb].
  destruct (may_handle h self actor).
  - rewrite wbind_update, update_run. unfold moved_in, put_in.
    by destruct Hk as [-> | ->].
  - by destruct (aggressive (h self)).
Qed.

Lemma Container_insert_item (self i : positive) (h : Store) :
  is_item (h i) = true -> kind (h self) = Container ->
  Container_insert self i h = ([], moved_in h self i, inr tt).
Proof.
  intros Hi Hk. unfold Container_insert. rewrite wbind_wget, Hi. cbn [negb].
  rewrite wbind_update, update_run. unfold moved_in, put_in. by rewrite Hk.
Qed.

(** [insert] of an item in one piece: it goes through as [accepts]
    says, and a refusal leaves the store as it is. *)
Lemma insert_item (self i : positive) (actor : option positive) (h : Store) :
  is_item (h i) = true ->
  insert lang_capital self i actor h
  = (if accepts h self actor then ([], moved_in h self i, inr tt)
     else ([], h, result (insert lang_capital self i actor h)))
  /\ (accepts h self actor = false ->
      exists msg, result (insert lang_capital self i actor h)
                  = inl (Err (ActionRefused msg))).
Proof.
  intros Hi. unfold insert, accepts. rewrite wbind_wget.
  destruct (kind (h self)) eqn:Hk.
  - by rewrite Location_insert_item.
  - rewrite Living_insert_item by auto.
    destruct (may_handle h self actor); [done |]. split; [done |].
    intros _. by eexists.
  - unfold NPC_insert. rewrite wbind_wget.
    destruct (negb (aggressive (h self)) || may_handle h self actor) eqn:Hc.
    + rewrite Living_insert_item by auto. unfold may_handle.
      by rewrite bool_decide_eq_true_2.
    + split; [by destruct (aggressive (h self)) |]. intros _.
      destruct (aggressive (h self)); by eexists.
  - by rewrite Container_insert_item.
  - split; [done |]. intros _. by eexists.
  - split; [done |]. intros _. by eexists.
Qed.

(** What [moved_in] and [moved_out] change. *)
Lemma holdings_put_in (h : Store) (t i c : positive) :
  accepts h t None = true \/ kind (h t) <> Item /\ kind (h t) <> Exit ->
  holdings (<[t := put_in (h t) i]> h) c
  = if bool_decide (c = t) then {[i]} ∪ holdings h t else holdings h c.
Proof.
  intros Hk. unfold holdings. rewrite kind_update_put.
  case_bool_decide as Hc; [subst c | by thing_lookup].
  thing_lookup. unfold put_in.
  destruct (kind (h t)) eqn:E; try done.
  all: destruct Hk as [Hk|[? ?]]; try done.
  all: unfold accepts in Hk; by rewrite E in Hk.
Qed.

Lemma holdings_set_contained_in (h : Store) (i c : positive)
    (v : option positive) :
  holdings (<[i := set_contained_in (h i) v]> h) c = holdings h c.
Proof.
  unfold holdings.
  destruct (decide (i = c)) as [->|Hne]; by thing_lookup.
Qed.

Lemma holder_kind (h : Store) (t : positive) (actor : option positive) :
  accepts h t actor = true -> kind (h t) <> Item /\ kind (h t) <> Exit.
Proof. unfold accepts. by destruct (kind (h t)). Qed.

Lemma holdings_moved_in (h : Store) (t i c : positive) :
  kind (h t) <> Item /\ kind (h t) <> Exit ->
  holdings (moved_in h t i) c
  = if bool_decide (c = t) then {[i]} ∪ holdings h t else holdings h c.
Proof.
  intros Hk. unfold moved_in. cbn zeta.
  rewrite holdings_set_contained_in. apply holdings_put_in. by right.
Qed.

Lemma holdings_take_out (h : Store) (s i c : positive) :
  holdings (<[s := take_out (h s) i]> h) c
  = if bool_decide (c = s) then holdings h s ∖ {[i]} else holdings h c.
Proof.
  unfold holdings. rewrite kind_update_take.
  case_bool_decide as Hc; [subst c | by thing_lookup].
  thing_lookup. unfold take_out.
  destruct (kind (h s)) eqn:E; try done.
  all: apply set_eq; intros y; rewrite elem_of_difference, elem_of_empty;
    tauto.
Qed.

Lemma holdings_moved_out (h : Store) (s i c : positive) :
  holdings (moved_out h s i) c
  = if bool_decide (c = s) then holdings h s ∖ {[i]} else holdings h c.
Proof.
  unfold moved_out. cbn zeta.
  rewrite holdings_set_contained_in. apply holdings_take_out.
Qed.

Lemma contained_in_put_in (t : Thing) (i : positive) :
  contained_in (put_in t i) = contained_in t.
Proof. unfold put_in. by destruct (kind t). Qed.

Lemma contained_in_take_out (t : Thing) (i : positive) :
  contained_in (take_out t i) = contained_in t.
Proof. unfold take_out. by destruct (kind t). Qed.

Lemma contained_in_moved_in (h : Store) (t i x : positive) :
  contained_in (moved_in h t i x)
  = if bool_decide (x = i) then Some t else contained_in (h x).
Proof.
  unfold moved_in. cbn zeta. case_bool_decide as Hx; [subst x |].
  - by thing_lookup.
  - rewrite thing_insert_ne by done.
    destruct (decide (t = x)) as [->|Ht]; thing_lookup; [| done].
    apply contained_in_put_in.
Qed.

Lemma contained_in_moved_out (h : Store) (s i x : positive) :
  contained_in (moved_out h s i x)
  = if bool_decide (x = i) then None else contained_in (h x).
Proof.
  unfold moved_out. cbn zeta. case_bool_decide as Hx; [subst x |].
  - by thing_lookup.
  - rewrite thing_insert_ne by done.
    destruct (decide (s = x)) as [->|Ht]; thing_lookup; [| done].
    apply contained_in_take_out.
Qed.

Lemma livings_put_in (t : Thing) (i : positive) :
  livings (put_in t i) = livings t.
Proof. unfold put_in. by destruct (kind t). Qed.

Lemma livings_take_out (t : Thing) (i : positive) :
  livings (take_out t i) = livings t.
Proof. unfold take_out. by destruct (kind t). Qed.

Lemma livings_moved_in (h : Store) (t i x : positive) :
  livings (moved_in h t i x) = livings (h x).
Proof.
  unfold moved_in. cbn zeta.
  destruct (decide (i = x)) as [->|Hi]; thing_lookup; cbn [livings set_contained_in].
  all: destruct (decide (t = x)) as [->|Ht]; thing_lookup; try done.
  all: apply livings_put_in.
Qed.

Lemma livings_moved_out (h : Store) (s i x : positive) :
  livings (moved_out h s i x) = livings (h x).
Proof.
  unfold moved_out. cbn zeta.
  destruct (decide (i = x)) as [->|Hi]; thing_lookup; cbn [livings set_contained_in].
  all: destruct (decide (s = x)) as [->|Ht]; thing_lookup; try done.
  all: apply livings_take_out.
Qed.

Lemma is_item_kind (h h' : Store) (x : positive) :
  kind (h' x) = kind (h x) -> is_item (h' x) = is_item (h x).
Proof. unfold is_item. by intros ->. Qed.

Lemma is_living_kind (h h' : Store) (x : positive) :
  kind (h' x) = kind (h x) -> is_living (h' x) = is_living (h x).
Proof. unfold is_living. by intros ->. Qed.

(** Taking an item out of its holder, and putting a loose item into a
    holder, keep the store consistent. *)
Lemma consistent_moved_out (h : Store) (s i : positive) :
  consistent h -> is_item (h i) = true -> contained_in (h i) = Some s ->
  consistent (moved_out h s i).
Proof.
  intros [Hc Hl] Hi Hs. split.
  - intros j c Hj.
    rewrite (is_item_kind h) in Hj by apply kind_moved_out.
    rewrite holdings_moved_out, contained_in_moved_out.
    specialize (Hc j c Hj).
    destruct (decide (j = i)) as [->|Hji];
      destruct (decide (c = s)) as [->|Hcs];
      decide_all.
    + rewrite elem_of_difference, elem_of_singleton. split; [tauto | done].
    + rewrite Hc, Hs. split; intros; congruence.
    + rewrite elem_of_difference, elem_of_singleton. tauto.
    + done.
  - intros l c. rewrite kind_moved_out, livings_moved_out.
    rewrite (is_living_kind h) by apply kind_moved_out. apply Hl.
Qed.

Lemma consistent_moved_in (h : Store) (t i : positive) :
  consistent h -> is_item (h i) = true -> contained_in (h i) = None ->
  kind (h t) <> Item /\ kind (h t) <> Exit ->
  consistent (moved_in h t i).
Proof.
  intros [Hc Hl] Hi Hs Hk. split.
  - intros j c Hj.
    rewrite (is_item_kind h) in Hj by apply kind_moved_in.
    rewrite holdings_moved_in, contained_in_moved_in by done.
    specialize (Hc j c Hj).
    destruct (decide (j = i)) as [->|Hji];
      destruct (decide (c = t)) as [->|Hcs];
      decide_all.
    + rewrite elem_of_union, elem_of_singleton. split; [done | tauto].
    + rewrite Hc, Hs. split; intros; congruence.
    + rewrite elem_of_union, elem_of_singleton. tauto.
    + done.
  - intros l c. rewrite kind_moved_in, livings_moved_in.
    rewrite (is_living_kind h) by apply kind_moved_in. apply Hl.
Qed.

(** Putting an item back where it was taken from restores the store. *)
Lemma moved_back (h : Store) (s i : positive) :
  consistent h -> is_item (h i) = true -> contained_in (h i) = Some s ->
  forall x, moved_in (moved_out h s i) s i x = h x.
Proof.
  intros [Hc Hl] Hi Hs x.
  assert (Hin : i ∈ holdings h s) by (by apply Hc).
  assert (Hput : put_in (take_out (h s) i) i = h s).
  { unfold holdings in Hin.
    assert (Hset : forall X : gset positive, i ∈ X -> {[i]} ∪ X ∖ {[i]} = X).
    { intros X HX. apply set_eq. intros y.
      rewrite elem_of_union, elem_of_difference, elem_of_singleton.
      destruct (decide (y = i)) as [->|]; tauto. }
    destruct (h s) as [k ti ci lo inv lv it pr ag].
    unfold put_in, take_out, set_items, set_inventory. simpl in *.
    destruct k; simpl; rewrite ?Hset by done; try done.
    all: by apply elem_of_empty in Hin. }
  unfold moved_in, moved_out. cbn zeta.
  destruct (decide (s = i)) as [->|Hsi].
  - thing_lookup. destruct (decide (i = x)) as [->|Hx]; thing_lookup;
      [| done].
    assert (Hput' : forall t v, put_in (set_contained_in t v) x
                                = set_contained_in (put_in t x) v).
    { intros t v. unfold put_in.
      by destruct (kind t) eqn:E; simpl; rewrite ?E. }
    rewrite Hput', Hput. rewrite <- Hs. by destruct (h x).
  - destruct (decide (i = x)) as [->|Hx]; thing_lookup.
    + cbn [set_contained_in]. rewrite <- Hs. by destruct (h x).
    + rewrite (thing_insert_ne _ i s) by done. thing_lookup.
      destruct (decide (s = x)) as [->|Hsx]; thing_lookup; [| done].
      done.
Qed.

(** [remove] of an item that the holder holds, in one piece. *)
Lemma remove_item (self i : positive) (actor : option positive) (h : Store) :
  consistent h -> is_item (h i) = true -> contained_in (h i) = Some self ->
  remove self i actor h
  = (if releases h self actor then ([], moved_out h self i, inr tt)
     else ([], h, result (remove self i actor h)))
  /\ (releases h self actor = false ->
      exists msg, result (remove self i actor h)
                  = inl (Err (ActionRefused msg))).
Proof.
  intros [Hc Hl] Hi Hs.
  assert (Hin : i ∈ holdings h self) by (by apply Hc).
  unfold remove, releases. rewrite wbind_wget.
  unfold holdings in Hin. unfold moved_out, take_out.
  destruct (kind (h self)) eqn:Hk.
  - unfold Location_remove. rewrite wbind_wget.
    rewrite bool_decide_eq_false_2.
    2:{ intros Hliv. apply (Hl i self Hk) in Hliv.
        by rewrite (item_not_living _ Hi) in Hliv. }
    rewrite bool_decide_eq_true_2 by done.
    rewrite wbind_update. unfold assign_location. rewrite wbind_wget.
    assert (Hi' : is_item ((<[self := set_items (h self)
                                (items (h self) ∖ {[i]})]> h) i) = true).
    { destruct (decide (self = i)) as [->|Hne]; thing_lookup; [| done].
      by unfold is_item in *. }
    by rewrite Hi', update_run.
  - unfold Living_remove. rewrite wbind_wget, Hi. cbn [negb].
    destruct (may_handle h self actor).
    + rewrite bool_decide_eq_true_2 by done.
      by rewrite wbind_update, update_run.
    + split; [done |]. intros _. by eexists.
  - unfold Living_remove. rewrite wbind_wget, Hi. cbn [negb].
    destruct (may_handle h self actor).
    + rewrite bool_decide_eq_true_2 by done.
      by rewrite wbind_update, update_run.
    + split; [done |]. intros _. by eexists.
  - unfold Container_remove. rewrite wbind_wget, Hi. cbn [negb].
    rewrite bool_decide_eq_true_2 by done.
    by rewrite wbind_update, update_run.
  - by apply elem_of_empty in Hin.
  - by apply elem_of_empty in Hin.
Qed.

Lemma may_handle_same (h h' : Store) (self : positive)
    (actor : option positive) :
  (forall x, privileges (h' x) = privileges (h x)) ->
  may_handle h' self actor = may_handle h self actor.
Proof. intros Hp. unfold may_handle. destruct actor; [| done]. by rewrite Hp. Qed.

Lemma privileges_moved_out (h : Store) (s i x : positive) :
  privileges (moved_out h s i x) = privileges (h x).
Proof.
  unfold moved_out, take_out. cbn zeta.
  destruct (decide (i = x)) as [->|Hi]; thing_lookup;
    cbn [privileges set_contained_in].
  all: destruct (decide (s = x)) as [->|Ht]; thing_lookup; try done.
  all: by destruct (kind (h x)).
Qed.

Lemma aggressive_moved_out (h : Store) (s i x : positive) :
  aggressive (moved_out h s i x) = aggressive (h x).
Proof.
  unfold moved_out, take_out. cbn zeta.
  destruct (decide (i = x)) as [->|Hi]; thing_lookup;
    cbn [aggressive set_contained_in].
  all: destruct (decide (s = x)) as [->|Ht]; thing_lookup; try done.
  all: by destruct (kind (h x)).
Qed.

(** A holder that has released an item takes it back. *)
Lemma releases_accepts (h : Store) (s i : positive)
    (actor : option positive) :
  releases h s actor = true -> accepts (moved_out h s i) s actor = true.
Proof.
  unfold releases, accepts. rewrite kind_moved_out.
  rewrite (may_handle_same h (moved_out h s i))
    by apply privileges_moved_out.
  destruct (kind (h s)); try done. intros ->. apply orb_true_r.
Qed.

(** [Item.move] in one piece, for an item in a consistent store. *)
Lemma Item_move_unfold (i t : positive) (actor : option positive)
    (h : Store) :
  consistent h -> is_item (h i) = true ->
  Item_move lang_capital i t actor h
  = match contained_in (h i) with
    | Some s =>
        if releases h s actor then
          let h1 := moved_out h s i in
          if accepts h1 t actor then ([], moved_in h1 t i, inr tt)
          else ([], moved_in h1 s i,
                result (insert lang_capital t i actor h1))
        else ([], h, result (remove s i actor h))
    | None =>
        if accepts h t actor then ([], moved_in h t i, inr tt)
        else ([], h, inl (Err AttributeError))
    end.
Proof.
  intros Hcons Hi. unfold Item_move. rewrite wbind_wget.
  destruct (contained_in (h i)) as [s|] eqn:Hs.
  - destruct (remove_item s i actor h Hcons Hi Hs) as [Hr Hrefused].
    rewrite wbind_run, Hr.
    destruct (releases h s actor) eqn:Hrel; cbn [result store events snd fst].
    + assert (Hi1 : is_item (moved_out h s i i) = true).
      { by rewrite (is_item_kind h) by apply kind_moved_out. }
      unfold try_reraise.
      destruct (insert_item t i actor (moved_out h s i) Hi1) as [Ht Htr].
      rewrite Ht. cbn zeta.
      destruct (accepts (moved_out h s i) t actor) eqn:Hacc; [done |].
      destruct (Htr eq_refl) as [msg Hmsg]. rewrite Hmsg.
      destruct (insert_item s i actor (moved_out h s i) Hi1) as [Hback _].
      rewrite Hback, (releases_accepts h s i actor Hrel). done.
    + destruct (Hrefused eq_refl) as [msg Hmsg]. rewrite Hmsg.
      by rewrite Hmsg in Hr.
  - rewrite wbind_wret. unfold try_reraise.
    destruct (insert_item t i actor h Hi) as [Ht Htr]. rewrite Ht.
    destruct (accepts h t actor) eqn:Hacc; [done |].
    destruct (Htr eq_refl) as [msg Hmsg]. by rewrite Hmsg.
Qed.

Lemma Item_move_consistent (i t : positive) (actor : option positive)
    (h : Store) :
  consistent h -> is_item (h i) = true ->
  consistent (store (Item_move lang_capital i t actor h)).
Proof.
  intros Hcons Hi. rewrite Item_move_unfold by done.
  destruct (contained_in (h i)) as [s|] eqn:Hs.
  - destruct (releases h s actor) eqn:Hrel; [| done].
    assert (H1 : consistent (moved_out h s i))
      by (by apply consistent_moved_out).
    assert (Hi1 : is_item (moved_out h s i i) = true).
    { by rewrite (is_item_kind h) by apply kind_moved_out. }
    assert (Hn1 : contained_in (moved_out h s i i) = None).
    { by rewrite contained_in_moved_out, bool_decide_eq_true_2. }
    cbn zeta.
    destruct (accepts (moved_out h s i) t actor) eqn:Hacc;
      unfold store; cbn [fst snd].
    + apply consistent_moved_in; try done. by eapply holder_kind.
    + apply consistent_moved_in; try done.
      eapply holder_kind. by apply releases_accepts.
  - destruct (accepts h t actor) eqn:Hacc; [| done].
    unfold store; cbn [fst snd].
    apply consistent_moved_in; try done. by eapply holder_kind.
Qed.

(** [Item.move] keeps the store consistent, whether it returns or
    raises: afterwards, as before, every item is among the holdings of
    exactly the object that its [contained_in] names. *)
Theorem item_move_keeps_consistency (i t : positive)
    (actor : option positive) (h : Store) :
  consistent h -> is_item (h i) = true ->
  consistent (store (Item_move lang_capital i t actor h)).
Proof. apply Item_move_consistent. Qed.

(** [Item.move] is all or nothing. When it returns, the item is held by
    the target and by nothing else, and its [contained_in] is the
    target. When it raises, every object is as it was before the call:
    an item that had left its source is back in it. *)
Theorem item_move_all_or_nothing (i t : positive)
    (actor : option positive) (h : Store) :
  consistent h -> is_item (h i) = true ->
  match result (Item_move lang_capital i t actor h) with
  | inr _ =>
      contained_in (store (Item_move lang_capital i t actor h) i) = Some t
      /\ forall c,
           i ∈ holdings (store (Item_move lang_capital i t actor h)) c
           <-> c = t
  | inl _ => forall x, store (Item_move lang_capital i t actor h) x = h x
  end.
Proof.
  intros Hcons Hi.
  pose proof (Item_move_consistent i t actor h Hcons Hi) as [Hafter _].
  assert (Hdone : forall h',
            (forall j c, is_item (h' j) = true ->
               j ∈ holdings h' c <-> contained_in (h' j) = Some c) ->
            is_item (h' i) = true -> contained_in (h' i) = Some t ->
            contained_in (h' i) = Some t
            /\ forall c, i ∈ holdings h' c <-> c = t).
  { intros h' Hc' Hi' Ht'. split; [done |]. intros c.
    rewrite (Hc' i c Hi'), Ht'. split; congruence. }
  revert Hafter. rewrite Item_move_unfold by done.
  destruct (contained_in (h i)) as [s|] eqn:Hs.
  - destruct (releases h s actor) eqn:Hrel.
    + cbn zeta.
      destruct (accepts (moved_out h s i) t actor) eqn:Hacc;
        unfold store, result; cbn [fst snd].
      * intros Hafter. apply Hdone; [done | |].
        -- rewrite (is_item_kind (moved_out h s i)) by apply kind_moved_in.
           by rewrite (is_item_kind h) by apply kind_moved_out.
        -- by rewrite contained_in_moved_in, bool_decide_eq_true_2.
      * intros _.
        assert (Hi1 : is_item (moved_out h s i i) = true).
        { by rewrite (is_item_kind h) by apply kind_moved_out. }
        destruct (insert_item t i actor (moved_out h s i) Hi1)
          as [_ Htr].
        destruct (Htr Hacc) as [msg Hmsg]. unfold result in Hmsg.
        rewrite Hmsg. by apply moved_back.
    + intros _.
      destruct (remove_item s i actor h Hcons Hi Hs) as [_ Hrefused].
      destruct (Hrefused Hrel) as [msg Hmsg].
      unfold result, store in *. cbn [fst snd]. by rewrite Hmsg.
  - destruct (accepts h t actor) eqn:Hacc; unfold store, result;
      cbn [fst snd]; [| done].
    intros Hafter. apply Hdone; [done | |].
    + by rewrite (is_item_kind h) by apply kind_moved_in.
    + by rewrite contained_in_moved_in, bool_decide_eq_true_2.
Qed.

(** An item that is nowhere ([contained_in] is [None]) and that the
    target refuses: [Item.move] does not raise the refusal of the
    target. Its handler calls [insert] on the missing source, and the
    caller sees [AttributeError]; the store is unchanged. *)
Theorem loose_item_move_hides_refusal (i t : positive)
    (actor : option positive) (h : Store) (e : exn) :
  is_item (h i) = true -> contained_in (h i) = None ->
  result (insert lang_capital t i actor h) = inl e ->
  Item_move lang_capital i t actor h = ([], h, inl (Err AttributeError))
  /\ exists msg, e = Err (ActionRefused msg).
Proof.
  intros Hi Hs He. unfold Item_move. rewrite wbind_wget, Hs, wbind_wret.
  unfold try_reraise.
  destruct (insert_item t i actor h Hi) as [Ht Htr].
  destruct (accepts h t actor) eqn:Hacc.
  { rewrite Ht in He. by unfold result in He. }
  destruct (Htr eq_refl) as [msg Hmsg]. rewrite Ht, Hmsg.
  split; [done |]. exists msg. congruence.
Qed.

(** [NPC.insert], for an item: an NPC that is not aggressive accepts it
    from any actor, and from no actor at all; an aggressive one accepts
    it only from itself or from a wizard, and refuses with the message
    that giving is not a good idea. The other refusal that the method
    spells out, that the NPC does not want the item, is never raised. *)
Theorem npc_insert_accepts_unless_aggressive (self i : positive)
    (actor : option positive) (h : Store) :
  is_item (h i) = true -> kind (h self) = NPC ->
  NPC_insert lang_capital self i actor h
  = if negb (aggressive (h self)) || may_handle h self actor
    then ([], moved_in h self i, inr tt)
    else ([], h,
          inl (Err (ActionRefused
                 ("It's probably not a good idea to give " +:+ title (h i)
                  +:+ " to " +:+ title (h self) +:+ ".")))).
Proof.
  intros Hi Hk. unfold NPC_insert. rewrite wbind_wget.
  destruct (negb (aggressive (h self)) || may_handle h self actor) eqn:Hc.
  - rewrite Living_insert_item by auto. unfold may_handle.
    by rewrite bool_decide_eq_true_2.
  - apply orb_false_iff in Hc as [Ha _]. apply negb_false_iff in Ha.
    by rewrite Ha.
Qed.

(** *** [Living.move] *)

Lemma is_location_kind (h h' : Store) (x : positive) :
  kind (h' x) = kind (h x) -> is_location (h' x) = is_location (h x).
Proof. unfold is_location. by intros ->. Qed.

(** [Location.remove] of a living, in one piece. *)
Lemma Location_remove_living (o self : positive) (h : Store) :
  is_living (h self) = true ->
  exists h1,
    Location_remove o self h = ([], h1, inr tt)
    /\ (forall x, kind (h1 x) = kind (h x))
    /\ (forall x, title (h1 x) = title (h x))
    /\ (self ∉ livings (h1 o))
    /\ forall x, x <> o -> livings (h1 x) = livings (h x).
Proof.
  intros Hl.
  assert (Hni : is_item (h self) = false).
  { unfold is_item, is_living in *. by destruct (kind (h self)). }
  unfold Location_remove, assign_location. rewrite wbind_wget.
  case_bool_decide as Hin.
  - rewrite wbind_update, wbind_wget.
    assert (Hni' : is_item ((<[o := set_livings (h o) (livings (h o) ∖ {[self]})]> h) self) = false).
    { destruct (decide (o = self)) as [->|Hne]; thing_lookup; [| done].
      by unfold is_item in *. }
    rewrite Hni', update_run. eexists. split; [done |].
    repeat split.
    + intros x. destruct (decide (self = x)) as [->|Hx]; thing_lookup;
        cbn [kind set_location];
        destruct (decide (o = x)) as [->|Hox]; by thing_lookup.
    + intros x. destruct (decide (self = x)) as [->|Hx]; thing_lookup;
        cbn [title set_location];
        destruct (decide (o = x)) as [->|Hox]; by thing_lookup.
    + destruct (decide (self = o)) as [->|Hx]; thing_lookup;
        cbn [livings set_location set_livings]; thing_lookup;
        cbn [livings set_location set_livings];
        rewrite elem_of_difference, elem_of_singleton; tauto.
    + intros x Hxo. destruct (decide (self = x)) as [->|Hx]; thing_lookup;
        cbn [livings set_location]; by thing_lookup.
  - case_bool_decide as Hin2.
    + rewrite wbind_update, wbind_wget.
      assert (Hni' : is_item ((<[o := set_items (h o) (items (h o) ∖ {[self]})]> h) self) = false).
      { destruct (decide (o = self)) as [->|Hne]; thing_lookup; [| done].
        by unfold is_item in *. }
      rewrite Hni', update_run. eexists. split; [done |].
      repeat split.
      * intros x. destruct (decide (self = x)) as [->|Hx]; thing_lookup;
          cbn [kind set_location];
          destruct (decide (o = x)) as [->|Hox]; by thing_lookup.
      * intros x. destruct (decide (self = x)) as [->|Hx]; thing_lookup;
          cbn [title set_location];
          destruct (decide (o = x)) as [->|Hox]; by thing_lookup.
      * destruct (decide (self = o)) as [->|Hx]; thing_lookup;
          cbn [livings set_location set_items]; by thing_lookup.
      * intros x Hxo. destruct (decide (self = x)) as [->|Hx]; thing_lookup;
          cbn [livings set_location]; by thing_lookup.
    + exists h. done.
Qed.

(** [Location.insert] of a living, in one piece. *)
Lemma Location_insert_living (t self : positive) (h : Store) :
  is_living (h self) = true ->
  exists h2,
    Location_insert t self h = ([], h2, inr tt)
    /\ location (h2 self) = Some t
    /\ self ∈ livings (h2 t)
    /\ forall x, x <> t -> livings (h2 x) = livings (h x).
Proof.
  intros Hl.
  assert (Hni : is_item (h self) = false).
  { unfold is_item, is_living in *. by destruct (kind (h self)). }
  unfold Location_insert, assign_location.
  rewrite wbind_wget, Hl, wbind_update, wbind_wget.
  assert (Hni' : is_item ((<[t := set_livings (h t) ({[self]} ∪ livings (h t))]> h) self) = false).
  { destruct (decide (t = self)) as [->|Hne]; thing_lookup; [| done].
    by unfold is_item in *. }
  rewrite Hni', update_run. eexists. split; [done |]. repeat split.
  - by thing_lookup.
  - destruct (decide (self = t)) as [->|Hx]; thing_lookup;
      cbn [livings set_location set_livings]; thing_lookup;
      cbn [livings set_location set_livings];
      rewrite elem_of_union, elem_of_singleton; tauto.
  - intros x Hxt. destruct (decide (self = x)) as [->|Hx]; thing_lookup;
      cbn [livings set_location]; by thing_lookup.
Qed.

(** [Living.move] to a location never fails for a living whose current
    location, if it has one, is a location. Afterwards the living is
    among the livings of the target, its [location] is the target, it is
    no longer among the livings of the location it came from, and the
    two locations have been told and the driver notified in the order
    of [move_events]. *)
Theorem living_move_arrives (self t : positive) (actor : option positive)
    (silent is_player : bool) (h : Store) :
  is_living (h self) = true -> is_location (h t) = true ->
  (forall o, location (h self) = Some o -> is_location (h o) = true) ->
  let r := Living_move lang_capital self t actor silent is_player h in
  result r = inr tt
  /\ location (store r self) = Some t
  /\ self ∈ livings (store r t)
  /\ (forall o, location (h self) = Some o -> o <> t ->
        self ∉ livings (store r o))
  /\ events r = move_events lang_capital h self t silent is_player.
Proof.
  intros Hl Ht Ho r. unfold r, Living_move, move_events.
  rewrite wbind_wget, Ht. cbn [negb].
  destruct (location (h self)) as [o|] eqn:Hloc.
  - specialize (Ho o eq_refl).
    assert (Hko : kind (h o) = Location).
    { unfold is_location in Ho. by destruct (kind (h o)). }
    assert (Hkt : kind (h t) = Location).
    { unfold is_location in Ht. by destruct (kind (h t)). }
    destruct (Location_remove_living o self h Hl)
      as (h1 & Hrem & Hk1 & Ht1 & Hout & Hoth).
    assert (Hl1 : is_living (h1 self) = true)
      by (by rewrite (is_living_kind h)).
    destruct (Location_insert_living t self h1 Hl1)
      as (h2 & Hins & Hloc2 & Hin2 & Hoth2).
    assert (Hremove : remove o self (Some (default self actor)) h
                      = ([], h1, inr tt)).
    { unfold remove. by rewrite wbind_wget, Hko. }
    assert (Hinsert : insert lang_capital t self (Some (default self actor)) h1
                      = ([], h2, inr tt)).
    { unfold insert. by rewrite wbind_wget, Hk1, Hkt. }
    rewrite !wbind_run. rewrite Hremove.
    cbn [result store events fst snd].
    unfold try_reraise. rewrite Hinsert.
    cbn [result store events fst snd].
    destruct silent; cbn [negb]; unfold emit, wret;
      cbn [result store events fst snd app].
    all: repeat split; try done.
    all: intros o' [= <-] Hne; by rewrite Hoth2.
  - destruct (Location_insert_living t self h Hl)
      as (h2 & Hins & Hloc2 & Hin2 & Hoth2).
    assert (Hkt : kind (h t) = Location).
    { unfold is_location in Ht. by destruct (kind (h t)). }
    assert (Hinsert : insert lang_capital t self (Some (default self actor)) h
                      = ([], h2, inr tt)).
    { unfold insert. by rewrite wbind_wget, Hkt. }
    rewrite !wbind_run. rewrite Hinsert.
    cbn [result store events fst snd].
    destruct silent; cbn [negb]; unfold emit, wret;
      cbn [result store events fst snd app].
    all: repeat split; try done.
Qed.

End ThingFacts.

(** *** The theorems on containment in the hall *)

Section InTheHall.

Import Things.
Local Open Scope positive_scope.

Lemma hall_elsewhere (x : positive) :
  x <> 1 -> x <> 2 -> x <> 3 -> x <> 4 -> x <> 5 -> x <> 6 ->
  Hall.things x = Hall.nothing.
Proof.
  intros. unfold Hall.things. by rewrite !fn_lookup_insert_ne by done.
Qed.

Lemma hall_cases (P : positive -> Prop) :
  P 1 -> P 2 -> P 3 -> P 4 -> P 5 -> P 6 ->
  (forall x, Hall.things x = Hall.nothing -> P x) ->
  forall x, P x.
Proof.
  intros H1 H2 H3 H4 H5 H6 Hn x.
  destruct (decide (x = 1)) as [->|?]; [done |].
  destruct (decide (x = 2)) as [->|?]; [done |].
  destruct (decide (x = 3)) as [->|?]; [done |].
  destruct (decide (x = 4)) as [->|?]; [done |].
  destruct (decide (x = 5)) as [->|?]; [done |].
  destruct (decide (x = 6)) as [->|?]; [done |].
  apply Hn. by apply hall_elsewhere.
Qed.

Lemma hall_consistent : consistent Hall.things.
Proof.
  split.
  - intros i. pattern i. apply hall_cases; try (intros c H; discriminate H).
    + intros c _. pattern c. apply hall_cases.
      1-6: vm_compute; split; [done | intros H; discriminate H || done].
      intros x Hx. unfold holdings. rewrite Hx. simpl.
      rewrite elem_of_empty. split; [done |]. intros H. injection H as <-.
      discriminate Hx.
    + intros c _. pattern c. apply hall_cases.
      1-6: vm_compute; split; [done | intros H; discriminate H].
      intros x Hx. unfold holdings. rewrite Hx. simpl.
      rewrite elem_of_empty. split; [done |]. intros H. discriminate H.
    + intros x Hx c H. rewrite Hx in H. discriminate H.
  - intros l c. pattern c. apply hall_cases; try (intros H; discriminate H).
    + intros _ Hl. change (l ∈ ({[2; 5]} : gset positive)) in Hl.
      apply elem_of_union in Hl as [Hl|Hl]; apply elem_of_singleton in Hl;
        by subst l.
    + intros _ Hl. by apply elem_of_empty in Hl.
    + intros x Hx H. rewrite Hx in H. discriminate H.
Qed.

Lemma item_move_keeps_consistency_witness :
  result (Item_move Sample.capital 3 4 (Some 2) Hall.things) = inr tt
  /\ consistent (store (Item_move Sample.capital 3 4 (Some 2) Hall.things)).
Proof.
  split; [reflexivity |].
  apply (item_move_keeps_consistency Sample.capital 3 4 (Some 2) Hall.things).
  - exact hall_consistent.
  - reflexivity.
Defined.

Lemma item_move_all_or_nothing_witness :
  result (Item_move Sample.capital 3 2 None Hall.things)
  = inl (Err (ActionRefused "Ann doesn't want coin."))
  /\ forall x, store (Item_move Sample.capital 3 2 None Hall.things) x
               = Hall.things x.
Proof.
  split; [reflexivity |].
  pose proof (item_move_all_or_nothing Sample.capital 3 2 None Hall.things
                hall_consistent eq_refl) as H.
  exact H.
Defined.

Lemma loose_item_move_hides_refusal_witness :
  result (insert Sample.capital 2 4 None Hall.things)
  = inl (Err (ActionRefused "Ann doesn't want bag."))
  /\ Item_move Sample.capital 4 2 None Hall.things
     = ([], Hall.things, inl (Err AttributeError)).
Proof.
  split; [reflexivity |].
  apply (loose_item_move_hides_refusal Sample.capital 4 2 None Hall.things
           (Err (ActionRefused "Ann doesn't want bag."))); reflexivity.
Defined.

Lemma npc_insert_accepts_unless_aggressive_witness :
  NPC_insert Sample.capital 5 3 (Some 2) Hall.things
  = ([], Hall.things,
     inl (Err (ActionRefused
                 "It's probably not a good idea to give coin to dog."))).
Proof.
  rewrite (npc_insert_accepts_unless_aggressive Sample.capital 5 3 (Some 2)
             Hall.things); reflexivity.
Defined.

Lemma living_move_arrives_witness :
  let r := Living_move Sample.capital 2 6 None false true Hall.things in
  result r = inr tt
  /\ location (store r 2) = Some 6
  /\ 2 ∈ livings (store r 6)
  /\ (forall o, location (Hall.things 2) = Some o -> o <> 6 ->
        2 ∉ livings (store r o))
  /\ events r
     = [LocationTold 1 "Ann leaves." (Some 2);
        Queued (notify_player_left 1 2 6);
        LocationTold 6 "Ann arrives." (Some 2);
        Queued (notify_player_arrived 6 2 (Some 1))].
Proof.
  apply (living_move_arrives Sample.capital 2 6 None false true Hall.things).
  - reflexivity.
  - reflexivity.
  - intros o H. injection H as <-. reflexivity.
Defined.

End InTheHall.

(** ** Binding an exit *)

Lemma dict_get_set {V} (d : dict V) (k k' : string) (v : V) :
  dict_get (dict_set d k v) k'
  = if String.eqb k k' then Some v else dict_get d k'.
Proof.
  induction d as [|[k0 v0] d IH]; simpl; [done |].
  destruct (String.eqb_spec k0 k) as [->|Hne]; simpl.
  - by destruct (String.eqb k k').
  - rewrite IH. destruct (String.eqb_spec k0 k') as [->|Hne'].
    + destruct (String.eqb_spec k k') as [->|]; done.
    + done.
Qed.

Lemma dict_has_set {V} (d : dict V) (k k' : string) (v : V) :
  dict_has (dict_set d k v) k' = String.eqb k k' || dict_has d k'.
Proof.
  unfold dict_has. rewrite dict_get_set. by destruct (String.eqb k k').
Qed.

Lemma Exit_bind_outcome (exits0 : dict MudObject) (self : MudObject)
    (order : list string) :
  NoDup order ->
  match Exit_bind exits0 self order with
  | (exits1, inr _) =>
      Forall (fun d => dict_has exits0 d = false) order
      /\ forall k, dict_get exits1 k
                   = if bool_decide (k ∈ order) then Some self
                     else dict_get exits0 k
  | (exits1, inl e) =>
      exists pre d post,
        order = pre ++ d :: post
        /\ e = LocationIntegrityError (exit_already_exists d)
        /\ dict_has exits0 d = true
        /\ Forall (fun d => dict_has exits0 d = false) pre
        /\ forall k, dict_get exits1 k
                     = if bool_decide (k ∈ pre) then Some self
                       else dict_get exits0 k
  end.
Proof.
  revert exits0. induction order as [|d rest IH]; intros exits0 Hnd.
  - cbn [Exit_bind]. split; [by apply Forall_nil |]. intros k.
    rewrite bool_decide_eq_false_2; [done |]. by apply not_elem_of_nil.
  - apply NoDup_cons in Hnd as [Hd Hnd]. cbn [Exit_bind].
    destruct (dict_has exits0 d) eqn:Hhas.
    + exists [], d, rest. do 3 (split; [done |]).
      split; [by apply Forall_nil |]. intros k. rewrite bool_decide_eq_false_2; [done |].
      by apply not_elem_of_nil.
    + specialize (IH (dict_set exits0 d self) Hnd).
      assert (Hget : forall l k, d ∉ l ->
                (if bool_decide (k ∈ l) then Some self
                 else dict_get (dict_set exits0 d self) k)
                = if bool_decide (k ∈ d :: l) then Some self
                  else dict_get exits0 k).
      { intros l k Hl. rewrite dict_get_set.
        destruct (String.eqb_spec d k) as [->|Hne].
        - rewrite (bool_decide_eq_true_2 (k ∈ k :: l))
            by (apply elem_of_cons; by left).
          by destruct (bool_decide (k ∈ l)).
        - destruct (decide (k ∈ l)) as [Hin|Hin].
          + rewrite !bool_decide_eq_true_2; [done | | done].
            apply elem_of_cons. by right.
          + rewrite !bool_decide_eq_false_2; [done | | done].
            rewrite elem_of_cons. intros [->|]; done. }
      assert (Hkeep : forall l, d ∉ l ->
                Forall (fun x => dict_has (dict_set exits0 d self) x = false) l
                -> Forall (fun x => dict_has exits0 x = false) l).
      { intros l Hl Hall. eapply Forall_impl; [exact Hall |]. intros x.
        cbv beta. rewrite dict_has_set. intros H.
        by apply orb_false_iff in H as [_ H]. }
      destruct (Exit_bind (dict_set exits0 d self) self rest)
        as [exits1 [e|[]]].
      * destruct IH as (pre & d' & post & -> & -> & Hd' & Hpre & Hk).
        assert (Hdpre : d ∉ pre).
        { intros H. apply Hd. apply elem_of_app. by left. }
        exists (d :: pre), d', post. do 2 (split; [done |]).
        split; [| split].
        -- rewrite dict_has_set in Hd'. apply orb_true_iff in Hd' as [H|H];
             [| done].
           apply String.eqb_eq in H as ->. exfalso. apply Hd.
           apply elem_of_app. right. apply elem_of_cons. by left.
        -- apply Forall_cons. split; [done |]. by apply Hkeep.
        -- intros k. rewrite Hk. by apply Hget.
      * destruct IH as [Hall Hk]. split.
        -- apply Forall_cons. split; [done |]. by apply Hkeep.
        -- intros k. rewrite Hk. by apply Hget.
Qed.

(** [Exit.bind] is not transactional. It succeeds exactly when none of
    the exit's directions is a key of [location.exits]; then each
    direction maps to the exit and every other key is as before. When it
    raises [LocationIntegrityError], it names the first direction, in
    iteration order, that was a key already, and the directions before
    that one stay bound to the exit. *)
Theorem exit_bind_stops_at_first_clash (exits0 : dict MudObject)
    (self : MudObject) (order : list string) :
  directions_of self order ->
  match Exit_bind exits0 self order with
  | (exits1, inr _) =>
      Forall (fun d => dict_has exits0 d = false) order
      /\ forall k, dict_get exits1 k
                   = if bool_decide (k ∈ order) then Some self
                     else dict_get exits0 k
  | (exits1, inl e) =>
      exists pre d post,
        order = pre ++ d :: post
        /\ e = LocationIntegrityError (exit_already_exists d)
        /\ dict_has exits0 d = true
        /\ Forall (fun d => dict_has exits0 d = false) pre
        /\ forall k, dict_get exits1 k
                     = if bool_decide (k ∈ pre) then Some self
                       else dict_get exits0 k
  end.
Proof. intros [Hnd _]. by apply Exit_bind_outcome. Qed.

(** An exit that [Exit.__init__] has made and [Exit.bind] has bound is
    found under its first direction in lower case and under each of the
    other directions as they were given; the first direction as given,
    when it is not in lower case and not repeated among the others,
    stays as it was in [location.exits]. *)
Theorem new_exit_is_bound_under_lowered_name (id : positive)
    (directions : Directions) (target_location : Target)
    (self : MudObject) (order : list string) (exits0 : dict MudObject)
    (first : string) (rest : list string) :
  split_directions directions = inr (first, rest) ->
  Exit_init id directions target_location = inr self ->
  directions_of self order ->
  (Exit_bind exits0 self order).2 = inr tt ->
  dict_get (Exit_bind exits0 self order).1 (Py.lower first) = Some self
  /\ (forall d, d ∈ rest ->
        dict_get (Exit_bind exits0 self order).1 d = Some self)
  /\ (first <> Py.lower first -> first ∉ rest ->
        dict_get (Exit_bind exits0 self order).1 first
        = dict_get exits0 first).
Proof.
  intros Hs Hi [Hnd Hdir] Hb. unfold Exit_init in Hi. rewrite Hs in Hi.
  injection Hi as <-. cbn [name aliases] in Hdir.
  pose proof (Exit_bind_outcome exits0
                (mkObj id IsExit (Py.lower first) (remove_dups rest)
                   match target_location with
                   | TargetLocation _ loc_title => "Exit to " +:+ loc_title
                   | TargetName target_str =>
                       "Exit to <unbound:" +:+ target_str +:+ ">"
                   end "it" "its" "it" None) order Hnd) as H.
  destruct (Exit_bind exits0 _ order) as [exits1 [e|[]]]; [done |].
  destruct H as [_ Hk]. cbn [fst]. split; [| split].
  - rewrite Hk, bool_decide_eq_true_2; [done |]. apply Hdir. by left.
  - intros d Hd. rewrite Hk, bool_decide_eq_true_2; [done |].
    apply Hdir. right. by apply elem_of_remove_dups.
  - intros Hlow Hrest. rewrite Hk, bool_decide_eq_false_2; [done |].
    intros Hin. apply Hdir in Hin as [Hin|Hin]; [done |].
    apply Hrest. revert Hin. apply elem_of_remove_dups.
Qed.

(** ** What a location tells *)

Lemma told_to_app (who : positive) (a b : list Event) :
  told_to who (a ++ b) = told_to who a ++ told_to who b.
Proof. unfold told_to. apply omap_app. Qed.

(** [Location.tell] tells each living of the location exactly once,
    except the excluded one, which is told nothing, as is anyone who is
    not there: a living among the specific targets gets the message for
    them, every other one the room message. *)
Theorem location_tell_reaches_each_living_once (location_name : string)
    (livings : list positive) (room_msg : string)
    (exclude_living : option positive) (specific_targets : list positive)
    (specific_target_msg : string) (who : positive) :
  NoDup livings ->
  told_to who
    (Location_tell location_name livings room_msg exclude_living
       specific_targets specific_target_msg)
  = if bool_decide (who ∈ livings)
       && negb (bool_decide (Some who = exclude_living))
    then [if bool_decide (who ∈ specific_targets) then specific_target_msg
          else room_msg]
    else [].
Proof.
  intros Hnd. unfold Location_tell. rewrite told_to_app.
  assert (Htap : told_to who
            (if Py.nonempty room_msg
             then [Wiretapped location_name room_msg] else []) = []).
  { by destruct (Py.nonempty room_msg). }
  rewrite Htap, app_nil_r. clear Htap.
  induction livings as [|l livings IH].
  - rewrite bool_decide_eq_false_2 by apply not_elem_of_nil. done.
  - apply NoDup_cons in Hnd as [Hl Hnd]. specialize (IH Hnd).
    cbn [flat_map]. rewrite told_to_app, IH. clear IH.
    destruct (decide (who = l)) as [->|Hne].
    + rewrite (bool_decide_eq_true_2 (l ∈ l :: livings))
        by (apply elem_of_cons; by left).
      rewrite (bool_decide_eq_false_2 (l ∈ livings)) by done.
      cbn [andb]. rewrite app_nil_r.
      destruct (bool_decide (Some l = exclude_living)); [done |].
      cbn [negb]. destruct (bool_decide (l ∈ specific_targets)); simpl;
        by rewrite bool_decide_eq_true_2.
    + assert (Hfirst : told_to who
                (if bool_decide (Some l = exclude_living) then []
                 else if bool_decide (l ∈ specific_targets)
                 then [Told l specific_target_msg]
                 else [Told l room_msg]) = []).
      { destruct (bool_decide (Some l = exclude_living)); [done |].
        destruct (bool_decide (l ∈ specific_targets)); simpl;
          by rewrite bool_decide_eq_false_2. }
      rewrite Hfirst. cbn [app].
      destruct (decide (who ∈ livings)) as [Hin|Hin].
      * rewrite (bool_decide_eq_true_2 (who ∈ livings)) by done.
        rewrite (bool_decide_eq_true_2 (who ∈ l :: livings)); [done |].
        apply elem_of_cons. by right.
      * rewrite (bool_decide_eq_false_2 (who ∈ livings)) by done.
        rewrite (bool_decide_eq_false_2 (who ∈ l :: livings)); [done |].
        rewrite elem_of_cons. intros [|]; done.
Qed.

(** ** Choosing a random move *)

Lemma directions_with_exits_elem (exits0 : dict Way) (ds : list string)
    (d : string) :
  directions_with_exits exits0 = inr ds -> d ∈ ds ->
  exists e, (d, e) ∈ exits0 /\ target_has_exits e = Some true.
Proof.
  revert ds. induction exits0 as [|[k e] rest IH]; intros ds H Hd;
    simpl in H.
  - simplify_eq. by apply elem_of_nil in Hd.
  - destruct (target_has_exits e) as [b|] eqn:Hb; [| done].
    destruct (directions_with_exits rest) as [err|ds']; [done |].
    simplify_eq. destruct b.
    + apply elem_of_cons in Hd as [->|Hd].
      * exists e. split; [apply elem_of_cons; by left | done].
      * destruct (IH ds' eq_refl Hd) as (e' & He' & Ht).
        exists e'. split; [apply elem_of_cons; by right | done].
    + destruct (IH ds' eq_refl Hd) as (e' & He' & Ht).
      exists e'. split; [apply elem_of_cons; by right | done].
Qed.

Lemma directions_with_exits_fails (exits0 : dict Way) (err : exn) :
  directions_with_exits exits0 = inl err ->
  err = Err AttributeError
  /\ exists d e, (d, e) ∈ exits0 /\ target_has_exits e = None.
Proof.
  induction exits0 as [|[k e] rest IH]; simpl; [done |].
  destruct (target_has_exits e) as [b|] eqn:Hb.
  - destruct (directions_with_exits rest) as [err'|ds']; [| done].
    intros H. simplify_eq. destruct (IH eq_refl) as (-> & d & e' & Hin & Hn).
    split; [done |]. exists d, e'. split; [| done].
    apply elem_of_cons. by right.
  - intros H. simplify_eq. split; [done |]. exists k, e.
    split; [apply elem_of_cons; by left | done].
Qed.

Lemma dict_get_unique {V} (d : dict V) (k : string) (v : V) :
  NoDup (dict_keys d) -> (k, v) ∈ d -> dict_get d k = Some v.
Proof.
  unfold dict_keys. induction d as [|[k0 v0] d IH]; intros Hnd Hin.
  - by apply elem_of_nil in Hin.
  - rewrite fmap_cons in Hnd. apply NoDup_cons in Hnd as [Hk Hnd]. simpl.
    apply elem_of_cons in Hin as [Heq|Hin].
    + simplify_eq. by rewrite String.eqb_refl.
    + destruct (String.eqb_spec k0 k) as [->|Hne]; [| by apply IH].
      exfalso. apply Hk. simpl. apply list_elem_of_fmap. by exists (k, v).
Qed.

Section RandomMove.

Context (exits0 : dict Way) (choice : nat -> nat).
Hypothesis keys_unique : NoDup (dict_keys exits0).

(** One pick: the direction is in the list and names an exit whose
    target has exits. *)
Lemma pick_is_an_exit (ds : list string) (n : nat) :
  directions_with_exits exits0 = inr ds -> ds <> [] ->
  exists d e,
    ds !! (n mod length ds) = Some d /\ dict_get exits0 d = Some e
    /\ (d, e) ∈ exits0 /\ target_has_exits e = Some true.
Proof.
  intros Hds Hne.
  assert (Hlen : (n mod length ds < length ds)%nat).
  { apply Nat.mod_upper_bound. by destruct ds. }
  apply lookup_lt_is_Some_2 in Hlen as [d Hd].
  destruct (directions_with_exits_elem exits0 ds d Hds) as (e & Hin & Ht).
  { by eapply list_elem_of_lookup_2. }
  exists d, e. repeat split; try done. by apply dict_get_unique.
Qed.

Lemma try_moves_outcome (ds : list string) (round tries : nat) :
  directions_with_exits exits0 = inr ds -> ds <> [] ->
  match try_moves exits0 ds choice round tries with
  | inr (Some xt) =>
      exists d, (d, xt) ∈ exits0 /\ target_has_exits xt = Some true
                /\ passage xt = inr tt
  | inr None =>
      forall n, n < tries ->
        exists d e msg,
          ds !! (choice (round + n) mod length ds) = Some d
          /\ dict_get exits0 d = Some e
          /\ passage e = inl (Err (ActionRefused msg))
  | inl err =>
      (forall msg, err <> Err (ActionRefused msg))
      /\ exists d e, (d, e) ∈ exits0 /\ target_has_exits e = Some true
                     /\ passage e = inl err
  end.
Proof.
  intros Hds Hne. revert round.
  induction tries as [|tries IH]; intros round; cbn [try_moves];
    [intros n; lia |].
  destruct (pick_is_an_exit ds (choice round) Hds Hne)
    as (d & e & Hd & He & Hin & Ht).
  rewrite Hd, He.
  destruct (passage e) as [err|[]] eqn:Hp; [| by exists d].
  assert (Hother : (forall msg, err <> Err (ActionRefused msg)) ->
            (forall msg, err <> Err (ActionRefused msg))
            /\ exists d e, (d, e) ∈ exits0 /\ target_has_exits e = Some true
                           /\ passage e = inl err).
  { intros H. split; [done |]. by exists d, e. }
  destruct err as [er|why|]; try (apply Hother; done).
  destruct er; try (apply Hother; done).
  specialize (IH (S round)).
  destruct (try_moves exits0 ds choice (S round) tries) as [err|[xt|]];
    [done | done |].
  intros [|n] Hn.
  - rewrite Nat.add_0_r. exists d, e. eexists. by rewrite Hd, He.
  - replace (round + S n) with (S round + n) by lia.
    apply IH. lia.
Qed.

(** [select_random_move] returns only an exit of the location whose
    target has exits of its own and that lets the living pass. It
    returns [None] when no exit leads to a location with exits, or when
    each of the four picks refused passage. It never raises
    [ActionRefused]: what it raises is [AttributeError], for an exit
    without a target, or what [allow_passage] raised. *)
Theorem select_random_move_outcome :
  match select_random_move exits0 choice with
  | inr (Some xt) =>
      exists d, (d, xt) ∈ exits0 /\ target_has_exits xt = Some true
                /\ passage xt = inr tt
  | inr None =>
      exists ds,
        directions_with_exits exits0 = inr ds
        /\ (ds = []
            \/ forall n, n < 4 ->
                 exists d e msg,
                   ds !! (choice n mod length ds) = Some d
                   /\ dict_get exits0 d = Some e
                   /\ passage e = inl (Err (ActionRefused msg)))
  | inl err =>
      (forall msg, err <> Err (ActionRefused msg))
      /\ (err = Err AttributeError
          /\ (exists d e, (d, e) ∈ exits0 /\ target_has_exits e = None)
          \/ exists d e, (d, e) ∈ exits0 /\ target_has_exits e = Some true
                         /\ passage e = inl err)
  end.
Proof.
  unfold select_random_move.
  destruct (directions_with_exits exits0) as [err|ds] eqn:Hds.
  - apply directions_with_exits_fails in Hds as [-> Hex].
    split; [done |]. by left.
  - destruct ds as [|d0 ds]; [exists []; split; [done | by left] |].
    pose proof (try_moves_outcome (d0 :: ds) 0 4 Hds) as H.
    destruct (try_moves exits0 (d0 :: ds) choice 0 4) as [err|[xt|]].
    + destruct H as [Hno Hex]; [done |]. split; [done |]. by right.
    + by apply H.
    + exists (d0 :: ds). split; [done |]. right. by apply H.
Qed.

End RandomMove.

(** *** The three theorems at [Sample.room] *)

Lemma south_directions :
  directions_of Ways.south ["out"; "north"; "south"].
Proof.
  split; [apply (bool_decide_unpack _); vm_compute; reflexivity |].
  intros d. cbn [name aliases Ways.south].
  rewrite !elem_of_cons, !elem_of_nil. tauto.
Qed.

Lemma exit_bind_stops_at_first_clash_witness :
  (Exit_bind (exits Sample.room) Ways.south ["out"; "north"; "south"]).2
  = inl (LocationIntegrityError (exit_already_exists "north"))
  /\ match Exit_bind (exits Sample.room) Ways.south
             ["out"; "north"; "south"] with
     | (exits1, inr _) =>
         Forall (fun d => dict_has (exits Sample.room) d = false)
           ["out"; "north"; "south"]
         /\ forall k, dict_get exits1 k
                      = if bool_decide (k ∈ ["out"; "north"; "south"])
                        then Some Ways.south
                        else dict_get (exits Sample.room) k
     | (exits1, inl e) =>
         exists pre d post,
           ["out"; "north"; "south"] = pre ++ d :: post
           /\ e = LocationIntegrityError (exit_already_exists d)
           /\ dict_has (exits Sample.room) d = true
           /\ Forall (fun d => dict_has (exits Sample.room) d = false) pre
           /\ forall k, dict_get exits1 k
                        = if bool_decide (k ∈ pre) then Some Ways.south
                          else dict_get (exits Sample.room) k
     end.
Proof.
  split; [reflexivity |].
  apply (exit_bind_stops_at_first_clash (exits Sample.room) Ways.south
           ["out"; "north"; "south"] south_directions).
Defined.

Lemma west_directions :
  directions_of Ways.west ["Westward"; "west"].
Proof.
  split; [apply (bool_decide_unpack _); vm_compute; reflexivity |].
  intros d. cbn [name aliases Ways.west].
  rewrite !elem_of_cons, !elem_of_nil. tauto.
Qed.

Lemma new_exit_is_bound_under_lowered_name_witness :
  dict_get (Exit_bind (exits Sample.room) Ways.west ["Westward"; "west"]).1
    "west" = Some Ways.west
  /\ (forall d, d ∈ ["Westward"; "Westward"] ->
        dict_get
          (Exit_bind (exits Sample.room) Ways.west ["Westward"; "west"]).1 d
        = Some Ways.west)
  /\ ("West" <> "west" -> "West" ∉ ["Westward"; "Westward"] ->
        dict_get
          (Exit_bind (exits Sample.room) Ways.west ["Westward"; "west"]).1
          "West"
        = dict_get (exits Sample.room) "West").
Proof.
  apply (new_exit_is_bound_under_lowered_name 15
           (SeveralDirections ["West"; "Westward"; "Westward"])
           (TargetName "town.road") Ways.west ["Westward"; "west"]
           (exits Sample.room) "West" ["Westward"; "Westward"]).
  - reflexivity.
  - reflexivity.
  - exact west_directions.
  - reflexivity.
Defined.

Lemma location_tell_reaches_each_living_once_witness :
  told_to 3 (Location_tell "hall" [1; 2; 3]%positive "Ann waves." (Some 2%positive)
               [3%positive] "Ann waves at you.")
  = ["Ann waves at you."].
Proof.
  rewrite (location_tell_reaches_each_living_once "hall" [1; 2; 3]%positive
             "Ann waves." (Some 2%positive) [3%positive] "Ann waves at you."
             3%positive).
  - reflexivity.
  - apply (bool_decide_unpack _). vm_compute. reflexivity.
Defined.

Lemma select_random_move_outcome_witness :
  select_random_move Ways.ways Ways.picks
  = inr (Some (mkWay Sample.north (Some true) (inr tt)))
  /\ exists d, (d, mkWay Sample.north (Some true) (inr tt)) ∈ Ways.ways.
Proof.
  split; [reflexivity |].
  assert (Hk : NoDup (dict_keys Ways.ways)).
  { apply (bool_decide_unpack _). vm_compute. reflexivity. }
  pose proof (select_random_move_outcome Ways.ways Ways.picks Hk) as H.
  change (select_random_move Ways.ways Ways.picks)
    with (@inr exn _ (Some (mkWay Sample.north (Some true) (inr tt)))) in H.
  destruct H as (d & Hd & _). by exists d.
Defined.
